(** * psearch: database generation ([psearch/gen_db.py])

    A shallow embedding of the control logic of [gen_db.py]: the input
    deduplicator [check_dupl_input], the conformer pruner [remove_confs],
    the per-molecule unit of work [gen_data] and the orchestrator
    [create_db], followed by the properties stated for them.

    Conventions.
    - The chemistry toolkit (RDKit, pmapper), pandas and the operating
      system are external: they are the fields of the class [Toolkit].
    - Python floats (energies, RMS values) are modelled as rationals [Q]:
      subtraction and comparisons are exact; NaN and infinities are not
      represented.
    - The geometry of a conformer is taken wherever it lies: RDKit moves
      a conformer when it measures its RMS against another, which leaves
      the exact value of a later measurement as it was and can change the
      last digits of a floating-point one.
    - A Python exception, or a loop that would not finish within the
      iteration bound computed for it, is the result [None] of a function
      returning [option]; the totality lemmas show neither happens. *)

From Stdlib Require Import String Ascii Bool Arith PeanoNat Lia.
From Stdlib Require Import ZArith QArith Lqa Decimal DecimalNat DecimalString.
From Stdlib Require Import List Permutation Sorted.
Import ListNotations.

Local Close Scope Q_scope.
Local Open Scope list_scope.

(** ** Python helpers *)

(** [str(n)] for a non-negative integer. *)
Definition str (n : nat) : string := NilEmpty.string_of_uint (Nat.to_uint n).

(** [s.split("#")[0]]: the part of [s] before its first ['#']. *)
Fixpoint split_hash_head (s : string) : string :=
  match s with
  | EmptyString => EmptyString
  | String c r => if Ascii.eqb c "#"%char then EmptyString
                  else String c (split_hash_head r)
  end.

(** The identifier tried for suffix [k]: [f"{base}#{k}"]. *)
Definition candidate (base : string) (k : nat) : string :=
  (base ++ "#" ++ str k)%string.

(** [x in l] for a list of strings. *)
Definition in_strs (x : string) (l : list string) : bool :=
  existsb (String.eqb x) l.

(** [x in l] for a list of integers. *)
Definition in_nats (x : nat) (l : list nat) : bool :=
  existsb (Nat.eqb x) l.

Definition nl : string := String (ascii_of_nat 10) EmptyString.
Definition tab : string := String (ascii_of_nat 9) EmptyString.

(** [itertools.combinations(l, 2)]. *)
Fixpoint combinations2 {A : Type} (l : list A) : list (A * A) :=
  match l with
  | [] => []
  | x :: r => map (pair x) r ++ combinations2 r
  end.

(** [sum(flags)] for a list of booleans. *)
Definition sum_flags (flags : list bool) : nat :=
  length (filter (fun b => b) flags).

(** ** The external collaborators *)

Class Toolkit : Type := {
  (** the molecular graph of an RDKit molecule (atoms, bonds, properties) *)
  Struct : Type;
  (** the coordinates of one conformer *)
  Geom : Type;
  (** pmapper pharmacophore objects and what is read from them *)
  Pharm : Type;
  FeatureCoords : Type;
  Fingerprint : Type;
  (** [Chem.MolToSmiles] *)
  canon_smiles : Struct -> string;
  (** [AllChem.MMFFGetMoleculeForceField(...)] followed by [CalcEnergy()];
      [None] when the force field is [None] *)
  mmff_energy : Struct -> Geom -> option Q;
  (** the value [AllChem.GetConformerRMS] computes for two conformers *)
  conformer_rms : Struct -> Geom -> Geom -> Q;
  (** [Chem.AssignStereochemistry(mol, flagPossibleStereoCenters=True)] *)
  assign_stereo : Struct -> Struct;
  (** [EnumerateStereoisomers] with [tryEmbedding=True], [maxIsomers] *)
  enumerate_stereo : Struct -> Z -> list Struct;
  (** [Chem.AddHs] *)
  add_hs : Struct -> Struct;
  (** [AllChem.EmbedMultipleConfs(mol, numConfs, maxAttempts, randomSeed)]:
      the embedded geometries, which get the ids 0, 1, ... *)
  embed_confs : Struct -> Z -> Z -> Z -> list Geom;
  (** [AllChem.MMFFOptimizeMolecule(mol, confId)] on one geometry *)
  mmff_optimize : Struct -> Geom -> Geom;
  (** [pmapper.utils.load_multi_conf_mol]: one pharmacophore per conformer *)
  load_pharm : Struct -> Geom -> option string -> Z -> Pharm;
  get_feature_coords : Pharm -> FeatureCoords;
  get_fp : Pharm -> Fingerprint;
  (** [psearch.scripts.read_input.read_input] *)
  read_input : string -> list (Struct * string);
  (** [os.path.splitext(p)[0]] *)
  splitext_root : string -> string;
  (** [multiprocessing.cpu_count()] *)
  cpu_count : Z;
  (** the order in which [Pool.imap_unordered] hands results back *)
  completion_order : forall A : Type, list A -> list A;
  (** the order in which the lines the worker processes write, each to the
      stderr it inherited, come out: given the lines of every worker, the
      stream they make together *)
  stderr_interleaving : list (list string) -> list string;
  (** [datetime.now().strftime(...)] *)
  date_time : string
}.

(** ** Molecules *)

Section Molecules.
Context {TK : Toolkit}.

Record Conformer : Type := mkConformer {
  conf_id : nat;
  conf_geom : Geom
}.

(** An RDKit molecule: its graph and its conformers in storage order. *)
Record Mol : Type := mkMol {
  mol_struct : Struct;
  mol_confs : list Conformer
}.

Definition MolToSmiles (mol : Mol) : string := canon_smiles (mol_struct mol).

(** [mol.GetConformer(cid)]: the first conformer carrying that id;
    [None] stands for RDKit's [ValueError] on an unknown id. *)
Definition GetConformer (mol : Mol) (cid : nat) : option Conformer :=
  find (fun c => Nat.eqb (conf_id c) cid) (mol_confs mol).

End Molecules.

(** ** The deduplicator: [check_dupl_input] *)

Section Deduplicator.
Context {TK : Toolkit}.

(** An entry of [box_mols]: a molecule, or the string ["duplicate"]. *)
Inductive mol_entry : Type :=
  | MolObj (mol : Mol)
  | DuplicateMark.

Record boxes : Type := mkBoxes {
  box_mols : list mol_entry;
  box_smi : list string;
  box_mol_ids : list string;
  box_flags : list bool;
  box_out : list string   (* what was written to stdout *)
}.

Definition empty_boxes : boxes := mkBoxes [] [] [] [] [].

Definition warn_dupl_mol (mol_name : string) : string :=
  ("WARNING! The molecule with name " ++ mol_name
   ++ " meets the second time in the input file. "
   ++ "This molecule will be omitted" ++ nl)%string.

Definition warn_dupl_id (mol_name : string) (suffix : nat) : string :=
  ("WARNING! The molecule ID " ++ mol_name
   ++ " meets the second time for the distinct molecule SMILES. "
   ++ "New molecule ID will be given to this molecule - "
   ++ split_hash_head mol_name ++ "#" ++ str suffix ++ nl)%string.

(** The loop [while mol_name in box_mol_ids: ...] of lines 72-77; [fuel]
    bounds the number of renamings. *)
Fixpoint rename_loop (fuel : nat) (ids : list string) (mol_name : string)
    (suffix : nat) (out : list string) : option (string * list string) :=
  match fuel with
  | O => if in_strs mol_name ids then None else Some (mol_name, out)
  | S fuel' =>
      if in_strs mol_name ids then
        rename_loop fuel' ids
          (split_hash_head mol_name ++ "#" ++ str suffix)%string
          (S suffix)
          (out ++ [warn_dupl_id mol_name suffix])
      else Some (mol_name, out)
  end.

(** One iteration of the [for mol, mol_name in read_input(fname)] loop.
    The counter [n] of the source is never read and is left out. *)
Definition check_dupl_step (st : boxes) (rec : Mol * string) : option boxes :=
  let (mol, mol_name) := rec in
  if in_strs (MolToSmiles mol) (box_smi st) then
    Some (mkBoxes (box_mols st ++ [DuplicateMark])
                  (box_smi st ++ ["duplicate"%string])
                  (box_mol_ids st ++ [mol_name])
                  (box_flags st ++ [true])
                  (box_out st ++ [warn_dupl_mol mol_name]))
  else if in_strs mol_name (box_mol_ids st) then
    match rename_loop (S (length (box_mol_ids st))) (box_mol_ids st)
                      mol_name 1 (box_out st) with
    | None => None
    | Some (mol_name', out') =>
        Some (mkBoxes (box_mols st ++ [MolObj mol])
                      (box_smi st ++ [MolToSmiles mol])
                      (box_mol_ids st ++ [mol_name'])
                      (box_flags st ++ [true])
                      out')
    end
  else
    Some (mkBoxes (box_mols st ++ [MolObj mol])
                  (box_smi st ++ [MolToSmiles mol])
                  (box_mol_ids st ++ [mol_name])
                  (box_flags st ++ [false])
                  (box_out st)).

Fixpoint check_dupl_loop (records : list (Mol * string)) (st : boxes)
    : option boxes :=
  match records with
  | [] => Some st
  | rec :: rest =>
      match check_dupl_step st rec with
      | None => None
      | Some st' => check_dupl_loop rest st'
      end
  end.

(** The loop of [check_dupl_input] over the sequence the reader yields. *)
Definition check_dupl_records (records : list (Mol * string)) : option boxes :=
  check_dupl_loop records empty_boxes.

(** The molecules [read_input] yields: 2D structures, no conformers. *)
Definition input_records (fname : string) : list (Mol * string) :=
  map (fun r => (mkMol (fst r) [], snd r)) (read_input fname).

Definition check_dupl_input (fname : string) : option boxes :=
  check_dupl_records (input_records fname).

(** [get_mol]: the entries that are not the ["duplicate"] mark. *)
Fixpoint get_mol (mols : list (mol_entry * string)) : list (Mol * string) :=
  match mols with
  | [] => []
  | (DuplicateMark, _) :: rest => get_mol rest
  | (MolObj mol, mol_name) :: rest => (mol, mol_name) :: get_mol rest
  end.

End Deduplicator.

(** ** The conformer pruner: [remove_confs] *)

Section Pruner.
Context {TK : Toolkit}.

(** [x < y] on floats. *)
Definition Qltb (x y : Q) : bool := negb (Qle_bool y x).

Definition stderr_ff_none (mol : Mol) : string :=
  (MolToSmiles mol ++ ". MMFFGetMoleculeForceField return NONE" ++ nl)%string.

(** What the loop of lines 115-120 ends with: the early [return] after a
    force field that is [None], or the list [e]. *)
Inductive energies : Type :=
  | FFNone
  | Energies (e : list (nat * Q)).

(** [for conf in mol.GetConformers(): ...]; the force field is asked for
    by conformer id ([confId=conf.GetId()]). *)
Fixpoint energy_loop (mol : Mol) (confs : list Conformer) (e : list (nat * Q))
    : option energies :=
  match confs with
  | [] => Some (Energies e)
  | conf :: rest =>
      match GetConformer mol (conf_id conf) with
      | None => None
      | Some c =>
          match mmff_energy (mol_struct mol) (conf_geom c) with
          | None => Some FFNone
          | Some en => energy_loop mol rest (e ++ [(conf_id conf, en)])
          end
      end
  end.

(** [sorted(e, key=lambda x: x[1])]: a stable sort on the energy; for keys
    that are totally ordered every stable sort gives the same list. *)
Fixpoint insert_by_energy (x : nat * Q) (l : list (nat * Q)) : list (nat * Q) :=
  match l with
  | [] => [x]
  | y :: r => if Qltb (snd y) (snd x) then y :: insert_by_energy x r
              else x :: y :: r
  end.

Definition sorted_by_energy (e : list (nat * Q)) : list (nat * Q) :=
  fold_right insert_by_energy [] e.

(** [for item in e[1:]: ...] of lines 130-134; [e0] is [e[0][1]]. *)
Fixpoint energy_cut (e0 energy : Q) (items : list (nat * Q))
    (kept_ids remove_ids : list nat) : list nat * list nat :=
  match items with
  | [] => (kept_ids, remove_ids)
  | item :: rest =>
      if Qle_bool (snd item - e0)%Q energy
      then energy_cut e0 energy rest (kept_ids ++ [fst item]) remove_ids
      else energy_cut e0 energy rest kept_ids (remove_ids ++ [fst item])
  end.

(** [AllChem.GetConformerRMS(mol, i1, i2)]: the value measured.  RDKit
    first moves conformer [i2] onto [i1] and leaves it where the alignment
    put it.  A [Geom] stands for a geometry wherever it lies, and the
    value, like every number here, is the exact one, which the position
    does not change: so the molecule is the same before and after.  The
    last digits of a floating-point value measured after such a move can
    differ from those measured before; what is said below of a pair
    measured again holds of the exact values only. *)
Definition GetConformerRMS (mol : Mol) (i1 i2 : nat) : option Q :=
  match GetConformer mol i1, GetConformer mol i2 with
  | Some c1, Some c2 =>
      Some (conformer_rms (mol_struct mol) (conf_geom c1) (conf_geom c2))
  | _, _ => None
  end.

(** The list comprehension of line 137. *)
Fixpoint rms_list_of (mol : Mol) (pairs : list (nat * nat))
    : option (list (nat * nat * Q)) :=
  match pairs with
  | [] => Some []
  | (i1, i2) :: rest =>
      match GetConformerRMS mol i1 i2 with
      | None => None
      | Some v =>
          match rms_list_of mol rest with
          | None => None
          | Some l => Some ((i1, i2, v) :: l)
          end
      end
  end.

Definition below (rms : Q) (item : nat * nat * Q) : bool := Qltb (snd item) rms.

(** [i[0] != item[1] and i[1] != item[1]] *)
Definition not_touching (cid : nat) (i : nat * nat * Q) : bool :=
  negb (Nat.eqb (fst (fst i)) cid) && negb (Nat.eqb (snd (fst i)) cid).

(** The [while any(...)] loop of lines 138-143: take the first item below
    the threshold, mark its second conformer, drop the items that mention
    it.  [fuel] bounds the number of rounds. *)
Fixpoint rms_loop (fuel : nat) (rms : Q) (rms_list : list (nat * nat * Q))
    (remove_ids : list nat) : option (list nat) :=
  match find (below rms) rms_list with
  | None => Some remove_ids
  | Some item =>
      match fuel with
      | O => None
      | S fuel' =>
          rms_loop fuel' rms
            (filter (not_touching (snd (fst item))) rms_list)
            (remove_ids ++ [snd (fst item)])
      end
  end.

(** [mol.RemoveConformer(cid)]: drops the first conformer with that id,
    and does nothing when there is none. *)
Fixpoint RemoveConformer (confs : list Conformer) (cid : nat) : list Conformer :=
  match confs with
  | [] => []
  | c :: r => if Nat.eqb (conf_id c) cid then r else c :: RemoveConformer r cid
  end.

(** [for cid in set(remove_ids): mol.RemoveConformer(cid)].  The set is
    walked in some order; [RemoveConformers_perm] shows the order does not
    matter. *)
Definition RemoveConformers (confs : list Conformer) (remove_ids : list nat)
    : list Conformer :=
  fold_left RemoveConformer (nodup Nat.eq_dec remove_ids) confs.

(** [for i, conf in enumerate(mol.GetConformers()): conf.SetId(i)],
    counting from [i]. *)
Fixpoint reindex (i : nat) (confs : list Conformer) : list Conformer :=
  match confs with
  | [] => []
  | c :: r => mkConformer i (conf_geom c) :: reindex (S i) r
  end.

(** Lines 126-143: from the sorted energies to [remove_ids]. *)
Definition select_remove_ids (mol : Mol) (e0 : nat * Q) (rest : list (nat * Q))
    (energy rms : option Q) : option (list nat) :=
  let '(kept_ids, remove_ids) :=
    match energy with
    | Some en => energy_cut (snd e0) en rest [fst e0] []
    | None => ([fst e0], [])
    end in
  match rms with
  | Some r =>
      match rms_list_of mol (combinations2 kept_ids) with
      | None => None
      | Some rms_list => rms_loop (length rms_list) r rms_list remove_ids
      end
  | None => Some remove_ids
  end.

(** [remove_confs(mol, energy, rms)]: the molecule as the call leaves it
    and what was written to stderr. *)
Definition remove_confs (mol : Mol) (energy rms : option Q)
    : option (Mol * list string) :=
  match energy_loop mol (mol_confs mol) [] with
  | None => None
  | Some FFNone => Some (mol, [stderr_ff_none mol])
  | Some (Energies e) =>
      match sorted_by_energy e with
      | [] => Some (mol, [])
      | e0 :: rest =>
          match select_remove_ids mol e0 rest energy rms with
          | None => None
          | Some remove_ids =>
              Some (mkMol (mol_struct mol)
                      (reindex 0 (RemoveConformers (mol_confs mol) remove_ids)),
                    [])
          end
      end
  end.

End Pruner.

(** ** The unit of work: [gen_stereo], [gen_conf], [gen_data] *)

Section UnitOfWork.
Context {TK : Toolkit}.

Definition gen_stereo (mol : Mol) (num_isomers : Z) : list Mol :=
  map (fun s => mkMol s [])
      (enumerate_stereo (assign_stereo (mol_struct mol)) num_isomers).

(** The conformers [EmbedMultipleConfs] adds carry the ids [i], [i+1], ... *)
Fixpoint conformers_from (i : nat) (geoms : list Geom) : list Conformer :=
  match geoms with
  | [] => []
  | g :: r => mkConformer i g :: conformers_from (S i) r
  end.

Definition gen_conf (mol : Mol) (num_confs seed : Z) : Mol :=
  let s := add_hs (mol_struct mol) in
  mkMol s (conformers_from 0
             (map (mmff_optimize s)
                  (embed_confs s num_confs (num_confs * 4) seed))).

(** [utils.load_multi_conf_mol(mol, smarts_features, bin_step)] *)
Definition load_multi_conf_mol (mol : Mol) (pharm_def : option string)
    (bin_step : Z) : list Pharm :=
  map (fun c => load_pharm (mol_struct mol) (conf_geom c) pharm_def bin_step)
      (mol_confs mol).

(** The tuple [gen_data] returns; the dictionaries keep insertion order
    and their keys [0, 1, ...] are never repeated. *)
Record unit_data : Type := mkUnitData {
  d_name : string;
  d_mol_dict : list (nat * Mol);
  d_ph_dict : list (nat * list FeatureCoords);
  d_fp_dict : list (nat * list Fingerprint)
}.

(** [for i, mol in enumerate(isomers): ...] of lines 158-165; [err] is
    what the worker wrote to stderr. *)
Fixpoint gen_data_loop (i : nat) (isomers : list Mol)
    (nconf : Z) (energy rms : option Q) (seed bin_step : Z)
    (pharm_def : option string) (acc : unit_data) (err : list string)
    : option (unit_data * list string) :=
  match isomers with
  | [] => Some (acc, err)
  | iso :: rest =>
      let mol := gen_conf iso nconf seed in
      match remove_confs mol energy rms with
      | None => None
      | Some (mol, err') =>
          let phs := load_multi_conf_mol mol pharm_def bin_step in
          gen_data_loop (S i) rest nconf energy rms seed bin_step pharm_def
            (mkUnitData (d_name acc)
               (d_mol_dict acc ++ [(i, mol)])
               (d_ph_dict acc ++ [(i, map get_feature_coords phs)])
               (d_fp_dict acc ++ [(i, map get_fp phs)]))
            (err ++ err')
      end
  end.

Definition gen_data (mol_cid : Mol * string) (nconf nstereo : Z)
    (energy rms : option Q) (seed bin_step : Z) (pharm_def : option string)
    : option (unit_data * list string) :=
  let (mol, mol_name) := mol_cid in
  let isomers := gen_stereo mol nstereo in
  gen_data_loop 0 isomers nconf energy rms seed bin_step pharm_def
    (mkUnitData mol_name [] [] []) [].

End UnitOfWork.

(** ** The orchestrator: [create_db] *)

Section Orchestrator.
Context {TK : Toolkit}.

(** The logical writes the record store receives. *)
Inductive db_write : Type :=
  | write_bin_step (bin_step : Z)
  | write_mol (mol_name : string) (mol_dict : list (nat * Mol))
  | write_pharm (mol_name : string) (ph_dict : list (nat * list FeatureCoords))
  | write_fp (mol_name : string) (fp_dict : list (nat * list Fingerprint)).

(** What [create_db] acts on: the paths that exist, the two output
    streams, the record store, the text files written (path and lines)
    and the worker pool. *)
Record World : Type := mkWorld {
  w_fs : list string;
  w_stdout : list string;
  w_stderr : list string;
  w_db : list db_write;
  w_files : list (string * list string);
  w_pool : option Z
}.

Inductive outcome : Type :=
  | Finished
  | Raised (msg : string).

Definition put_stdout (w : World) (msgs : list string) : World :=
  mkWorld (w_fs w) (w_stdout w ++ msgs) (w_stderr w) (w_db w) (w_files w)
          (w_pool w).

Definition put_stderr (w : World) (msgs : list string) : World :=
  mkWorld (w_fs w) (w_stdout w) (w_stderr w ++ msgs) (w_db w) (w_files w)
          (w_pool w).

Definition put_db (w : World) (ws : list db_write) : World :=
  mkWorld (w_fs w) (w_stdout w) (w_stderr w) (w_db w ++ ws) (w_files w)
          (w_pool w).

Definition set_pool (w : World) (p : option Z) : World :=
  mkWorld (w_fs w) (w_stdout w) (w_stderr w) (w_db w) (w_files w) p.

Definition write_file (w : World) (path : string) (lines : list string) : World :=
  mkWorld (path :: w_fs w) (w_stdout w) (w_stderr w) (w_db w)
          (w_files w ++ [(path, lines)]) (w_pool w).

(** [os.path.exists] *)
Definition path_exists (w : World) (path : string) : bool :=
  in_strs path (w_fs w).

(** Modelled from the spec: the constructor of the record store
    [psearch.database.DB], opened in "create new, fail if exists" mode; it
    rejects a target path that exists already and creates it otherwise. *)
Definition DB_new (w : World) (out_fname : string) : option World :=
  if path_exists w out_fname then None
  else Some (mkWorld (out_fname :: w_fs w) (w_stdout w) (w_stderr w) (w_db w)
                     (w_files w) (w_pool w)).

(** [c.lower()] on an ASCII letter. *)
Definition lower_ascii (c : ascii) : ascii :=
  let n := nat_of_ascii c in
  if (65 <=? n) && (n <=? 90) then ascii_of_nat (n + 32) else c.

Fixpoint lower (s : string) : string :=
  match s with
  | EmptyString => EmptyString
  | String c r => String (lower_ascii c) (lower r)
  end.

(** [s.endswith(suffix)] *)
Definition endswith (s suffix : string) : bool :=
  let n := String.length s in
  let k := String.length suffix in
  (k <=? n) && String.eqb (substring (n - k) k s) suffix.

Definition str_bool (b : bool) : string :=
  if b then "True"%string else "False"%string.

(** The rows of [pd.DataFrame(data={'smi': smis, 'cid': cids,
    'if_changed': flags})]. *)
Fixpoint frame_rows (smis cids : list string) (flags : list bool)
    : list (list string) :=
  match smis, cids, flags with
  | smi :: smis', cid :: cids', flag :: flags' =>
      [smi; cid; str_bool flag] :: frame_rows smis' cids' flags'
  | _, _, _ => []
  end.

Definition frame_columns : list string :=
  ["smi"%string; "cid"%string; "if_changed"%string].

(** [df.to_csv(path, sep=sep, index=None)]: the header row, then one line
    per row, fields joined by [sep]; no field is quoted. *)
Definition to_csv (columns : list string) (rows : list (list string))
    (sep : string) : list string :=
  map (String.concat sep) (columns :: rows).

(** The loop [while os.path.exists(new_in_fname): ...] of lines 209-211. *)
Fixpoint manifest_name_loop (fuel : nat) (w : World) (root new_in_fname : string)
    (suffix : nat) : option string :=
  match fuel with
  | O => if path_exists w new_in_fname then None else Some new_in_fname
  | S fuel' =>
      if path_exists w new_in_fname then
        manifest_name_loop fuel' w root
          (root ++ "-updated" ++ str suffix ++ ".smi")%string (S suffix)
      else Some new_in_fname
  end.

(** Lines 202-216. *)
Definition write_manifest (w : World) (in_fname : string)
    (smis cids : list string) (flags : list bool) : option World :=
  if 0 <? sum_flags flags then
    let w := put_stdout w
      [(nl ++ "WARNING! " ++ str (sum_flags flags)
        ++ " molecules were omitted and/or renamed "
        ++ "comparing with the original input file." ++ nl)%string] in
    let root := splitext_root in_fname in
    match manifest_name_loop (S (length (w_fs w))) w root
            (root ++ "-updated.smi")%string 2 with
    | None => None
    | Some new_in_fname =>
        let w := write_file w new_in_fname
                   (to_csv frame_columns (frame_rows smis cids flags) tab) in
        Some (put_stdout w
          [("The molecules corresponding to the generated database are stored in "
            ++ new_in_fname ++ " file" ++ nl ++ nl)%string])
    end
  else Some w.

(** [not data] for the tuple [gen_data] returns: a tuple of four items is
    never empty. *)
Definition is_empty_data (data : unit_data) : bool := false.

Definition progress_msg (i : nat) : string :=
  (str i ++ " number of molecules were processed. " ++ date_time ++ " " ++ nl)%string.

(** What one worker process wrote to stderr while it ran [gen_data]
    (line 118, inside [remove_confs]). *)
Definition worker_stderr (r : option (unit_data * list string)) : list string :=
  match r with
  | Some (_, err) => err
  | None => []
  end.

(** The body of the [for i, data in enumerate(..., 1)] loop, lines
    188-199, over the results in the order they arrive; a worker that
    raised is [None].  The loop itself writes nothing to stderr: the
    diagnostics were written by the workers, see [create_db]. *)
Fixpoint consume (i : nat) (results : list (option (unit_data * list string)))
    (verbose : bool) (w : World) : World * outcome :=
  match results with
  | [] => (w, Finished)
  | None :: _ => (w, Raised "worker")
  | Some (data, _) :: rest =>
      if is_empty_data data then consume (S i) rest verbose w
      else
        let w := put_db w [write_mol (d_name data) (d_mol_dict data);
                           write_pharm (d_name data) (d_ph_dict data);
                           write_fp (d_name data) (d_fp_dict data)] in
        let w := if (i mod 200 =? 0) && verbose
                 then put_stdout w [progress_msg i] else w in
        consume (S i) rest verbose w
  end.

(** The [finally] clause. *)
Definition finally_close (verbose : bool) (w : World) : World :=
  let w := if verbose
           then put_stdout w [("Database is created. " ++ date_time ++ nl)%string]
           else w in
  set_pool w None.

(** Lines 169-222.  The work units run in the processes of the pool,
    which share the stderr of the parent: what they write there comes out
    as they run, in the order [stderr_interleaving] gives, and not in the
    order the parent receives their results. *)
Definition create_db (w : World) (in_fname out_fname : string)
    (nconf nstereo : Z) (energy rms : option Q) (ncpu bin_step : Z)
    (pharm_def : option string) (seed : Z) (verbose : bool)
    : World * outcome :=
  let w := if verbose
           then put_stdout w
                  [("Database creation started. " ++ date_time ++ nl)%string]
           else w in
  if endswith (lower out_fname) ".dat" then
    match DB_new w out_fname with
    | None => (w, Raised "DB")
    | Some w =>
        let w := put_db w [write_bin_step bin_step] in
        match check_dupl_input in_fname with
        | None => (w, Raised "check_dupl_input")
        | Some bx =>
            let w := put_stdout w (box_out bx) in
            let nprocess := Z.min cpu_count (Z.max ncpu 1) in
            let w := set_pool w (Some nprocess) in
            let units := get_mol (combine (box_mols bx) (box_mol_ids bx)) in
            let outputs :=
              map (fun mol_cid =>
                     gen_data mol_cid nconf nstereo energy rms seed
                              bin_step pharm_def) units in
            let w := put_stderr w
                       (stderr_interleaving (map worker_stderr outputs)) in
            let results := completion_order _ outputs in
            match consume 1 results verbose w with
            | (w, Raised msg) => (finally_close verbose w, Raised msg)
            | (w, Finished) =>
                match write_manifest w in_fname (box_smi bx) (box_mol_ids bx)
                        (box_flags bx) with
                | None => (finally_close verbose w, Raised "manifest")
                | Some w => (finally_close verbose w, Finished)
                end
            end
        end
    end
  else (w, Raised ("Wrong output file format. Can be only DAT." ++ nl)%string).

End Orchestrator.

(** ** The command line: [entry_point] *)

Section EntryPoint.
Context {TK : Toolkit}.

(** [os.path.abspath], [os.path.dirname], and [os.makedirs(path,
    exist_ok=True)] as it changes the set of existing paths. *)
Variable abspath : string -> string.
Variable dirname : string -> string.
Variable makedirs : list string -> string -> list string.

(** The namespace [parser.parse_args()] returns. *)
Record Args : Type := mkArgs {
  a_input : string;
  a_db : string;
  a_bin_step : Z;
  a_nstereo : Z;
  a_nconf : Z;
  a_energy_cutoff : option Q;
  a_rms : option Q;
  a_seed : Z;
  a_pharm_def : option string;
  a_ncpu : Z;
  a_verbose : bool
}.

(** How [entry_point] ends: with what [create_db] did, or in [sys.exit]
    with a message. *)
Inductive exit_status : Type :=
  | Returned (o : outcome)
  | Exited (msg : string).

Definition msg_bad_ranges : string :=
  ("--bin_step, --nstereo, --nconf can not be less 0." ++ nl
   ++ "--stereo and/or --nconf can not be set to 0, otherwise, "
   ++ "the database will not be created correctly.")%string.

Definition msg_db_exists (fdb : string) : string :=
  ("Database with this " ++ fdb ++ " name already exists")%string.

Definition entry_point (w : World) (args : Args) : World * exit_status :=
  if (a_bin_step args <? 0)%Z || (a_nstereo args <=? 0)%Z
     || (a_nconf args <=? 0)%Z
  then (w, Exited msg_bad_ranges)
  else
    let fdb := abspath (a_db args) in
    if path_exists w fdb then (w, Exited (msg_db_exists fdb))
    else
      let w := mkWorld (makedirs (w_fs w) (dirname fdb)) (w_stdout w)
                       (w_stderr w) (w_db w) (w_files w) (w_pool w) in
      let (w', o) :=
        create_db w (abspath (a_input args)) fdb (a_nconf args)
                  (a_nstereo args) (a_energy_cutoff args) (a_rms args)
                  (a_ncpu args) (a_bin_step args) (a_pharm_def args)
                  (a_seed args) (a_verbose args) in
      (w', Returned o).

End EntryPoint.

(** ** Vocabulary of the statements *)

Section Vocabulary.
Context {TK : Toolkit}.

(** Position [i] of the deduplicator's output holds a molecule that was
    not dropped. *)
Definition kept_at (out : boxes) (i : nat) : Prop :=
  exists mol, nth_error (box_mols out) i = Some (MolObj mol).

(** Uniqueness of identifiers read word for word: the identifier of an
    entry that was not dropped differs from the identifier at every other
    position of the output identifier sequence. *)
Definition kept_ids_globally_unique (out : boxes) : Prop :=
  forall i j x y, i <> j -> kept_at out i ->
    nth_error (box_mol_ids out) i = Some x ->
    nth_error (box_mol_ids out) j = Some y -> x <> y.

(** What one iteration appends to the four lists. *)
Inductive appended (st : boxes) (mol : Mol) (mol_name : string)
    : mol_entry -> string -> string -> bool -> Prop :=
  | app_dropped :
      In (MolToSmiles mol) (box_smi st) ->
      appended st mol mol_name DuplicateMark "duplicate" mol_name true
  | app_renamed (k : nat) :
      ~ In (MolToSmiles mol) (box_smi st) ->
      In mol_name (box_mol_ids st) ->
      1 <= k ->
      ~ In (candidate (split_hash_head mol_name) k) (box_mol_ids st) ->
      (forall j, 1 <= j < k ->
         In (candidate (split_hash_head mol_name) j) (box_mol_ids st)) ->
      appended st mol mol_name (MolObj mol) (MolToSmiles mol)
               (candidate (split_hash_head mol_name) k) true
  | app_plain :
      ~ In (MolToSmiles mol) (box_smi st) ->
      ~ In mol_name (box_mol_ids st) ->
      appended st mol mol_name (MolObj mol) (MolToSmiles mol) mol_name false.

(** An identifier given to a kept entry is new among those before it. *)
Definition fresh_ids (st : boxes) : Prop :=
  length (box_mols st) = length (box_mol_ids st) /\
  forall i j x, i < j -> kept_at st j ->
    nth_error (box_mol_ids st) j = Some x ->
    nth_error (box_mol_ids st) i <> Some x.

(** Every conformer of the molecule has a force field. *)
Definition energies_computable (mol : Mol) : Prop :=
  forall c, In c (mol_confs mol) ->
    mmff_energy (mol_struct mol) (conf_geom c) <> None.

(** The conformer ids of the molecule are pairwise distinct, as they are
    after [EmbedMultipleConfs]. *)
Definition unique_conf_ids (mol : Mol) : Prop :=
  NoDup (map conf_id (mol_confs mol)).

(** The energy of a conformer that has a force field. *)
Definition energy_val (mol : Mol) (c : Conformer) : Q :=
  match mmff_energy (mol_struct mol) (conf_geom c) with
  | Some en => en
  | None => 0%Q
  end.

(** The RMS of two conformers of the molecule. *)
Definition rms_val (mol : Mol) (c1 c2 : Conformer) : Q :=
  conformer_rms (mol_struct mol) (conf_geom c1) (conf_geom c2).

(** The conformers whose id is not in [remove_ids]. *)
Definition surviving (remove_ids : list nat) (confs : list Conformer)
    : list Conformer :=
  filter (fun c => negb (in_nats (conf_id c) remove_ids)) confs.

(** The entry of [e] for a conformer. *)
Definition energy_entry (mol : Mol) (c : Conformer) : nat * Q :=
  (conf_id c, energy_val mol c).

(** The test of line 131 on an entry of [e]. *)
Definition within_cutoff (e0 energy : Q) (item : nat * Q) : bool :=
  Qle_bool (snd item - e0)%Q energy.

(** [kept_ids] and [remove_ids] after lines 126-134. *)
Definition kept_after_cut (e0 : nat * Q) (rest : list (nat * Q))
    (energy : option Q) : list nat :=
  fst e0 :: match energy with
            | Some en => map fst (filter (within_cutoff (snd e0) en) rest)
            | None => []
            end.

Definition cut_ids (e0 : nat * Q) (rest : list (nat * Q))
    (energy : option Q) : list nat :=
  match energy with
  | Some en =>
      map fst (filter (fun x => negb (within_cutoff (snd e0) en x)) rest)
  | None => []
  end.

(** [c0] is the first conformer, in storage order, of least energy. *)
Definition first_minimum (mol : Mol) (l1 : list Conformer) (c0 : Conformer)
    (l2 : list Conformer) : Prop :=
  mol_confs mol = l1 ++ c0 :: l2 /\
  (forall c, In c l1 -> (energy_val mol c0 < energy_val mol c)%Q) /\
  (forall c, In c l2 -> (energy_val mol c0 <= energy_val mol c)%Q).

(** Conformer [new] of [mol1] and conformer [old] of [mol] have the same
    geometry. *)
Definition same_conformer (mol1 mol : Mol) (new old : nat) : Prop :=
  exists c1 c, GetConformer mol1 new = Some c1 /\
               GetConformer mol old = Some c /\
               conf_geom c1 = conf_geom c.

Definition same_entry (mol1 mol : Mol) (p1 p : nat * Q) : Prop :=
  same_conformer mol1 mol (fst p1) (fst p) /\ snd p1 = snd p.

(** Ascending in the energy. *)
Definition energy_le (a b : nat * Q) : Prop := (snd a <= snd b)%Q.

(** The entries whose conformer is not in [remove_ids]. *)
Definition unmarked (remove_ids : list nat) (p : nat * Q) : bool :=
  negb (in_nats (fst p) remove_ids).

(** The names tried for the manifest: [root-updated.smi], then
    [root-updated2.smi], [root-updated3.smi], ... *)
Definition numbered_name (root : string) (k : nat) : string :=
  (root ++ "-updated" ++ str k ++ ".smi")%string.

Definition manifest_candidate (root : string) (k : nat) : string :=
  if k <=? 1 then (root ++ "-updated.smi")%string else numbered_name root k.

(** The three writes [create_db] issues for one result. *)
Definition db_writes_of (data : unit_data) : list db_write :=
  [write_mol (d_name data) (d_mol_dict data);
   write_pharm (d_name data) (d_ph_dict data);
   write_fp (d_name data) (d_fp_dict data)].

(** The keys under which molecules were written to the record store. *)
Fixpoint written_names (ws : list db_write) : list string :=
  match ws with
  | [] => []
  | write_mol mol_name _ :: rest => mol_name :: written_names rest
  | _ :: rest => written_names rest
  end.

(** The canonical SMILES of the records, in input order. *)
Definition record_smiles (records : list (Mol * string)) : list string :=
  map (fun r => MolToSmiles (fst r)) records.

End Vocabulary.

(** ** A small toolkit to run the code on

    Structures are their own SMILES strings; a geometry is a pair of its
    force-field energy ([None]: no force field) and a position on a line,
    and the RMS of two geometries is the distance of their positions. *)

Module Toy.

Definition geom : Type := (option Q * Q)%type.

Definition rms (g1 g2 : geom) : Q :=
  if Qle_bool (snd g1) (snd g2) then (snd g2 - snd g1)%Q
  else (snd g1 - snd g2)%Q.

Definition embed (s : string) : list geom :=
  if String.eqb s "bad" then [(None, 0); (None, 1)]%Q
  else [(Some 1, 0); (Some 2, 1 # 10)]%Q.

Definition reader (fname : string) : list (string * string) :=
  if String.eqb fname "in.smi"
  then [("CCO", "A"); ("CCO", "B"); ("CCN", "A")]%string
  else if String.eqb fname "bad.smi" then [("bad", "M")]%string
  else [("CCO", "A"); ("CCN", "B")]%string.

Definition root_of (p : string) : string :=
  substring 0 (String.length p - 4) p.

Definition toolkit : Toolkit := {|
  Struct := string;
  Geom := geom;
  Pharm := geom;
  FeatureCoords := Q;
  Fingerprint := bool;
  canon_smiles := fun s => s;
  mmff_energy := fun _ g => fst g;
  conformer_rms := fun _ g1 g2 => rms g1 g2;
  assign_stereo := fun s => s;
  enumerate_stereo := fun s _ => [s];
  add_hs := fun s => s;
  embed_confs := fun s _ _ _ => embed s;
  mmff_optimize := fun _ g => g;
  load_pharm := fun _ g _ _ => g;
  get_feature_coords := fun g => snd g;
  get_fp := fun g => match fst g with Some _ => true | None => false end;
  read_input := reader;
  splitext_root := root_of;
  cpu_count := 4%Z;
  completion_order := fun _ l => l;
  stderr_interleaving := @concat string;
  date_time := "01/01/2024, 00:00:00"%string
|}.

(** A molecule of the toy toolkit from its SMILES and its geometries. *)
Definition mol (smiles : string) (geoms : list geom) : @Mol toolkit :=
  @mkMol toolkit smiles (@conformers_from toolkit 0 geoms).

(** Two conformers closer than 1/2, of different energy. *)
Definition close_pair : @Mol toolkit :=
  mol "CCO" [(Some 1, 0); (Some 2, 1 # 10)]%Q.

(** Two conformers of the same energy. *)
Definition tied_pair : @Mol toolkit :=
  mol "CCO" [(Some 1, 0); (Some 1, 1)]%Q.

Definition tied_three : @Mol toolkit :=
  mol "CCO" [(Some 1, 0); (Some 3, 2); (Some 1, 1)]%Q.

Definition four : @Mol toolkit :=
  mol "CCO" [(Some 2, 0); (Some 1, 1); (Some 9, 5); (Some 1, 11 # 10)]%Q.

(** Feature coordinates and fingerprints of the toy toolkit. *)
Definition coords (l : list Q) : list (@FeatureCoords toolkit) := l.
Definition fps (l : list bool) : list (@Fingerprint toolkit) := l.

Definition world0 : @World toolkit := @mkWorld toolkit [] [] [] [] [] None.

End Toy.

(** * Properties *)

(** ** Strings and lists *)

Lemma in_strs_In (x : string) (l : list string) :
  in_strs x l = true <-> In x l.
Proof.
  unfold in_strs. rewrite existsb_exists. split.
  - intros [y [Hy Heq]]. apply String.eqb_eq in Heq. now subst.
  - intros H. exists x. split; [assumption | apply String.eqb_refl].
Qed.

Lemma in_strs_not_In (x : string) (l : list string) :
  in_strs x l = false <-> ~ In x l.
Proof.
  rewrite <- in_strs_In. destruct (in_strs x l); split; congruence.
Qed.

Lemma in_nats_In (x : nat) (l : list nat) :
  in_nats x l = true <-> In x l.
Proof.
  unfold in_nats. rewrite existsb_exists. split.
  - intros [y [Hy Heq]]. apply Nat.eqb_eq in Heq. now subst.
  - intros H. exists x. split; [assumption | apply Nat.eqb_refl].
Qed.

Lemma str_inj (a b : nat) : str a = str b -> a = b.
Proof.
  unfold str. intros H.
  assert (E : Some (Nat.to_uint a) = Some (Nat.to_uint b)).
  { rewrite <- !NilEmpty.usu. now f_equal. }
  injection E as E.
  rewrite <- (DecimalNat.Unsigned.of_to a), <- (DecimalNat.Unsigned.of_to b).
  now f_equal.
Qed.

Lemma append_inj_l (s t u : string) : (s ++ t = s ++ u)%string -> t = u.
Proof.
  induction s as [|c s IH]; simpl; intros H; [assumption|].
  injection H as H. auto.
Qed.

Lemma candidate_inj (base : string) (a b : nat) :
  candidate base a = candidate base b -> a = b.
Proof.
  unfold candidate. intros H. apply append_inj_l in H.
  simpl in H. injection H as H. now apply str_inj.
Qed.

Lemma split_hash_head_candidate (s t : string) :
  split_hash_head (split_hash_head s ++ "#" ++ t) = split_hash_head s.
Proof.
  induction s as [|c s IH]; simpl; [reflexivity|].
  destruct (Ascii.eqb c "#") eqn:E; simpl; [reflexivity|].
  rewrite E. now f_equal.
Qed.

Lemma forallb_false_ex {A : Type} (f : A -> bool) (l : list A) :
  forallb f l = false -> exists x, In x l /\ f x = false.
Proof.
  induction l as [|a l IH]; simpl; [discriminate|].
  destruct (f a) eqn:E; simpl.
  - intros H. destruct (IH H) as [x [Hx Hf]]. exists x. auto.
  - intros _. exists a. auto.
Qed.

(** Among [length ids + 1] candidates one is not in [ids]. *)
Lemma free_candidate (base : string) (ids : list string) :
  exists k, 1 <= k < 1 + S (length ids) /\ ~ In (candidate base k) ids.
Proof.
  set (cands := map (candidate base) (seq 1 (S (length ids)))).
  destruct (forallb (fun c => in_strs c ids) cands) eqn:E.
  - exfalso.
    assert (Hnd : NoDup cands).
    { apply Finite.Injective_map_NoDup; [|apply seq_NoDup].
      intros a b. apply candidate_inj. }
    assert (Hincl : incl cands ids).
    { intros c Hc. rewrite forallb_forall in E. apply in_strs_In. now apply E. }
    pose proof (NoDup_incl_length Hnd Hincl) as Hlen.
    unfold cands in Hlen. rewrite length_map, length_seq in Hlen. lia.
  - apply forallb_false_ex in E. destruct E as [c [Hc Hf]].
    unfold cands in Hc. apply in_map_iff in Hc. destruct Hc as [k [<- Hk]].
    apply in_seq in Hk. exists k. split; [lia|]. now apply in_strs_not_In.
Qed.

(** ** The deduplicator *)

Section DeduplicatorFacts.
Context {TK : Toolkit}.

Lemma rename_loop_sound (fuel : nat) :
  forall ids cur suffix out r out',
    rename_loop fuel ids cur suffix out = Some (r, out') ->
    ~ In r ids /\
    (r = cur \/
     (In cur ids /\ exists k, suffix <= k /\
        r = candidate (split_hash_head cur) k /\
        forall j, suffix <= j < k ->
          In (candidate (split_hash_head cur) j) ids)).
Proof.
  induction fuel as [|fuel IH]; intros ids cur suffix out r out';
    cbn [rename_loop].
  - destruct (in_strs cur ids) eqn:E; [discriminate|].
    intros H. injection H as <- <-. split; [now apply in_strs_not_In | now left].
  - destruct (in_strs cur ids) eqn:E.
    + intros H. apply IH in H. destruct H as [Hfree Hr]. split; [assumption|].
      right. apply in_strs_In in E. split; [assumption|].
      rewrite !split_hash_head_candidate in Hr.
      fold (candidate (split_hash_head cur) suffix) in Hr.
      destruct Hr as [-> | [Hin [k [Hk [-> Hmin]]]]].
      * exists suffix. split; [lia|]. split; [reflexivity|]. intros j Hj. lia.
      * exists k. split; [lia|]. split; [reflexivity|].
        intros j Hj. destruct (Nat.eq_dec j suffix) as [-> | Hne].
        -- exact Hin.
        -- apply Hmin. lia.
    + intros H. injection H as <- <-. split; [now apply in_strs_not_In | now left].
Qed.

Lemma rename_loop_total (fuel : nat) :
  forall ids cur suffix out,
    (~ In cur ids \/
     exists k, suffix <= k < suffix + fuel /\
       ~ In (candidate (split_hash_head cur) k) ids) ->
    exists res, rename_loop fuel ids cur suffix out = Some res.
Proof.
  induction fuel as [|fuel IH]; intros ids cur suffix out H; cbn [rename_loop].
  - destruct H as [H | [k [Hk _]]]; [|lia].
    apply in_strs_not_In in H. rewrite H. eauto.
  - destruct (in_strs cur ids) eqn:E; [|eauto].
    apply IH. destruct H as [H | [k [Hk Hfree]]].
    + apply in_strs_not_In in H. congruence.
    + rewrite split_hash_head_candidate.
      fold (candidate (split_hash_head cur) suffix).
      destruct (Nat.eq_dec k suffix) as [-> | Hne]; [now left|].
      right. exists k. split; [lia | assumption].
Qed.

Lemma check_dupl_step_spec (st : boxes) (mol : Mol) (mol_name : string) :
  exists entry smi id flag out,
    check_dupl_step st (mol, mol_name)
    = Some (mkBoxes (box_mols st ++ [entry]) (box_smi st ++ [smi])
                    (box_mol_ids st ++ [id]) (box_flags st ++ [flag]) out)
    /\ appended st mol mol_name entry smi id flag.
Proof.
  unfold check_dupl_step.
  destruct (in_strs (MolToSmiles mol) (box_smi st)) eqn:Esmi.
  - do 5 eexists. split; [reflexivity|]. constructor. now apply in_strs_In.
  - apply in_strs_not_In in Esmi.
    destruct (in_strs mol_name (box_mol_ids st)) eqn:Eid.
    + apply in_strs_In in Eid.
      destruct (rename_loop_total (S (length (box_mol_ids st))) (box_mol_ids st)
                  mol_name 1 (box_out st)) as [[r out'] Hr].
      { right. apply free_candidate. }
      rewrite Hr. apply rename_loop_sound in Hr.
      destruct Hr as [Hfree [-> | [_ [k [Hk [-> Hmin]]]]]]; [contradiction|].
      do 5 eexists. split; [reflexivity|]. now apply app_renamed.
    + apply in_strs_not_In in Eid.
      do 5 eexists. split; [reflexivity|]. now constructor.
Qed.

Lemma appended_kept_fresh st mol mol_name entry smi id flag :
  appended st mol mol_name entry smi id flag ->
  entry <> DuplicateMark -> ~ In id (box_mol_ids st).
Proof. intros H Hne. destruct H; [congruence | assumption | assumption]. Qed.

Lemma check_dupl_loop_app (l1 l2 : list (Mol * string)) :
  forall st,
    check_dupl_loop (l1 ++ l2) st
    = match check_dupl_loop l1 st with
      | Some st1 => check_dupl_loop l2 st1
      | None => None
      end.
Proof.
  induction l1 as [|r l1 IH]; intros st; simpl; [reflexivity|].
  destruct (check_dupl_step st r); [apply IH | reflexivity].
Qed.

Lemma check_dupl_loop_total (l : list (Mol * string)) :
  forall st, exists st', check_dupl_loop l st = Some st'.
Proof.
  induction l as [|[mol mol_name] l IH]; intros st; cbn [check_dupl_loop];
    [eauto|].
  destruct (check_dupl_step_spec st mol mol_name)
    as (entry & smi & id & flag & out & -> & _).
  apply IH.
Qed.

(** The loop only appends, one item per record to each list. *)
Lemma check_dupl_loop_extends (l : list (Mol * string)) :
  forall st st', check_dupl_loop l st = Some st' ->
    exists ms ss ids fs,
      box_mols st' = box_mols st ++ ms /\ box_smi st' = box_smi st ++ ss /\
      box_mol_ids st' = box_mol_ids st ++ ids /\
      box_flags st' = box_flags st ++ fs /\
      length ms = length l /\ length ss = length l /\
      length ids = length l /\ length fs = length l.
Proof.
  induction l as [|[mol mol_name] l IH]; intros st st'; cbn [check_dupl_loop].
  - intros H. injection H as <-. exists [], [], [], [].
    rewrite !app_nil_r. auto 10.
  - destruct (check_dupl_step_spec st mol mol_name)
      as (entry & smi & id & flag & out & -> & _).
    intros H. apply IH in H. simpl in H.
    destruct H as (ms & ss & ids & fs & -> & -> & -> & -> & L1 & L2 & L3 & L4).
    exists (entry :: ms), (smi :: ss), (id :: ids), (flag :: fs).
    rewrite <- !app_assoc. simpl. auto 10.
Qed.

Lemma check_dupl_records_lengths (l : list (Mol * string)) (out : boxes) :
  check_dupl_records l = Some out ->
  length (box_mols out) = length l /\ length (box_smi out) = length l /\
  length (box_mol_ids out) = length l /\ length (box_flags out) = length l.
Proof.
  intros H. apply check_dupl_loop_extends in H. simpl in H.
  destruct H as (ms & ss & ids & fs & -> & -> & -> & -> & L1 & L2 & L3 & L4).
  auto.
Qed.

Lemma fresh_ids_step st mol mol_name st' :
  fresh_ids st -> check_dupl_step st (mol, mol_name) = Some st' ->
  fresh_ids st'.
Proof.
  intros [Hlen Hfresh] Hstep.
  destruct (check_dupl_step_spec st mol mol_name)
    as (entry & smi & id & flag & out & Heq & Happ).
  rewrite Heq in Hstep. injection Hstep as <-. split; simpl.
  - rewrite !length_app. simpl. lia.
  - intros i j x Hij [m Hm] Hx. cbn [box_mols box_mol_ids] in Hm, Hx |- *.
    destruct (Nat.lt_ge_cases j (length (box_mol_ids st))) as [Hj | Hj].
    + rewrite nth_error_app1 in Hx by assumption.
      rewrite nth_error_app1 in Hm by lia.
      rewrite nth_error_app1 by lia.
      apply (Hfresh i j x); [assumption | now exists m | assumption].
    + assert (Hjn : j = length (box_mol_ids st)).
      { assert (Hlt : j < length (box_mol_ids st ++ [id]))
          by (apply nth_error_Some; congruence).
        rewrite length_app in Hlt. simpl in Hlt. lia. }
      subst j. rewrite nth_error_app2 in Hx by lia.
      rewrite Nat.sub_diag in Hx. simpl in Hx. injection Hx as <-.
      rewrite nth_error_app2 in Hm by lia.
      rewrite <- Hlen, Nat.sub_diag in Hm. simpl in Hm. injection Hm as Hm.
      rewrite nth_error_app1 by lia. intros Hi. apply nth_error_In in Hi.
      revert Hi. eapply appended_kept_fresh; [eassumption | congruence].
Qed.

Lemma fresh_ids_loop (l : list (Mol * string)) :
  forall st st', fresh_ids st -> check_dupl_loop l st = Some st' ->
    fresh_ids st'.
Proof.
  induction l as [|[mol mol_name] l IH]; intros st st' Hst;
    cbn [check_dupl_loop].
  - intros H. now injection H as <-.
  - destruct (check_dupl_step st (mol, mol_name)) as [st1|] eqn:E; [|discriminate].
    apply IH. eapply fresh_ids_step; eassumption.
Qed.

End DeduplicatorFacts.

(** ** Statements about the deduplicator *)

Section DeduplicatorClaims.
Context {TK : Toolkit}.

(** C1 (as amended): for every input sequence the deduplicator returns,
    and in its output the identifier of an entry that was not dropped
    differs from every identifier at an earlier position (dropped or not)
    and from the identifier of every other entry that was not dropped. *)
Theorem check_dupl_kept_ids_distinct (records : list (Mol * string)) :
  exists out, check_dupl_records records = Some out /\
    (forall i j x, i < j -> kept_at out j ->
       nth_error (box_mol_ids out) j = Some x ->
       nth_error (box_mol_ids out) i <> Some x) /\
    (forall i j x y, i <> j -> kept_at out i -> kept_at out j ->
       nth_error (box_mol_ids out) i = Some x ->
       nth_error (box_mol_ids out) j = Some y -> x <> y).
Proof.
  destruct (check_dupl_loop_total records empty_boxes) as [out Hout].
  exists out. split; [exact Hout|].
  assert (Hfresh : fresh_ids out).
  { eapply fresh_ids_loop; [|exact Hout].
    split; [reflexivity|]. intros i j x _ _ Hx. now destruct j. }
  destruct Hfresh as [_ Hfresh]. split; [exact Hfresh|].
  intros i j x y Hne Hi Hj Hx Hy ->.
  destruct (Nat.lt_gt_cases i j) as [Hcases _].
  destruct (Hcases Hne) as [Hlt | Hlt].
  - exact (Hfresh i j y Hlt Hj Hy Hx).
  - exact (Hfresh j i y Hlt Hi Hx Hy).
Qed.

(** The state the loop is in after the records [pre], and the position the
    next record will take in the output. *)
Lemma check_dupl_after_prefix pre mol mol_name post st :
  check_dupl_records pre = Some st ->
  exists entry smi id flag out,
    appended st mol mol_name entry smi id flag /\
    check_dupl_records (pre ++ (mol, mol_name) :: post) = Some out /\
    nth_error (box_mols out) (length pre) = Some entry /\
    nth_error (box_smi out) (length pre) = Some smi /\
    nth_error (box_mol_ids out) (length pre) = Some id /\
    nth_error (box_flags out) (length pre) = Some flag.
Proof.
  intros Hpre.
  destruct (check_dupl_step_spec st mol mol_name)
    as (entry & smi & id & flag & o & Hstep & Happ).
  exists entry, smi, id, flag.
  destruct (check_dupl_loop_total post
              (mkBoxes (box_mols st ++ [entry]) (box_smi st ++ [smi])
                 (box_mol_ids st ++ [id]) (box_flags st ++ [flag]) o))
    as [out Hout].
  exists out. split; [exact Happ|].
  assert (Hrun : check_dupl_records (pre ++ (mol, mol_name) :: post) = Some out).
  { unfold check_dupl_records in *. rewrite check_dupl_loop_app, Hpre.
    cbn [check_dupl_loop]. now rewrite Hstep. }
  split; [exact Hrun|].
  destruct (check_dupl_records_lengths _ _ Hpre) as (L1 & L2 & L3 & L4).
  apply check_dupl_loop_extends in Hout. cbn [box_mols box_smi box_mol_ids box_flags] in Hout.
  destruct Hout as (ms & ss & ids & fs & -> & -> & -> & -> & _).
  rewrite <- !app_assoc.
  repeat split.
  - rewrite nth_error_app2 by lia. now rewrite L1, Nat.sub_diag.
  - rewrite nth_error_app2 by lia. now rewrite L2, Nat.sub_diag.
  - rewrite nth_error_app2 by lia. now rewrite L3, Nat.sub_diag.
  - rewrite nth_error_app2 by lia. now rewrite L4, Nat.sub_diag.
Qed.

Lemma appended_renamed_inv st mol mol_name entry smi id flag :
  appended st mol mol_name entry smi id flag ->
  ~ In (MolToSmiles mol) (box_smi st) -> In mol_name (box_mol_ids st) ->
  entry = MolObj mol /\ smi = MolToSmiles mol /\ flag = true /\
  exists k, 1 <= k /\ id = candidate (split_hash_head mol_name) k /\
    ~ In id (box_mol_ids st) /\
    forall j, 1 <= j < k ->
      In (candidate (split_hash_head mol_name) j) (box_mol_ids st).
Proof.
  intros H Hsmi Hid. destruct H; [contradiction | | contradiction].
  repeat split; try reflexivity. exists k. auto.
Qed.

(** C5: two molecules of distinct structure both named "A" come out as
    "A", "A#1"; three come out as "A", "A#1", "A#2"; and in general a
    record whose structure is new and whose identifier is already in use
    gets the identifier [base#k], where [base] is its identifier up to the
    first '#' and [k] is the least of 1, 2, ... for which [base#k] is not
    in use, and its flag is true. *)
Theorem collision_renaming :
  (forall m1 m2 : Mol, MolToSmiles m1 <> MolToSmiles m2 ->
     option_map box_mol_ids
       (check_dupl_records [(m1, "A"%string); (m2, "A"%string)])
     = Some ["A"%string; "A#1"%string]) /\
  (forall m1 m2 m3 : Mol,
     MolToSmiles m1 <> MolToSmiles m2 -> MolToSmiles m1 <> MolToSmiles m3 ->
     MolToSmiles m2 <> MolToSmiles m3 ->
     option_map box_mol_ids
       (check_dupl_records
          [(m1, "A"%string); (m2, "A"%string); (m3, "A"%string)])
     = Some ["A"%string; "A#1"%string; "A#2"%string]) /\
  (forall pre mol mol_name post st,
     check_dupl_records pre = Some st ->
     ~ In (MolToSmiles mol) (box_smi st) ->
     In mol_name (box_mol_ids st) ->
     exists out k,
       check_dupl_records (pre ++ (mol, mol_name) :: post) = Some out /\
       1 <= k /\
       nth_error (box_mol_ids out) (length pre)
         = Some (candidate (split_hash_head mol_name) k) /\
       ~ In (candidate (split_hash_head mol_name) k) (box_mol_ids st) /\
       (forall j, 1 <= j < k ->
          In (candidate (split_hash_head mol_name) j) (box_mol_ids st)) /\
       nth_error (box_flags out) (length pre) = Some true /\
       nth_error (box_mols out) (length pre) = Some (MolObj mol)).
Proof.
  split; [|split].
  - intros m1 m2 H12. apply String.eqb_neq in H12.
    rewrite String.eqb_sym in H12.
    unfold check_dupl_records, check_dupl_loop, check_dupl_step, in_strs.
    cbn. rewrite H12. reflexivity.
  - intros m1 m2 m3 H12 H13 H23.
    apply String.eqb_neq in H12, H13, H23.
    rewrite String.eqb_sym in H12. rewrite String.eqb_sym in H13.
    rewrite String.eqb_sym in H23.
    unfold check_dupl_records, check_dupl_loop, check_dupl_step, in_strs.
    cbn. rewrite H12. cbn. rewrite H13, H23. reflexivity.
  - intros pre mol mol_name post st Hpre Hsmi Hid.
    destruct (check_dupl_after_prefix pre mol mol_name post st Hpre)
      as (entry & smi & id & flag & out & Happ & Hrun & Hm & _ & Hi & Hf).
    destruct (appended_renamed_inv _ _ _ _ _ _ _ Happ Hsmi Hid)
      as (-> & _ & -> & k & Hk & -> & Hfree & Hmin).
    exists out, k. auto 10.
Qed.

(** C10: the identifier of a dropped structural duplicate stays in
    [box_mol_ids]; a later record with a new structure and that same
    identifier is renamed to [base#k] for the least free [k] and flagged,
    as any collision is. *)
Theorem dropped_id_stays_reserved
    (pre mid post : list (Mol * string)) (dup later : Mol)
    (mol_name : string) (st1 st2 : boxes) :
  check_dupl_records pre = Some st1 ->
  In (MolToSmiles dup) (box_smi st1) ->
  check_dupl_records (pre ++ (dup, mol_name) :: mid) = Some st2 ->
  ~ In (MolToSmiles later) (box_smi st2) ->
  exists out k,
    check_dupl_records
      (pre ++ (dup, mol_name) :: mid ++ (later, mol_name) :: post) = Some out /\
    nth_error (box_mols out) (length pre) = Some DuplicateMark /\
    nth_error (box_mol_ids out) (length pre) = Some mol_name /\
    In mol_name (box_mol_ids st2) /\
    1 <= k /\
    nth_error (box_mol_ids out) (length pre + 1 + length mid)
      = Some (candidate (split_hash_head mol_name) k) /\
    ~ In (candidate (split_hash_head mol_name) k) (box_mol_ids st2) /\
    (forall j, 1 <= j < k ->
       In (candidate (split_hash_head mol_name) j) (box_mol_ids st2)) /\
    nth_error (box_flags out) (length pre + 1 + length mid) = Some true /\
    nth_error (box_mols out) (length pre + 1 + length mid) = Some (MolObj later).
Proof.
  intros Hpre Hdup Hmid Hnew.
  (* the dropped record keeps its identifier in the list *)
  destruct (check_dupl_after_prefix pre dup mol_name mid st1 Hpre)
    as (entry & smi & id & flag & o & Happ & Hrun & Hm & _ & Hi & _).
  rewrite Hmid in Hrun. injection Hrun as <-.
  assert (Hd : entry = DuplicateMark /\ id = mol_name).
  { destruct Happ; [auto | contradiction | contradiction]. }
  destruct Hd as [-> ->].
  assert (Hin : In mol_name (box_mol_ids st2)) by (eapply nth_error_In; exact Hi).
  (* the later record collides with it *)
  destruct (check_dupl_after_prefix (pre ++ (dup, mol_name) :: mid) later
              mol_name post st2 Hmid)
    as (entry2 & smi2 & id2 & flag2 & out & Happ2 & Hrun2 & Hm2 & _ & Hi2 & Hf2).
  destruct (appended_renamed_inv _ _ _ _ _ _ _ Happ2 Hnew Hin)
    as (-> & _ & -> & k & Hk & -> & Hfree & Hmin).
  rewrite <- app_assoc in Hrun2. cbn [app] in Hrun2.
  assert (Hlen : length (pre ++ (dup, mol_name) :: mid)
                 = length pre + 1 + length mid).
  { rewrite length_app. simpl. lia. }
  rewrite Hlen in Hm2, Hi2, Hf2.
  exists out, k. split; [exact Hrun2|].
  (* the output of the longer run extends that of the shorter one *)
  assert (Hext : exists ms ids, box_mols out = box_mols st2 ++ ms /\
                                box_mol_ids out = box_mol_ids st2 ++ ids).
  { unfold check_dupl_records in Hrun2, Hmid.
    replace (pre ++ (dup, mol_name) :: mid ++ (later, mol_name) :: post)
      with ((pre ++ (dup, mol_name) :: mid) ++ (later, mol_name) :: post)
      in Hrun2 by (rewrite <- app_assoc; reflexivity).
    rewrite check_dupl_loop_app, Hmid in Hrun2.
    apply check_dupl_loop_extends in Hrun2.
    destruct Hrun2 as (ms & ss & ids & fs & E1 & _ & E3 & _). eauto. }
  destruct Hext as (ms & ids & E1 & E3).
  assert (Hp : length pre < length (box_mols st2) /\
               length pre < length (box_mol_ids st2)).
  { split; apply nth_error_Some; congruence. }
  rewrite E1, E3.
  rewrite !nth_error_app1 by lia. rewrite <- E1, <- E3. auto 12.
Qed.

End DeduplicatorClaims.

(** C1, read word for word, fails: a structure given twice under the
    name "A" leaves the identifiers "A", "A", the first of them on an
    entry that was not dropped. *)
Lemma check_dupl_dropped_id_repeats :
  exists out,
    check_dupl_records (TK := Toy.toolkit)
      [(Toy.mol "CCO" [], "A"%string); (Toy.mol "CCO" [], "A"%string)]
    = Some out /\
    box_mol_ids out = ["A"%string; "A"%string] /\
    ~ kept_ids_globally_unique out.
Proof.
  eexists. split; [vm_compute; reflexivity|]. split; [reflexivity|].
  intros H.
  apply (H 0 1 "A"%string "A"%string); try reflexivity; [lia|].
  eexists. reflexivity.
Qed.

(** The renaming rule on a third record "A#1" after "A" and "A#1". *)
Lemma collision_renaming_witness :
  exists out,
    check_dupl_records (TK := Toy.toolkit)
      ([(Toy.mol "CCO" [], "A"%string); (Toy.mol "CCN" [], "A"%string)]
       ++ (Toy.mol "CCC" [], "A#1"%string) :: []) = Some out /\
    nth_error (box_mol_ids out) 2 = Some "A#2"%string /\
    nth_error (box_flags out) 2 = Some true.
Proof.
  destruct (collision_renaming (TK := Toy.toolkit)) as (_ & _ & H).
  destruct (H [(Toy.mol "CCO" [], "A"%string); (Toy.mol "CCN" [], "A"%string)]
              (Toy.mol "CCC" []) "A#1"%string []
              (mkBoxes [MolObj (Toy.mol "CCO" []); MolObj (Toy.mol "CCN" [])]
                       ["CCO"%string; "CCN"%string]
                       ["A"%string; "A#1"%string] [false; true]
                       [warn_dupl_id "A" 1]))
    as (out & k & Hrun & Hk & Hid & Hfree & Hmin & Hflag & _).
  - vm_compute. reflexivity.
  - vm_compute. intuition discriminate.
  - vm_compute. auto.
  - cbn [length] in Hid, Hflag.
    exists out. split; [exact Hrun|]. split; [|exact Hflag].
    rewrite Hid. f_equal.
    destruct k as [|[|[|k]]].
    + lia.
    + exfalso. apply Hfree. vm_compute. auto.
    + reflexivity.
    + exfalso. assert (Hin : In (candidate (split_hash_head "A#1") 2)
                               ["A"%string; "A#1"%string]) by (apply Hmin; lia).
      vm_compute in Hin. intuition discriminate.
Defined.

(** A dropped "B" followed by a new structure named "B". *)
Lemma dropped_id_stays_reserved_witness :
  exists out,
    check_dupl_records (TK := Toy.toolkit)
      ([(Toy.mol "CCO" [], "A"%string)]
       ++ (Toy.mol "CCO" [], "B"%string)
       :: [] ++ (Toy.mol "CCN" [], "B"%string) :: []) = Some out /\
    nth_error (box_mol_ids out) 1 = Some "B"%string /\
    nth_error (box_mols out) 1 = Some DuplicateMark /\
    nth_error (box_mol_ids out) 2 = Some "B#1"%string /\
    nth_error (box_flags out) 2 = Some true.
Proof.
  destruct (dropped_id_stays_reserved (TK := Toy.toolkit)
              [(Toy.mol "CCO" [], "A"%string)] [] []
              (Toy.mol "CCO" []) (Toy.mol "CCN" []) "B"%string
              (mkBoxes [MolObj (Toy.mol "CCO" [])] ["CCO"%string]
                       ["A"%string] [false] [])
              (mkBoxes [MolObj (Toy.mol "CCO" []); DuplicateMark]
                       ["CCO"%string; "duplicate"%string]
                       ["A"%string; "B"%string] [false; true]
                       [warn_dupl_mol "B"]))
    as (out & k & Hrun & Hm & Hi & _ & Hk & Hid & Hfree & Hmin & Hflag & _).
  - vm_compute. reflexivity.
  - vm_compute. auto.
  - vm_compute. reflexivity.
  - vm_compute. intuition discriminate.
  - cbn [length Nat.add] in Hm, Hi, Hid, Hflag.
    exists out. split; [exact Hrun|]. repeat split; try assumption.
    rewrite Hid. f_equal.
    destruct k as [|[|k]].
    + lia.
    + reflexivity.
    + exfalso. assert (Hin : In (candidate (split_hash_head "B") 1)
                               ["A"%string; "B"%string]) by (apply Hmin; lia).
      vm_compute in Hin. intuition discriminate.
Defined.

(** ** The conformer pruner: how the stages compute *)

Section PrunerStages.
Context {TK : Toolkit}.

Lemma find_id_first (l : list Conformer) (c : Conformer) :
  In c l ->
  exists c', find (fun x => Nat.eqb (conf_id x) (conf_id c)) l = Some c' /\
             In c' l /\ conf_id c' = conf_id c.
Proof.
  intros Hin. destruct (find _ l) as [c'|] eqn:E.
  - apply find_some in E. destruct E as [Hc' Heq].
    apply Nat.eqb_eq in Heq. eauto.
  - apply find_none with (x := c) in E; [|assumption].
    now rewrite Nat.eqb_refl in E.
Qed.

Lemma find_id_unique (l : list Conformer) (c : Conformer) :
  NoDup (map conf_id l) -> In c l ->
  find (fun x => Nat.eqb (conf_id x) (conf_id c)) l = Some c.
Proof.
  induction l as [|a l IH]; simpl; intros Hnd Hin; [contradiction|].
  inversion Hnd as [|? ? Hnotin Hnd']; subst.
  destruct Hin as [-> | Hin].
  - now rewrite Nat.eqb_refl.
  - destruct (Nat.eqb (conf_id a) (conf_id c)) eqn:E; [|auto].
    apply Nat.eqb_eq in E. exfalso. apply Hnotin. rewrite E.
    now apply in_map.
Qed.

Lemma GetConformer_in (mol : Mol) (c : Conformer) :
  In c (mol_confs mol) ->
  exists c', GetConformer mol (conf_id c) = Some c' /\
             In c' (mol_confs mol) /\ conf_id c' = conf_id c.
Proof. apply find_id_first. Qed.

Lemma GetConformer_known (mol : Mol) (cid : nat) :
  In cid (map conf_id (mol_confs mol)) ->
  exists c, GetConformer mol cid = Some c /\ In c (mol_confs mol).
Proof.
  intros H. apply in_map_iff in H. destruct H as [c [<- Hc]].
  destruct (GetConformer_in mol c Hc) as (c' & E & Hin & _). eauto.
Qed.

Lemma GetConformer_unique (mol : Mol) (c : Conformer) :
  unique_conf_ids mol -> In c (mol_confs mol) ->
  GetConformer mol (conf_id c) = Some c.
Proof. apply find_id_unique. Qed.

Lemma energy_val_Some (mol : Mol) (c : Conformer) :
  energies_computable mol -> In c (mol_confs mol) ->
  mmff_energy (mol_struct mol) (conf_geom c) = Some (energy_val mol c).
Proof.
  intros Hcomp Hin. unfold energy_val.
  destruct (mmff_energy _ _) eqn:E; [reflexivity|].
  exfalso. exact (Hcomp c Hin E).
Qed.

(** *** The energies *)

Lemma energy_loop_total (mol : Mol) (cs : list Conformer) :
  forall e, incl cs (mol_confs mol) ->
    exists r, energy_loop mol cs e = Some r.
Proof.
  induction cs as [|c cs IH]; intros e Hincl; simpl; [eauto|].
  destruct (GetConformer_in mol c) as (c' & -> & _ & _).
  { apply Hincl. now left. }
  destruct (mmff_energy _ _); [|eauto].
  apply IH. intros x Hx. apply Hincl. now right.
Qed.

Lemma energy_loop_ids (mol : Mol) (cs : list Conformer) :
  energies_computable mol ->
  forall e, incl cs (mol_confs mol) ->
    exists e', energy_loop mol cs e = Some (Energies e') /\
               map fst e' = map fst e ++ map conf_id cs.
Proof.
  intros Hcomp. induction cs as [|c cs IH]; intros e Hincl; simpl.
  - exists e. now rewrite app_nil_r.
  - destruct (GetConformer_in mol c) as (c' & -> & Hc' & _).
    { apply Hincl. now left. }
    rewrite (energy_val_Some mol c' Hcomp Hc').
    destruct (IH (e ++ [(conf_id c, energy_val mol c')])) as (e' & -> & Hids).
    { intros x Hx. apply Hincl. now right. }
    exists e'. split; [reflexivity|].
    rewrite Hids, map_app, <- app_assoc. reflexivity.
Qed.

Lemma energy_loop_entries (mol : Mol) (cs : list Conformer) :
  energies_computable mol -> unique_conf_ids mol ->
  forall e, incl cs (mol_confs mol) ->
    energy_loop mol cs e
    = Some (Energies (e ++ map (energy_entry mol) cs)).
Proof.
  intros Hcomp Huniq. induction cs as [|c cs IH]; intros e Hincl; simpl.
  - now rewrite app_nil_r.
  - assert (Hc : In c (mol_confs mol)) by (apply Hincl; now left).
    rewrite (GetConformer_unique mol c Huniq Hc).
    rewrite (energy_val_Some mol c Hcomp Hc).
    rewrite IH by (intros x Hx; apply Hincl; now right).
    rewrite <- app_assoc. reflexivity.
Qed.

(** With a conformer that has no force field the loop returns early. *)
Lemma energy_loop_ff_none (mol : Mol) (cs : list Conformer) :
  unique_conf_ids mol ->
  forall e, incl cs (mol_confs mol) ->
    (exists c, In c cs /\ mmff_energy (mol_struct mol) (conf_geom c) = None) ->
    energy_loop mol cs e = Some FFNone.
Proof.
  intros Huniq. induction cs as [|c cs IH]; intros e Hincl [x [Hx Hnone]];
    simpl; [contradiction|].
  assert (Hc : In c (mol_confs mol)) by (apply Hincl; now left).
  rewrite (GetConformer_unique mol c Huniq Hc).
  destruct (mmff_energy (mol_struct mol) (conf_geom c)) eqn:E; [|reflexivity].
  apply IH; [intros y Hy; apply Hincl; now right|].
  destruct Hx as [-> | Hx]; [congruence | eauto].
Qed.

(** *** The sort *)

Lemma insert_by_energy_perm (x : nat * Q) (l : list (nat * Q)) :
  Permutation (insert_by_energy x l) (x :: l).
Proof.
  induction l as [|y l IH]; simpl; [reflexivity|].
  destruct (Qltb (snd y) (snd x)); [|reflexivity].
  rewrite IH. apply perm_swap.
Qed.

Lemma sorted_by_energy_perm (e : list (nat * Q)) :
  Permutation (sorted_by_energy e) e.
Proof.
  induction e as [|x e IH]; simpl; [reflexivity|].
  rewrite insert_by_energy_perm. now constructor.
Qed.

(** *** The energy cutoff *)

Lemma energy_cut_spec (e0 energy : Q) (items : list (nat * Q)) :
  forall kept_ids remove_ids,
    energy_cut e0 energy items kept_ids remove_ids
    = (kept_ids ++ map fst (filter (within_cutoff e0 energy) items),
       remove_ids
       ++ map fst (filter (fun x => negb (within_cutoff e0 energy x)) items)).
Proof.
  induction items as [|x items IH]; intros K R; simpl.
  - now rewrite !app_nil_r.
  - fold (within_cutoff e0 energy x).
    destruct (within_cutoff e0 energy x); simpl;
      rewrite IH, <- app_assoc; reflexivity.
Qed.

(** *** The pairs and their RMS values *)

Lemma combinations2_In {A : Type} (l : list A) (a b : A) :
  In (a, b) (combinations2 l) -> In a l /\ In b l.
Proof.
  induction l as [|x l IH]; simpl; [contradiction|].
  rewrite in_app_iff, in_map_iff. intros [[y [E Hy]] | H].
  - injection E as <- <-. auto.
  - destruct (IH H). auto.
Qed.

Lemma rms_list_of_total (mol : Mol) (pairs : list (nat * nat)) :
  (forall a b, In (a, b) pairs ->
     In a (map conf_id (mol_confs mol)) /\ In b (map conf_id (mol_confs mol))) ->
  exists l, rms_list_of mol pairs = Some l.
Proof.
  induction pairs as [|[a b] pairs IH]; intros H; simpl; [eauto|].
  destruct (H a b (or_introl eq_refl)) as [Ha Hb].
  unfold GetConformerRMS.
  destruct (GetConformer_known mol a Ha) as (ca & -> & _).
  destruct (GetConformer_known mol b Hb) as (cb & -> & _).
  destruct IH as [l ->]; [|eauto].
  intros a' b' H'. apply H. now right.
Qed.

Lemma rms_list_of_In (mol : Mol) (pairs : list (nat * nat)) :
  forall l, rms_list_of mol pairs = Some l ->
    (forall a b, In (a, b) pairs ->
       exists v, GetConformerRMS mol a b = Some v /\ In (a, b, v) l) /\
    (forall a b v, In (a, b, v) l ->
       In (a, b) pairs /\ GetConformerRMS mol a b = Some v).
Proof.
  induction pairs as [|[a b] pairs IH]; intros l; simpl.
  - intros H. injection H as <-. split; intros; contradiction.
  - destruct (GetConformerRMS mol a b) as [v|] eqn:Ev; [|discriminate].
    destruct (rms_list_of mol pairs) as [l'|]; [|discriminate].
    intros H. injection H as <-. destruct (IH l' eq_refl) as [IH1 IH2].
    split.
    + intros a' b' [E | Hin].
      * injection E as <- <-. exists v. split; [assumption | now left].
      * destruct (IH1 a' b' Hin) as (v' & Hv' & Hin'). exists v'.
        split; [assumption | now right].
    + intros a' b' v' [E | Hin].
      * injection E as <- <- <-. split; [now left | assumption].
      * destruct (IH2 a' b' v' Hin). split; [now right | assumption].
Qed.

(** *** The greedy loop *)

Lemma filter_length_lt {A : Type} (f : A -> bool) (l : list A) (x : A) :
  In x l -> f x = false -> length (filter f l) < length l.
Proof.
  induction l as [|a l IH]; simpl; [contradiction|].
  intros [-> | Hin] Hx.
  - rewrite Hx. pose proof (filter_length_le f l). lia.
  - specialize (IH Hin Hx). destruct (f a); simpl; lia.
Qed.

Lemma rms_loop_total (fuel : nat) (rms : Q) :
  forall rms_list remove_ids, length rms_list <= fuel ->
    exists r, rms_loop fuel rms rms_list remove_ids = Some r.
Proof.
  induction fuel as [|fuel IH]; intros L R Hlen; simpl.
  - destruct L; [simpl; eauto | simpl in Hlen; lia].
  - destruct (find (below rms) L) as [item|] eqn:E; [|eauto].
    apply IH. apply find_some in E. destruct E as [Hin _].
    assert (Hlt : length (filter (not_touching (snd (fst item))) L) < length L).
    { apply filter_length_lt with (x := item); [assumption|].
      unfold not_touching. rewrite Nat.eqb_refl. simpl.
      apply andb_false_r. }
    lia.
Qed.

(** What the loop adds to [remove_ids]: second conformers of items below
    the threshold; afterwards no item between two unmarked conformers is
    below it. *)
Lemma rms_loop_spec (fuel : nat) (rms : Q) :
  forall rms_list remove_ids r,
    rms_loop fuel rms rms_list remove_ids = Some r ->
    exists marked, r = remove_ids ++ marked /\
      (forall d, In d marked ->
         exists item, In item rms_list /\ snd (fst item) = d /\
                      below rms item = true) /\
      (forall item, In item rms_list ->
         ~ In (fst (fst item)) marked -> ~ In (snd (fst item)) marked ->
         below rms item = false).
Proof.
  induction fuel as [|fuel IH]; intros L R r; simpl.
  - destruct (find (below rms) L) as [item|] eqn:E; [discriminate|].
    intros H. injection H as <-. exists []. rewrite app_nil_r.
    split; [reflexivity|]. split; [intros d []|].
    intros item Hin _ _. now apply (find_none _ _ E).
  - destruct (find (below rms) L) as [item|] eqn:E.
    + intros H. apply IH in H. destruct H as (marked & -> & Hm & Hrest).
      apply find_some in E. destruct E as [Hin Hbelow].
      exists (snd (fst item) :: marked). rewrite <- app_assoc.
      split; [reflexivity|]. split.
      * intros d [<- | Hd]; [eauto|].
        destruct (Hm d Hd) as (it & Hit & Hsnd & Hb).
        apply filter_In in Hit. destruct Hit as [Hit _]. eauto.
      * intros it Hit Hfst Hsnd. apply Hrest.
        -- apply filter_In. split; [assumption|]. unfold not_touching.
           apply andb_true_intro. split; apply negb_true_iff, Nat.eqb_neq;
             intros Heq; [apply Hfst | apply Hsnd]; left; now symmetry.
        -- intros H. apply Hfst. now right.
        -- intros H. apply Hsnd. now right.
    + intros H. injection H as <-. exists []. rewrite app_nil_r.
      split; [reflexivity|]. split; [intros d []|].
      intros item Hin _ _. now apply (find_none _ _ E).
Qed.

(** *** Removing and renumbering *)

Lemma reindex_ids (confs : list Conformer) :
  forall i, map conf_id (reindex i confs) = seq i (length confs).
Proof.
  induction confs as [|c confs IH]; intros i; simpl; [reflexivity|].
  now rewrite IH.
Qed.

Lemma reindex_length (confs : list Conformer) :
  forall i, length (reindex i confs) = length confs.
Proof.
  induction confs as [|c confs IH]; intros i; simpl; [reflexivity|].
  now rewrite IH.
Qed.

Lemma reindex_geoms (confs : list Conformer) :
  forall i, map conf_geom (reindex i confs) = map conf_geom confs.
Proof.
  induction confs as [|c confs IH]; intros i; simpl; [reflexivity|].
  now rewrite IH.
Qed.

Lemma RemoveConformer_comm (confs : list Conformer) (a b : nat) :
  RemoveConformer (RemoveConformer confs a) b
  = RemoveConformer (RemoveConformer confs b) a.
Proof.
  destruct (Nat.eq_dec a b) as [-> | Hab]; [reflexivity|].
  induction confs as [|c confs IH]; simpl; [reflexivity|].
  destruct (Nat.eqb (conf_id c) a) eqn:Ea, (Nat.eqb (conf_id c) b) eqn:Eb;
    simpl; rewrite ?Ea, ?Eb; try reflexivity.
  - apply Nat.eqb_eq in Ea, Eb. congruence.
  - now rewrite IH.
Qed.

(** X22: the order in which the ids of [set(remove_ids)] are visited
    does not change which conformers are removed. *)
Lemma RemoveConformers_perm (ids ids' : list nat) :
  Permutation ids ids' ->
  forall confs, fold_left RemoveConformer ids confs
                = fold_left RemoveConformer ids' confs.
Proof.
  induction 1 as [| x l l' _ IH | x y l | l l' l'' _ IH1 _ IH2];
    intros confs; simpl.
  - reflexivity.
  - apply IH.
  - now rewrite RemoveConformer_comm.
  - now rewrite IH1.
Qed.

Lemma RemoveConformer_filter (confs : list Conformer) (cid : nat) :
  NoDup (map conf_id confs) ->
  RemoveConformer confs cid
  = filter (fun c => negb (Nat.eqb (conf_id c) cid)) confs.
Proof.
  induction confs as [|c confs IH]; simpl; intros Hnd; [reflexivity|].
  inversion Hnd as [|? ? Hnotin Hnd']; subst.
  destruct (Nat.eqb (conf_id c) cid) eqn:E; simpl.
  - apply Nat.eqb_eq in E. subst cid. symmetry.
    rewrite <- (filter_ext_in (fun _ => true)).
    + clear. induction confs; simpl; congruence.
    + intros x Hx. symmetry. apply negb_true_iff, Nat.eqb_neq.
      intros Heq. apply Hnotin. rewrite <- Heq. now apply in_map.
  - now rewrite IH.
Qed.

Lemma NoDup_ids_filter (f : Conformer -> bool) (confs : list Conformer) :
  NoDup (map conf_id confs) -> NoDup (map conf_id (filter f confs)).
Proof.
  induction confs as [|c confs IH]; simpl; intros Hnd; [constructor|].
  inversion Hnd as [|? ? Hnotin Hnd']; subst.
  destruct (f c); simpl; [|auto].
  constructor; [|auto]. intros H. apply Hnotin.
  apply in_map_iff in H. destruct H as [x [E Hx]].
  apply filter_In in Hx. rewrite <- E. apply in_map. tauto.
Qed.

Lemma fold_RemoveConformer_filter (ids : list nat) :
  forall confs, NoDup (map conf_id confs) ->
    fold_left RemoveConformer ids confs = surviving ids confs.
Proof.
  unfold surviving.
  induction ids as [|a ids IH]; intros confs Hnd; simpl.
  - symmetry. clear. induction confs; simpl; congruence.
  - rewrite RemoveConformer_filter by assumption.
    rewrite IH by now apply NoDup_ids_filter.
    clear. unfold in_nats.
    induction confs as [|c confs IHc]; simpl; [reflexivity|].
    destruct (Nat.eqb (conf_id c) a); simpl.
    + exact IHc.
    + now rewrite IHc.
Qed.

Lemma surviving_ext (ids ids' : list nat) (confs : list Conformer) :
  (forall x, In x ids <-> In x ids') ->
  surviving ids confs = surviving ids' confs.
Proof.
  intros H. apply filter_ext. intros c. f_equal.
  apply eq_true_iff_eq. rewrite !in_nats_In. apply H.
Qed.

Lemma RemoveConformers_surviving (confs : list Conformer) (ids : list nat) :
  NoDup (map conf_id confs) ->
  RemoveConformers confs ids = surviving ids confs.
Proof.
  intros Hnd. unfold RemoveConformers.
  rewrite fold_RemoveConformer_filter by assumption.
  apply surviving_ext. intros x. apply nodup_In.
Qed.

End PrunerStages.

(** ** The conformer pruner: the whole run *)

Section PrunerRun.
Context {TK : Toolkit}.

Lemma Qltb_lt (x y : Q) : Qltb x y = true <-> (x < y)%Q.
Proof.
  unfold Qltb. rewrite negb_true_iff. split.
  - intros H. apply Qnot_le_lt. intros Hle.
    apply Qle_bool_iff in Hle. congruence.
  - intros H. destruct (Qle_bool y x) eqn:E; [|reflexivity].
    apply Qle_bool_iff in E. exfalso. exact (Qlt_not_le _ _ H E).
Qed.

Lemma Qltb_ge (x y : Q) : Qltb x y = false <-> (y <= x)%Q.
Proof.
  unfold Qltb. rewrite negb_false_iff. apply Qle_bool_iff.
Qed.

Lemma NoDup_map_filter {A B : Type} (g : A -> B) (f : A -> bool) (l : list A) :
  NoDup (map g l) -> NoDup (map g (filter f l)).
Proof.
  induction l as [|a l IH]; simpl; intros Hnd; [constructor|].
  inversion Hnd as [|? ? Hnotin Hnd']; subst.
  destruct (f a); simpl; [|auto].
  constructor; [|auto]. intros H. apply Hnotin.
  apply in_map_iff in H. destruct H as [x [E Hx]].
  apply filter_In in Hx. rewrite <- E. apply in_map. tauto.
Qed.

Lemma NoDup_map_inj {A B : Type} (g : A -> B) (l : list A) (a b : A) :
  NoDup (map g l) -> In a l -> In b l -> g a = g b -> a = b.
Proof.
  induction l as [|x l IH]; simpl; intros Hnd Ha Hb E; [contradiction|].
  inversion Hnd as [|? ? Hnotin Hnd']; subst.
  destruct Ha as [-> | Ha], Hb as [-> | Hb]; auto.
  - exfalso. apply Hnotin. rewrite E. now apply in_map.
  - exfalso. apply Hnotin. rewrite <- E. now apply in_map.
Qed.

Lemma energy_loop_Energies_ids (mol : Mol) (cs : list Conformer) :
  forall e e', energy_loop mol cs e = Some (Energies e') ->
    map fst e' = map fst e ++ map conf_id cs.
Proof.
  induction cs as [|c cs IH]; intros e e'; simpl.
  - intros H. injection H as <-. now rewrite app_nil_r.
  - destruct (GetConformer mol (conf_id c)); [|discriminate].
    destruct (mmff_energy _ _); [|discriminate].
    intros H. apply IH in H. rewrite H, map_app, <- app_assoc. reflexivity.
Qed.

Lemma kept_after_cut_incl e0 rest energy :
  incl (kept_after_cut e0 rest energy) (map fst (e0 :: rest)).
Proof.
  intros x [<- | H]; [now left|]. right.
  destruct energy; [|contradiction].
  apply in_map_iff in H. destruct H as [y [<- Hy]].
  apply filter_In in Hy. apply in_map. tauto.
Qed.

Lemma select_remove_ids_unfold mol e0 rest energy rms :
  select_remove_ids mol e0 rest energy rms
  = match rms with
    | Some r =>
        match rms_list_of mol (combinations2 (kept_after_cut e0 rest energy)) with
        | None => None
        | Some rms_list =>
            rms_loop (length rms_list) r rms_list (cut_ids e0 rest energy)
        end
    | None => Some (cut_ids e0 rest energy)
    end.
Proof.
  unfold select_remove_ids, kept_after_cut, cut_ids.
  destruct energy; [rewrite energy_cut_spec|]; reflexivity.
Qed.

Lemma select_remove_ids_total mol e0 rest energy rms :
  incl (map fst (e0 :: rest)) (map conf_id (mol_confs mol)) ->
  exists removed, select_remove_ids mol e0 rest energy rms = Some removed.
Proof.
  intros Hincl. rewrite select_remove_ids_unfold.
  destruct rms as [r|]; [|eauto].
  destruct (rms_list_of_total mol
              (combinations2 (kept_after_cut e0 rest energy))) as [l ->].
  { intros a b H. apply combinations2_In in H. destruct H as [Ha Hb].
    split; apply Hincl; eapply kept_after_cut_incl; eassumption. }
  apply rms_loop_total. lia.
Qed.

(** [remove_confs] returns for every molecule and every setting. *)
Lemma remove_confs_total (mol : Mol) (energy rms : option Q) :
  exists res, remove_confs mol energy rms = Some res.
Proof.
  unfold remove_confs.
  destruct (energy_loop_total mol (mol_confs mol) [] (incl_refl _))
    as [[|e] He]; rewrite He; [eauto|].
  apply energy_loop_Energies_ids in He. simpl in He.
  destruct (sorted_by_energy e) as [|e0 rest] eqn:Es; [eauto|].
  destruct (select_remove_ids_total mol e0 rest energy rms) as [removed ->];
    [|eauto].
  rewrite <- He, <- Es. intros x Hx.
  eapply Permutation_in; [|exact Hx].
  apply Permutation_map, sorted_by_energy_perm.
Qed.

(** With every force field available the run ends normally and writes no
    diagnostic; it leaves the conformers of a molecule without conformers
    alone and otherwise removes [remove_ids] and renumbers. *)
Lemma remove_confs_computable (mol : Mol) (energy rms : option Q) :
  energies_computable mol ->
  exists mol', remove_confs mol energy rms = Some (mol', []) /\
    mol_struct mol' = mol_struct mol /\
    ((mol_confs mol = [] /\ mol' = mol) \/
     exists removed,
       mol_confs mol' = reindex 0 (RemoveConformers (mol_confs mol) removed)).
Proof.
  intros Hcomp. unfold remove_confs.
  destruct (energy_loop_ids mol (mol_confs mol) Hcomp [] (incl_refl _))
    as (e & -> & He). simpl in He.
  destruct (sorted_by_energy e) as [|e0 rest] eqn:Es.
  - exists mol. split; [reflexivity|]. split; [reflexivity|]. left.
    split; [|reflexivity].
    pose proof (sorted_by_energy_perm e) as Hp. rewrite Es in Hp.
    apply Permutation_nil in Hp. subst e. simpl in He.
    symmetry in He. now apply map_eq_nil in He.
  - destruct (select_remove_ids_total mol e0 rest energy rms) as [removed ->].
    { rewrite <- He, <- Es. intros x Hx.
      eapply Permutation_in; [|exact Hx].
      apply Permutation_map, sorted_by_energy_perm. }
    eexists. split; [reflexivity|]. split; [reflexivity|].
    right. exists removed. reflexivity.
Qed.

(** With a conformer that has no force field the run writes the
    diagnostic and leaves the molecule as it is. *)
Lemma remove_confs_ff_none (mol : Mol) (energy rms : option Q) :
  unique_conf_ids mol ->
  (exists c, In c (mol_confs mol) /\
             mmff_energy (mol_struct mol) (conf_geom c) = None) ->
  remove_confs mol energy rms = Some (mol, [stderr_ff_none mol]).
Proof.
  intros Huniq Hnone. unfold remove_confs.
  now rewrite (energy_loop_ff_none mol _ Huniq [] (incl_refl _) Hnone).
Qed.

(** C7: with every energy computable, and for every setting of the
    energy cutoff and the rms threshold, [remove_confs] returns and the
    conformer ids of the molecule are then [0, 1, ..., k-1] for the number
    [k] of conformers left. *)
Theorem pruned_ids_contiguous (mol : Mol) (energy rms : option Q) :
  energies_computable mol ->
  exists mol', remove_confs mol energy rms = Some (mol', []) /\
    map conf_id (mol_confs mol') = seq 0 (length (mol_confs mol')).
Proof.
  intros Hcomp.
  destruct (remove_confs_computable mol energy rms Hcomp)
    as (mol' & Hrun & _ & [[Hnil ->] | [removed Hconfs]]).
  - exists mol. split; [assumption|]. now rewrite Hnil.
  - exists mol'. split; [assumption|].
    rewrite Hconfs, reindex_ids, reindex_length. reflexivity.
Qed.

End PrunerRun.

(** ** The conformer pruner on a molecule with distinct conformer ids *)

Section PrunerUnique.
Context {TK : Toolkit}.

Lemma entries_ids (mol : Mol) (cs : list Conformer) :
  map fst (map (energy_entry mol) cs) = map conf_id cs.
Proof. rewrite map_map. reflexivity. Qed.

Lemma sorted_entries_NoDup (mol : Mol) :
  unique_conf_ids mol ->
  NoDup (map fst (sorted_by_energy (map (energy_entry mol) (mol_confs mol)))).
Proof.
  intros Huniq.
  eapply Permutation_NoDup.
  - apply Permutation_map. symmetry. apply sorted_by_energy_perm.
  - now rewrite entries_ids.
Qed.

Lemma remove_confs_unique (mol : Mol) (energy rms : option Q) e0 rest :
  energies_computable mol -> unique_conf_ids mol ->
  sorted_by_energy (map (energy_entry mol) (mol_confs mol)) = e0 :: rest ->
  exists removed,
    select_remove_ids mol e0 rest energy rms = Some removed /\
    remove_confs mol energy rms
    = Some (mkMol (mol_struct mol)
              (reindex 0 (surviving removed (mol_confs mol))), []).
Proof.
  intros Hcomp Huniq Hs. unfold remove_confs.
  rewrite (energy_loop_entries mol _ Hcomp Huniq [] (incl_refl _)).
  simpl app. rewrite Hs.
  destruct (select_remove_ids_total mol e0 rest energy rms) as [removed ->].
  { rewrite <- Hs, <- (entries_ids mol). intros x Hx.
    eapply Permutation_in; [|exact Hx].
    apply Permutation_map, sorted_by_energy_perm. }
  exists removed. split; [reflexivity|].
  now rewrite RemoveConformers_surviving.
Qed.

(** *** The head of the sorted list *)

Lemma insert_head_le (x : nat * Q) (l : list (nat * Q)) :
  (forall y, In y l -> (snd x <= snd y)%Q) ->
  insert_by_energy x l = x :: l.
Proof.
  destruct l as [|y l]; simpl; intros H; [reflexivity|].
  assert (E : Qltb (snd y) (snd x) = false) by (apply Qltb_ge, H; now left).
  now rewrite E.
Qed.

Lemma sorted_head_first_min (l1 : list (nat * Q)) (x : nat * Q)
    (l2 : list (nat * Q)) :
  (forall y, In y l1 -> (snd x < snd y)%Q) ->
  (forall y, In y l2 -> (snd x <= snd y)%Q) ->
  exists rest, sorted_by_energy (l1 ++ x :: l2) = x :: rest.
Proof.
  intros H1 H2. induction l1 as [|a l1 IH]; simpl.
  - exists (sorted_by_energy l2). apply insert_head_le.
    intros y Hy. apply H2.
    eapply Permutation_in; [apply sorted_by_energy_perm | exact Hy].
  - destruct IH as [rest ->]; [intros y Hy; apply H1; now right|].
    simpl. assert (E : Qltb (snd x) (snd a) = true).
    { apply Qltb_lt, H1. now left. }
    rewrite E. eauto.
Qed.

Lemma first_min_split {A : Type} (key : A -> Q) (l : list A) :
  l <> [] ->
  exists l1 x l2, l = l1 ++ x :: l2 /\
    (forall y, In y l1 -> (key x < key y)%Q) /\
    (forall y, In y l2 -> (key x <= key y)%Q).
Proof.
  induction l as [|a l IH]; intros Hne; [congruence|].
  destruct l as [|b l'].
  - exists [], a, []. split; [reflexivity|]. split; intros y [].
  - destruct IH as (l1 & x & l2 & E & H1 & H2); [discriminate|].
    destruct (Qlt_le_dec (key x) (key a)) as [Hlt | Hle].
    + exists (a :: l1), x, l2. rewrite E. split; [reflexivity|].
      split; [|assumption]. intros y [<- | Hy]; auto.
    + exists [], a, (b :: l'). split; [reflexivity|].
      split; [intros y []|]. intros y Hy. rewrite E in Hy.
      apply in_app_or in Hy. destruct Hy as [Hy | [<- | Hy]].
      * apply Qle_trans with (key x); [assumption|].
        apply Qlt_le_weak. auto.
      * assumption.
      * apply Qle_trans with (key x); auto.
Qed.

Lemma first_minimum_exists (mol : Mol) :
  mol_confs mol <> [] -> exists l1 c0 l2, first_minimum mol l1 c0 l2.
Proof.
  intros Hne.
  destruct (first_min_split (energy_val mol) (mol_confs mol) Hne)
    as (l1 & c0 & l2 & H). exists l1, c0, l2. exact H.
Qed.

Lemma first_minimum_least (mol : Mol) l1 c0 l2 :
  first_minimum mol l1 c0 l2 ->
  In c0 (mol_confs mol) /\
  forall c, In c (mol_confs mol) -> (energy_val mol c0 <= energy_val mol c)%Q.
Proof.
  intros (E & H1 & H2). rewrite E. split.
  - apply in_or_app. right. now left.
  - intros c Hc. apply in_app_or in Hc. destruct Hc as [Hc | [<- | Hc]].
    + apply Qlt_le_weak. auto.
    + apply Qle_refl.
    + auto.
Qed.

Lemma first_minimum_head (mol : Mol) l1 c0 l2 :
  first_minimum mol l1 c0 l2 ->
  exists rest,
    sorted_by_energy (map (energy_entry mol) (mol_confs mol))
    = energy_entry mol c0 :: rest.
Proof.
  intros (E & H1 & H2). rewrite E, map_app. simpl map.
  apply sorted_head_first_min.
  - intros y Hy. apply in_map_iff in Hy. destruct Hy as [c [<- Hc]].
    simpl. auto.
  - intros y Hy. apply in_map_iff in Hy. destruct Hy as [c [<- Hc]].
    simpl. auto.
Qed.

(** *** What is marked for removal *)

Lemma select_remove_ids_spec mol e0 rest energy rms removed :
  select_remove_ids mol e0 rest energy rms = Some removed ->
  exists marked, removed = cut_ids e0 rest energy ++ marked /\
    match rms with
    | None => marked = []
    | Some r =>
        exists rms_list,
          rms_list_of mol (combinations2 (kept_after_cut e0 rest energy))
          = Some rms_list /\
          (forall d, In d marked ->
             exists item, In item rms_list /\ snd (fst item) = d /\
                          below r item = true) /\
          (forall item, In item rms_list ->
             ~ In (fst (fst item)) marked -> ~ In (snd (fst item)) marked ->
             below r item = false)
    end.
Proof.
  rewrite select_remove_ids_unfold. destruct rms as [r|].
  - destruct (rms_list_of mol _) as [rms_list|] eqn:El; [|discriminate].
    intros H. apply rms_loop_spec in H.
    destruct H as (marked & -> & Hm & Hrest).
    exists marked. split; [reflexivity|]. exists rms_list. auto.
  - intros H. injection H as <-. exists []. now rewrite app_nil_r.
Qed.

Lemma combinations2_snd_tail {A : Type} (x : A) (l : list A) (a b : A) :
  In (a, b) (combinations2 (x :: l)) -> In b l.
Proof.
  simpl. rewrite in_app_iff, in_map_iff. intros [[y [E Hy]] | H].
  - now injection E as <- <-.
  - now apply combinations2_In in H.
Qed.

Lemma cut_ids_incl e0 rest energy : incl (cut_ids e0 rest energy) (map fst rest).
Proof.
  intros x H. destruct energy; [|contradiction].
  apply in_map_iff in H. destruct H as [y [<- Hy]].
  apply filter_In in Hy. apply in_map. tauto.
Qed.

Lemma kept_after_cut_NoDup e0 rest energy :
  NoDup (map fst (e0 :: rest)) -> NoDup (kept_after_cut e0 rest energy).
Proof.
  simpl. intros Hnd. inversion Hnd as [|? ? Hnotin Hnd']; subst.
  unfold kept_after_cut. constructor.
  - destruct energy; [|intros []]. intros H. apply Hnotin.
    apply in_map_iff in H. destruct H as [y [<- Hy]].
    apply filter_In in Hy. apply in_map. tauto.
  - destruct energy; [|constructor]. now apply NoDup_map_filter.
Qed.

(** The entry at the head of the sorted list is never marked. *)
Lemma head_not_removed mol e0 rest energy rms removed :
  NoDup (map fst (e0 :: rest)) ->
  select_remove_ids mol e0 rest energy rms = Some removed ->
  ~ In (fst e0) removed.
Proof.
  intros Hnd Hsel. pose proof Hnd as Hnd0.
  simpl in Hnd. inversion Hnd as [|? ? Hnotin Hnd']; subst.
  apply select_remove_ids_spec in Hsel.
  destruct Hsel as (marked & -> & Hm). intros Hin.
  apply in_app_or in Hin. destruct Hin as [Hin | Hin].
  - apply Hnotin. now apply (cut_ids_incl e0 rest energy).
  - destruct rms as [r|]; [|subst marked; contradiction].
    destruct Hm as (rms_list & Hl & Hmarked & _).
    destruct (Hmarked _ Hin) as ([[a b] v] & Hitem & Hb & _).
    simpl in Hb. subst b.
    apply (rms_list_of_In mol _ _ Hl) in Hitem. destruct Hitem as [Hpair _].
    apply combinations2_snd_tail in Hpair.
    pose proof (kept_after_cut_NoDup e0 rest energy Hnd0) as Hk.
    unfold kept_after_cut in Hk. inversion Hk; subst. contradiction.
Qed.

Lemma surviving_In (removed : list nat) (confs : list Conformer) (c : Conformer) :
  In c (surviving removed confs) <-> In c confs /\ ~ In (conf_id c) removed.
Proof.
  unfold surviving. rewrite filter_In, negb_true_iff.
  rewrite <- in_nats_In. destruct (in_nats (conf_id c) removed);
    intuition congruence.
Qed.

(** C9: with at least one conformer, distinct conformer ids and every
    energy computable, and for every setting of the energy cutoff and the
    rms threshold, [remove_confs] keeps the conformer of least energy (the
    first one in storage order when several share the least energy): the
    conformers left are those of [surviving removed], renumbered, and that
    conformer is among them; in particular a conformer whose energy is
    strictly below all others is kept. *)
Theorem min_energy_conformer_survives (mol : Mol) (energy rms : option Q) :
  energies_computable mol -> unique_conf_ids mol -> mol_confs mol <> [] ->
  exists mol' removed c0,
    remove_confs mol energy rms = Some (mol', []) /\
    mol_confs mol' = reindex 0 (surviving removed (mol_confs mol)) /\
    In c0 (mol_confs mol) /\
    (forall c, In c (mol_confs mol) ->
       (energy_val mol c0 <= energy_val mol c)%Q) /\
    In c0 (surviving removed (mol_confs mol)) /\
    (forall c1, In c1 (mol_confs mol) ->
       (forall c, In c (mol_confs mol) -> c <> c1 ->
          (energy_val mol c1 < energy_val mol c)%Q) ->
       In c1 (surviving removed (mol_confs mol))).
Proof.
  intros Hcomp Huniq Hne.
  destruct (first_minimum_exists mol Hne) as (l1 & c0 & l2 & Hmin).
  destruct (first_minimum_head mol l1 c0 l2 Hmin) as [rest Hs].
  destruct (remove_confs_unique mol energy rms _ _ Hcomp Huniq Hs)
    as (removed & Hsel & Hrun).
  destruct (first_minimum_least mol l1 c0 l2 Hmin) as [Hc0 Hleast].
  assert (Hkeep : In c0 (surviving removed (mol_confs mol))).
  { apply surviving_In. split; [assumption|].
    apply (head_not_removed mol _ _ _ _ _
             ltac:(rewrite <- Hs; now apply sorted_entries_NoDup) Hsel). }
  eexists. exists removed, c0. split; [exact Hrun|].
  split; [reflexivity|]. split; [assumption|]. split; [assumption|].
  split; [assumption|].
  intros c1 Hc1 Hstrict.
  destruct (Nat.eq_dec (conf_id c1) (conf_id c0)) as [Eid | Hid].
  - now rewrite (NoDup_map_inj conf_id _ c1 c0 Huniq Hc1 Hc0 Eid).
  - exfalso. apply (Qlt_not_le _ _ (Hstrict c0 Hc0 ltac:(congruence))).
    now apply Hleast.
Qed.

End PrunerUnique.

(** ** The conformer pruner: the energy cutoff and the rms threshold *)

Section PrunerThresholds.
Context {TK : Toolkit}.

Lemma entry_in_sorted (mol : Mol) (c : Conformer) e0 rest :
  sorted_by_energy (map (energy_entry mol) (mol_confs mol)) = e0 :: rest ->
  In c (mol_confs mol) -> In (energy_entry mol c) (e0 :: rest).
Proof.
  intros Hs Hc. rewrite <- Hs.
  eapply Permutation_in; [symmetry; apply sorted_by_energy_perm|].
  now apply in_map.
Qed.

(** A conformer is cut by the energy test exactly when its own entry
    fails the test. *)
Lemma cut_ids_In (mol : Mol) (c : Conformer) e0 rest (en : Q) :
  unique_conf_ids mol ->
  sorted_by_energy (map (energy_entry mol) (mol_confs mol)) = e0 :: rest ->
  In c (mol_confs mol) ->
  within_cutoff (snd e0) en e0 = true ->
  (In (conf_id c) (cut_ids e0 rest (Some en))
   <-> within_cutoff (snd e0) en (energy_entry mol c) = false).
Proof.
  intros Huniq Hs Hc He0.
  pose proof (sorted_entries_NoDup mol Huniq) as Hnd. rewrite Hs in Hnd.
  pose proof (entry_in_sorted mol c e0 rest Hs Hc) as Hin.
  unfold cut_ids. rewrite in_map_iff. split.
  - intros [y [Hy Hf]]. apply filter_In in Hf. destruct Hf as [Hyin Hf].
    apply negb_true_iff in Hf.
    assert (E : y = energy_entry mol c).
    { apply (NoDup_map_inj fst (e0 :: rest)); auto. now right. }
    now subst y.
  - intros Hf. exists (energy_entry mol c). split; [reflexivity|].
    apply filter_In. split; [|now apply negb_true_iff].
    destruct Hin as [E | Hin]; [|assumption]. congruence.
Qed.

Lemma within_cutoff_zero (qmin ev : Q) (id : nat) :
  (qmin <= ev)%Q -> within_cutoff qmin 0 (id, ev) = Qeq_bool ev qmin.
Proof.
  intros Hle. unfold within_cutoff. simpl. apply eq_true_iff_eq.
  rewrite Qle_bool_iff, Qeq_bool_iff. split; intros H; lra.
Qed.

(** C4 (as amended): with at least two conformers, distinct conformer
    ids and every energy computable, [remove_confs] with the energy cutoff
    0 and no rms threshold keeps exactly the conformers whose energy
    equals the least energy, all of them, in storage order and renumbered
    from 0, and removes the others. *)
Theorem energy_zero_keeps_all_minima (mol : Mol) :
  energies_computable mol -> unique_conf_ids mol ->
  2 <= length (mol_confs mol) ->
  exists mol' qmin,
    remove_confs mol (Some 0%Q) None = Some (mol', []) /\
    (forall c, In c (mol_confs mol) -> (qmin <= energy_val mol c)%Q) /\
    (exists c, In c (mol_confs mol) /\ energy_val mol c = qmin) /\
    mol_confs mol'
    = reindex 0 (filter (fun c => Qeq_bool (energy_val mol c) qmin)
                        (mol_confs mol)).
Proof.
  intros Hcomp Huniq Hlen.
  assert (Hne : mol_confs mol <> []).
  { intros E. rewrite E in Hlen. simpl in Hlen. lia. }
  destruct (first_minimum_exists mol Hne) as (l1 & c0 & l2 & Hmin).
  destruct (first_minimum_head mol l1 c0 l2 Hmin) as [rest Hs].
  destruct (first_minimum_least mol l1 c0 l2 Hmin) as [Hc0 Hleast].
  destruct (remove_confs_unique mol (Some 0%Q) None _ _ Hcomp Huniq Hs)
    as (removed & Hsel & Hrun).
  rewrite select_remove_ids_unfold in Hsel. injection Hsel as <-.
  eexists. exists (energy_val mol c0). split; [exact Hrun|].
  split; [assumption|]. split; [eauto|]. simpl mol_confs. f_equal.
  apply filter_ext_in. intros c Hc.
  rewrite <- (within_cutoff_zero _ _ (conf_id c) (Hleast c Hc)).
  fold (energy_entry mol c).
  assert (He0 : within_cutoff (snd (energy_entry mol c0)) 0
                  (energy_entry mol c0) = true).
  { unfold within_cutoff. apply Qle_bool_iff. simpl. lra. }
  pose proof (cut_ids_In mol c _ rest 0%Q Huniq Hs Hc He0) as Hiff.
  apply eq_true_iff_eq. rewrite negb_true_iff.
  change (snd (energy_entry mol c0)) with (energy_val mol c0) in Hiff.
  rewrite <- not_true_iff_false, in_nats_In, Hiff.
  destruct (within_cutoff (energy_val mol c0) 0 (energy_entry mol c));
    intuition congruence.
Qed.

(** After the greedy loop the RMS of two conformers that were kept by
    the energy test and not marked is not below the threshold. *)
Lemma unmarked_pairs_apart mol e0 rest energy (r : Q) removed :
  select_remove_ids mol e0 rest energy (Some r) = Some removed ->
  forall a b, In (a, b) (combinations2 (kept_after_cut e0 rest energy)) ->
    ~ In a removed -> ~ In b removed ->
    exists v, GetConformerRMS mol a b = Some v /\ Qltb v r = false.
Proof.
  intros Hsel a b Hpair Ha Hb.
  apply select_remove_ids_spec in Hsel.
  destruct Hsel as (marked & -> & rms_list & Hl & _ & Hrest).
  destruct (rms_list_of_In mol _ _ Hl) as [Hfwd _].
  destruct (Hfwd a b Hpair) as (v & Hv & Hitem).
  exists v. split; [assumption|].
  apply (Hrest (a, b, v) Hitem); simpl; intros H;
    [apply Ha | apply Hb]; apply in_or_app; now right.
Qed.

Lemma combinations2_complete {A : Type} (l : list A) (a b : A) :
  In a l -> In b l -> a <> b ->
  In (a, b) (combinations2 l) \/ In (b, a) (combinations2 l).
Proof.
  induction l as [|x l IH]; simpl; [contradiction|].
  intros [-> | Ha] [-> | Hb] Hne; rewrite !in_app_iff.
  - congruence.
  - left. left. now apply in_map.
  - right. left. now apply in_map.
  - destruct (IH Ha Hb Hne); auto.
Qed.

Lemma GetConformerRMS_unique (mol : Mol) (c1 c2 : Conformer) :
  unique_conf_ids mol -> In c1 (mol_confs mol) -> In c2 (mol_confs mol) ->
  GetConformerRMS mol (conf_id c1) (conf_id c2) = Some (rms_val mol c1 c2).
Proof.
  intros Huniq H1 H2. unfold GetConformerRMS.
  now rewrite !GetConformer_unique.
Qed.

(** A surviving conformer other than the head passed the energy test. *)
Lemma survivor_kept (mol : Mol) (c : Conformer) e0 rest (en : Q) rms removed :
  unique_conf_ids mol ->
  sorted_by_energy (map (energy_entry mol) (mol_confs mol)) = e0 :: rest ->
  select_remove_ids mol e0 rest (Some en) rms = Some removed ->
  In c (mol_confs mol) -> ~ In (conf_id c) removed ->
  In (conf_id c) (kept_after_cut e0 rest (Some en)).
Proof.
  intros Huniq Hs Hsel Hc Hnot.
  apply select_remove_ids_spec in Hsel. destruct Hsel as (marked & -> & _).
  destruct (entry_in_sorted mol c e0 rest Hs Hc) as [E | Hin].
  - left. now rewrite E.
  - right. apply in_map_iff. exists (energy_entry mol c).
    split; [reflexivity|]. apply filter_In. split; [assumption|].
    destruct (within_cutoff (snd e0) en (energy_entry mol c)) eqn:Ew;
      [reflexivity|].
    exfalso. apply Hnot. apply in_or_app. left.
    apply in_map_iff. exists (energy_entry mol c). split; [reflexivity|].
    apply filter_In. split; [assumption|]. now rewrite Ew.
Qed.

(** Where the rms threshold does its work: with an energy cutoff set,
    the conformers left are pairwise not closer than the threshold (in
    the order in which the code measured them). *)
Lemma rms_pruning_with_cutoff (mol : Mol) (en r : Q) :
  energies_computable mol -> unique_conf_ids mol -> mol_confs mol <> [] ->
  exists mol' removed,
    remove_confs mol (Some en) (Some r) = Some (mol', []) /\
    mol_confs mol' = reindex 0 (surviving removed (mol_confs mol)) /\
    forall c1 c2,
      In c1 (surviving removed (mol_confs mol)) ->
      In c2 (surviving removed (mol_confs mol)) ->
      conf_id c1 <> conf_id c2 ->
      Qltb (rms_val mol c1 c2) r = false \/ Qltb (rms_val mol c2 c1) r = false.
Proof.
  intros Hcomp Huniq Hne.
  destruct (first_minimum_exists mol Hne) as (l1 & c0 & l2 & Hmin).
  destruct (first_minimum_head mol l1 c0 l2 Hmin) as [rest Hs].
  destruct (remove_confs_unique mol (Some en) (Some r) _ _ Hcomp Huniq Hs)
    as (removed & Hsel & Hrun).
  eexists. exists removed. split; [exact Hrun|]. split; [reflexivity|].
  intros c1 c2 H1 H2 Hne12.
  apply surviving_In in H1, H2. destruct H1 as [H1 N1], H2 as [H2 N2].
  pose proof (survivor_kept mol c1 _ _ _ _ _ Huniq Hs Hsel H1 N1) as K1.
  pose proof (survivor_kept mol c2 _ _ _ _ _ Huniq Hs Hsel H2 N2) as K2.
  destruct (combinations2_complete _ _ _ K1 K2 Hne12) as [Hp | Hp].
  - left. destruct (unmarked_pairs_apart mol _ _ _ _ _ Hsel _ _ Hp N1 N2)
      as (v & Hv & Hfar).
    rewrite GetConformerRMS_unique in Hv by assumption. now injection Hv as <-.
  - right. destruct (unmarked_pairs_apart mol _ _ _ _ _ Hsel _ _ Hp N2 N1)
      as (v & Hv & Hfar).
    rewrite GetConformerRMS_unique in Hv by assumption. now injection Hv as <-.
Qed.

End PrunerThresholds.

(** ** The conformer pruner: a second run *)

Section PrunerSecondRun.
Context {TK : Toolkit}.

(** *** The sort is stable: it commutes with dropping entries *)

Lemma insert_by_energy_sorted (x : nat * Q) (l : list (nat * Q)) :
  StronglySorted energy_le l -> StronglySorted energy_le (insert_by_energy x l).
Proof.
  induction l as [|y l IH]; simpl; intros Hs.
  - constructor; constructor.
  - apply StronglySorted_inv in Hs. destruct Hs as [Hs Hy].
    destruct (Qltb (snd y) (snd x)) eqn:E.
    + constructor; [auto|].
      eapply Permutation_Forall;
        [symmetry; apply insert_by_energy_perm|].
      constructor; [|assumption].
      apply Qltb_lt in E. now apply Qlt_le_weak.
    + apply Qltb_ge in E. constructor.
      * now constructor.
      * constructor; [assumption|].
        eapply Forall_impl; [|exact Hy].
        intros z Hz. unfold energy_le in *. now apply Qle_trans with (snd y).
Qed.

Lemma sorted_by_energy_sorted (e : list (nat * Q)) :
  StronglySorted energy_le (sorted_by_energy e).
Proof.
  induction e as [|x e IH]; simpl; [constructor|].
  now apply insert_by_energy_sorted.
Qed.

Lemma filter_insert_by_energy (P : nat * Q -> bool) (x : nat * Q)
    (l : list (nat * Q)) :
  StronglySorted energy_le l ->
  filter P (insert_by_energy x l)
  = if P x then insert_by_energy x (filter P l) else filter P l.
Proof.
  induction l as [|y l IH]; intros Hs.
  - simpl. now destruct (P x).
  - apply StronglySorted_inv in Hs. destruct Hs as [Hs Hy].
    cbn [insert_by_energy]. destruct (Qltb (snd y) (snd x)) eqn:E.
    + cbn [filter]. rewrite (IH Hs).
      destruct (P y), (P x); cbn [insert_by_energy]; rewrite ?E; reflexivity.
    + cbn [filter]. destruct (P x); [|reflexivity].
      symmetry. apply insert_head_le.
      intros z Hz.
      assert (Hz' : In z (y :: l)).
      { destruct (P y); [|apply filter_In in Hz; right; tauto].
        destruct Hz as [<- | Hz]; [now left|].
        apply filter_In in Hz. right. tauto. }
      apply Qltb_ge in E. destruct Hz' as [<- | Hz']; [assumption|].
      rewrite Forall_forall in Hy. apply Qle_trans with (snd y); [assumption|].
      now apply Hy.
Qed.

Lemma sorted_by_energy_filter (P : nat * Q -> bool) (e : list (nat * Q)) :
  sorted_by_energy (filter P e) = filter P (sorted_by_energy e).
Proof.
  induction e as [|x e IH]; simpl; [reflexivity|].
  rewrite filter_insert_by_energy by apply sorted_by_energy_sorted.
  destruct (P x); simpl; now rewrite IH.
Qed.

(** *** The sort does not look at the ids *)

Section Relabelled.
Variable R : nat * Q -> nat * Q -> Prop.
Hypothesis R_energy : forall p1 p, R p1 p -> snd p1 = snd p.

Lemma insert_by_energy_Forall2 x1 x l1 l :
  R x1 x -> Forall2 R l1 l ->
  Forall2 R (insert_by_energy x1 l1) (insert_by_energy x l).
Proof.
  intros Hx H. induction H as [|y1 y l1 l Hy H IH]; simpl.
  - constructor; [assumption | constructor].
  - rewrite (R_energy _ _ Hx), (R_energy _ _ Hy).
    destruct (Qltb (snd y) (snd x)); constructor; auto.
Qed.

Lemma sorted_by_energy_Forall2 l1 l :
  Forall2 R l1 l -> Forall2 R (sorted_by_energy l1) (sorted_by_energy l).
Proof.
  induction 1; simpl; [constructor|]. now apply insert_by_energy_Forall2.
Qed.

End Relabelled.

Lemma Forall2_In_left {A B : Type} (R : A -> B -> Prop) l1 l (x1 : A) :
  Forall2 R l1 l -> In x1 l1 -> exists x, In x l /\ R x1 x.
Proof.
  induction 1 as [|y1 y l1 l Hy H IH]; simpl; [contradiction|].
  intros [<- | Hin]; [eauto|].
  destruct (IH Hin) as (x & Hx & HR). eauto.
Qed.

Lemma Forall2_map_In {A B A' B' : Type} (G : A -> B -> Prop)
    (R : A' -> B' -> Prop) (f1 : A -> A') (f : B -> B') l1 l :
  Forall2 G l1 l ->
  (forall a b, In a l1 -> In b l -> G a b -> R (f1 a) (f b)) ->
  Forall2 R (map f1 l1) (map f l).
Proof.
  induction 1 as [|a b l1 l Hab H IH]; simpl; intros HR; constructor.
  - apply HR; auto.
  - apply IH. intros a' b' Ha Hb. apply HR; auto.
Qed.

Lemma combinations2_Forall2 {A B : Type} (C : A -> B -> Prop) l1 l :
  Forall2 C l1 l ->
  Forall2 (fun p1 p => C (fst p1) (fst p) /\ C (snd p1) (snd p))
          (combinations2 l1) (combinations2 l).
Proof.
  induction 1 as [|a b l1 l Hab H IH]; simpl; [constructor|].
  apply Forall2_app; [|assumption].
  clear IH. induction H; simpl; constructor; auto.
Qed.

Lemma reindex_same_geom (confs : list Conformer) :
  forall i, Forall2 (fun c1 c => conf_geom c1 = conf_geom c)
                    (reindex i confs) confs.
Proof.
  induction confs as [|c confs IH]; intros i; simpl; constructor; auto.
Qed.

Lemma reindex_reindex (confs : list Conformer) :
  forall i j, reindex i (reindex j confs) = reindex i confs.
Proof.
  induction confs as [|c confs IH]; intros i j; simpl; [reflexivity|].
  now rewrite IH.
Qed.

Lemma filter_none {A : Type} (f : A -> bool) (l : list A) :
  (forall x, In x l -> f x = false) -> filter f l = [].
Proof.
  induction l as [|a l IH]; simpl; intros H; [reflexivity|].
  rewrite (H a) by now left. apply IH. intros x Hx. apply H. now right.
Qed.

Lemma filter_all {A : Type} (f : A -> bool) (l : list A) :
  (forall x, In x l -> f x = true) -> filter f l = l.
Proof.
  induction l as [|a l IH]; simpl; intros H; [reflexivity|].
  rewrite (H a) by now left. f_equal. apply IH. intros x Hx. apply H. now right.
Qed.

Lemma surviving_nil (confs : list Conformer) : surviving [] confs = confs.
Proof.
  unfold surviving. apply filter_all. reflexivity.
Qed.

Lemma filter_filter_implied {A : Type} (P W : A -> bool) (l : list A) :
  (forall x, In x l -> P x = true -> W x = true) ->
  filter P (filter W l) = filter P l.
Proof.
  induction l as [|a l IH]; simpl; intros H; [reflexivity|].
  assert (IH' : filter P (filter W l) = filter P l).
  { apply IH. intros x Hx. apply H. now right. }
  destruct (W a) eqn:Ew; simpl.
  - now rewrite IH'.
  - destruct (P a) eqn:Ep; [|assumption].
    rewrite (H a (or_introl eq_refl) Ep) in Ew. discriminate.
Qed.

Lemma combinations2_map_filter {A B : Type} (g : A -> B) (f : A -> bool)
    (l : list A) (p : B * B) :
  In p (combinations2 (map g (filter f l))) -> In p (combinations2 (map g l)).
Proof.
  induction l as [|a l IH]; simpl; [auto|].
  destruct (f a); simpl; rewrite !in_app_iff.
  - intros [H | H]; [left | right; auto].
    apply in_map_iff in H. destruct H as [b [<- Hb]].
    apply in_map. apply in_map_iff in Hb. destruct Hb as [x [<- Hx]].
    apply in_map. apply filter_In in Hx. tauto.
  - auto.
Qed.

Lemma combinations2_cons_map_filter {A B : Type} (g : A -> B) (f : A -> bool)
    (x : B) (l : list A) (p : B * B) :
  In p (combinations2 (x :: map g (filter f l))) ->
  In p (combinations2 (x :: map g l)).
Proof.
  simpl. rewrite !in_app_iff. intros [H | H].
  - left. apply in_map_iff in H. destruct H as [b [<- Hb]].
    apply in_map. apply in_map_iff in Hb. destruct Hb as [y [<- Hy]].
    apply in_map. apply filter_In in Hy. tauto.
  - right. now apply combinations2_map_filter in H.
Qed.

Lemma rms_list_of_all_apart (mol : Mol) (r : Q) (pairs : list (nat * nat)) :
  (forall a b, In (a, b) pairs ->
     exists v, GetConformerRMS mol a b = Some v /\ Qltb v r = false) ->
  exists l, rms_list_of mol pairs = Some l /\ find (below r) l = None.
Proof.
  induction pairs as [|[a b] pairs IH]; intros H; simpl; [eauto|].
  destruct (H a b (or_introl eq_refl)) as (v & -> & Hv).
  destruct IH as (l & -> & Hl); [intros a' b' H'; apply H; now right|].
  eexists. split; [reflexivity|]. simpl. unfold below at 1. simpl.
  now rewrite Hv.
Qed.

Lemma rms_loop_nothing_below (fuel : nat) (r : Q) rms_list remove_ids :
  find (below r) rms_list = None ->
  rms_loop fuel r rms_list remove_ids = Some remove_ids.
Proof. intros H. destruct fuel; simpl; now rewrite H. Qed.

End PrunerSecondRun.

(** ** The conformer pruner: a second run on exact values *)

Section PrunerExactSecondRun.
Context {TK : Toolkit}.

Lemma unmarked_true (removed : list nat) (p : nat * Q) :
  unmarked removed p = true <-> ~ In (fst p) removed.
Proof.
  unfold unmarked. rewrite negb_true_iff, <- in_nats_In.
  destruct (in_nats (fst p) removed); intuition congruence.
Qed.

Lemma cut_ids_removed mol e0 rest energy rms removed :
  select_remove_ids mol e0 rest energy rms = Some removed ->
  incl (cut_ids e0 rest energy) removed.
Proof.
  intros Hsel. apply select_remove_ids_spec in Hsel.
  destruct Hsel as (marked & -> & _). intros x Hx. apply in_or_app. now left.
Qed.

Lemma unmarked_within mol e0 rest (en : Q) rms removed (y : nat * Q) :
  select_remove_ids mol e0 rest (Some en) rms = Some removed ->
  In y rest -> unmarked removed y = true ->
  within_cutoff (snd e0) en y = true.
Proof.
  intros Hsel Hy Hu. apply unmarked_true in Hu.
  destruct (within_cutoff (snd e0) en y) eqn:E; [reflexivity|].
  exfalso. apply Hu. apply (cut_ids_removed _ _ _ _ _ _ Hsel).
  apply in_map. apply filter_In. split; [assumption|]. now rewrite E.
Qed.

Lemma same_entry_energy (mol1 mol : Mol) (p1 p : nat * Q) :
  same_entry mol1 mol p1 p -> snd p1 = snd p.
Proof. now intros [_ H]. Qed.

Lemma same_conformer_rms (mol1 mol : Mol) (a1 b1 a b : nat) :
  mol_struct mol1 = mol_struct mol ->
  same_conformer mol1 mol a1 a -> same_conformer mol1 mol b1 b ->
  GetConformerRMS mol1 a1 b1 = GetConformerRMS mol a b.
Proof.
  intros Hst (ca1 & ca & Ea1 & Ea & Ga) (cb1 & cb & Eb1 & Eb & Gb).
  unfold GetConformerRMS. now rewrite Ea1, Ea, Eb1, Eb, Hst, Ga, Gb.
Qed.

(** On the molecule a run leaves behind, the next run marks nothing. *)
Lemma second_run_selects_nothing (mol : Mol) (energy rms : option Q)
    e0 rest removed :
  energies_computable mol -> unique_conf_ids mol ->
  sorted_by_energy (map (energy_entry mol) (mol_confs mol)) = e0 :: rest ->
  select_remove_ids mol e0 rest energy rms = Some removed ->
  let mol1 := mkMol (mol_struct mol)
                (reindex 0 (surviving removed (mol_confs mol))) in
  exists e0' rest',
    sorted_by_energy (map (energy_entry mol1) (mol_confs mol1)) = e0' :: rest' /\
    select_remove_ids mol1 e0' rest' energy rms = Some [].
Proof.
  intros Hcomp Huniq Hs Hsel mol1.
  set (S := surviving removed (mol_confs mol)) in *.
  assert (Hnd : NoDup (map fst (e0 :: rest))).
  { rewrite <- Hs. now apply sorted_entries_NoDup. }
  pose proof (head_not_removed mol _ _ _ _ _ Hnd Hsel) as He0.
  assert (Huniq1 : unique_conf_ids mol1).
  { unfold unique_conf_ids. simpl. rewrite reindex_ids. apply seq_NoDup. }
  assert (HES : sorted_by_energy (map (energy_entry mol) S)
                = e0 :: filter (unmarked removed) rest).
  { unfold S, surviving.
    change (fun c => negb (in_nats (conf_id c) removed))
      with (fun c => unmarked removed (energy_entry mol c)).
    rewrite <- filter_map_swap, sorted_by_energy_filter, Hs. simpl filter.
    now rewrite (proj2 (unmarked_true removed e0) He0). }
  assert (HF : Forall2 (same_entry mol1 mol)
                 (map (energy_entry mol1) (reindex 0 S))
                 (map (energy_entry mol) S)).
  { apply Forall2_map_In with (G := fun c1 c => conf_geom c1 = conf_geom c);
      [apply reindex_same_geom|].
    intros c1 c Hc1 Hc Hg. split.
    - exists c1, c. split; [now apply GetConformer_unique|].
      split; [|assumption]. apply GetConformer_unique; [assumption|].
      apply surviving_In in Hc. tauto.
    - simpl. unfold energy_val. simpl mol_struct. now rewrite Hg. }
  apply (sorted_by_energy_Forall2 _ (same_entry_energy mol1 mol)) in HF.
  rewrite HES in HF.
  inversion HF as [|e0' e0x rest' restx He0' Hrest' Eq1 Eq2]. subst e0x restx.
  exists e0', rest'. split; [simpl mol_confs; now symmetry|].
  destruct He0' as [Hc0 Hsnd0].
  assert (Hwithin : forall en, energy = Some en ->
            forall y', In y' rest' -> within_cutoff (snd e0') en y' = true).
  { intros en -> y' Hy'.
    destruct (Forall2_In_left _ _ _ _ Hrest' Hy') as (y & Hy & [_ Hsnd]).
    apply filter_In in Hy. destruct Hy as [Hy Hu].
    unfold within_cutoff. rewrite Hsnd0, Hsnd.
    exact (unmarked_within mol e0 rest en rms removed y Hsel Hy Hu). }
  rewrite select_remove_ids_unfold.
  assert (Hcut : cut_ids e0' rest' energy = []).
  { destruct energy as [en|]; [|reflexivity]. unfold cut_ids.
    rewrite filter_none; [reflexivity|]. intros y' Hy'.
    apply negb_false_iff. now apply Hwithin. }
  rewrite Hcut. destruct rms as [r|]; [|reflexivity].
  set (KS := fst e0 :: match energy with
                       | Some _ => map fst (filter (unmarked removed) rest)
                       | None => []
                       end).
  assert (Hkept : Forall2 (same_conformer mol1 mol)
                    (kept_after_cut e0' rest' energy) KS).
  { unfold kept_after_cut, KS. constructor; [assumption|].
    destruct energy as [en|]; [|constructor].
    rewrite filter_all by now apply Hwithin.
    apply Forall2_map_In with (G := same_entry mol1 mol); [assumption|].
    now intros a b _ _ [H _]. }
  assert (HKS : forall a, In a KS -> ~ In a removed).
  { intros a [<- | Ha]; [assumption|].
    destruct energy; [|contradiction].
    apply in_map_iff in Ha. destruct Ha as [y [<- Hy]].
    apply filter_In in Hy. now apply unmarked_true. }
  assert (Hsub : forall p, In p (combinations2 KS) ->
                   In p (combinations2 (kept_after_cut e0 rest energy))).
  { intros p Hp. unfold KS in Hp. unfold kept_after_cut.
    destruct energy as [en|]; [|exact Hp].
    rewrite <- (filter_filter_implied (unmarked removed)
                  (within_cutoff (snd e0) en) rest) in Hp.
    - now apply combinations2_cons_map_filter in Hp.
    - intros y Hy Hu.
      exact (unmarked_within mol e0 rest en (Some r) removed y Hsel Hy Hu). }
  destruct (rms_list_of_all_apart mol1 r
              (combinations2 (kept_after_cut e0' rest' energy)))
    as (l & -> & Hfind).
  { intros a1 b1 Hp1.
    destruct (Forall2_In_left _ _ _ _ (combinations2_Forall2 _ _ _ Hkept) Hp1)
      as ([a b] & Hp & Ca & Cb). simpl in Ca, Cb.
    rewrite (same_conformer_rms mol1 mol a1 b1 a b eq_refl Ca Cb).
    destruct (combinations2_In _ _ _ Hp) as [Ha Hb].
    apply (unmarked_pairs_apart mol e0 rest energy r removed Hsel); auto. }
  now apply rms_loop_nothing_below.
Qed.

(** On exact values, where the RMS of two conformers is the same each
    time it is measured: with distinct conformer ids and every energy
    computable, a second run of [remove_confs] with the same energy cutoff
    and rms threshold on the molecule the first run left returns that
    molecule unchanged.  With both thresholds set the second run measures
    the survivors again, after the first run has moved them
    ([GetConformerRMS]); this lemma says nothing of the values a
    floating-point measurement gives then. *)
Lemma second_run_unchanged (mol : Mol) (energy rms : option Q) :
  energies_computable mol -> unique_conf_ids mol ->
  exists mol1,
    remove_confs mol energy rms = Some (mol1, []) /\
    remove_confs mol1 energy rms = Some (mol1, []).
Proof.
  intros Hcomp Huniq.
  destruct (mol_confs mol) as [|c cs] eqn:Econfs.
  - exists mol. assert (H : remove_confs mol energy rms = Some (mol, [])).
    { unfold remove_confs. rewrite Econfs. reflexivity. }
    now split.
  - assert (Hne : mol_confs mol <> []) by (rewrite Econfs; discriminate).
    destruct (first_minimum_exists mol Hne) as (l1 & c0 & l2 & Hmin).
    destruct (first_minimum_head mol l1 c0 l2 Hmin) as [rest Hs].
    destruct (remove_confs_unique mol energy rms _ _ Hcomp Huniq Hs)
      as (removed & Hsel & Hrun).
    eexists. split; [exact Hrun|].
    destruct (second_run_selects_nothing mol energy rms _ _ _
                Hcomp Huniq Hs Hsel) as (e0' & rest' & Hs1 & Hsel1).
    set (mol1 := mkMol (mol_struct mol)
                   (reindex 0 (surviving removed (mol_confs mol)))) in *.
    assert (Hcomp1 : energies_computable mol1).
    { intros c1 Hc1. simpl in Hc1 |- *.
      destruct (Forall2_In_left _ _ _ _ (reindex_same_geom _ 0) Hc1)
        as (c' & Hc' & ->).
      apply Hcomp. apply surviving_In in Hc'. tauto. }
    assert (Huniq1 : unique_conf_ids mol1).
    { unfold unique_conf_ids. simpl. rewrite reindex_ids. apply seq_NoDup. }
    destruct (remove_confs_unique mol1 energy rms _ _ Hcomp1 Huniq1 Hs1)
      as (removed1 & Hsel1' & Hrun1).
    rewrite Hsel1 in Hsel1'. injection Hsel1' as <-.
    rewrite Hrun1. unfold mol1. simpl.
    now rewrite surviving_nil, reindex_reindex.
Qed.

End PrunerExactSecondRun.

(** ** The pruner on concrete molecules *)

Ltac toy_computable :=
  let c := fresh "c" in
  let Hc := fresh "Hc" in
  intros c Hc; vm_compute in Hc;
  repeat (destruct Hc as [<- | Hc]; [vm_compute; discriminate|]);
  contradiction.

Ltac toy_unique :=
  unfold unique_conf_ids; vm_compute;
  repeat (constructor; [simpl; intuition discriminate|]); constructor.

(** C3, evaluated where it fails: two conformers at RMS 1/10, no energy
    cutoff, rms threshold 1/2.  [kept_ids] holds the first conformer only,
    no pair is measured and both conformers are left. *)
Lemma rms_threshold_idle_without_cutoff :
  exists c1 c2,
    remove_confs (TK := Toy.toolkit)
      Toy.close_pair None (Some (1 # 2)%Q)
    = Some (@mkMol Toy.toolkit "CCO"%string [c1; c2], []) /\
    Qltb (rms_val Toy.close_pair c1 c2)
         (1 # 2)%Q = true.
Proof.
  do 2 eexists. split; vm_compute; reflexivity.
Qed.

(** The same two conformers with an energy cutoff set: the second one is
    removed. *)
Lemma rms_threshold_active_with_cutoff :
  exists c1,
    remove_confs (TK := Toy.toolkit)
      Toy.close_pair (Some 5%Q)
      (Some (1 # 2)%Q)
    = Some (@mkMol Toy.toolkit "CCO"%string [c1], []).
Proof. eexists. vm_compute. reflexivity. Qed.

(** C4, read word for word, fails: two conformers of equal energy and
    the energy cutoff 0 leave both conformers, not a single one. *)
Lemma energy_zero_keeps_ties :
  exists mol',
    remove_confs (TK := Toy.toolkit)
      Toy.tied_pair (Some 0%Q) None
    = Some (mol', []) /\
    2 <= length (mol_confs Toy.tied_pair) /\
    length (mol_confs mol') = 2 /\ length (mol_confs mol') <> 1.
Proof.
  eexists. split; [vm_compute; reflexivity|]. simpl. repeat split; lia.
Qed.

(** Three conformers, the first and the last tied at the least energy. *)
Lemma energy_zero_keeps_all_minima_witness :
  exists mol' qmin,
    remove_confs (TK := Toy.toolkit)
      Toy.tied_three (Some 0%Q) None
    = Some (mol', []) /\
    (forall c, In c (mol_confs Toy.tied_three) ->
       (qmin <= energy_val Toy.tied_three c)%Q) /\
    (exists c, In c (mol_confs Toy.tied_three) /\
       energy_val Toy.tied_three c = qmin) /\
    mol_confs mol'
    = reindex 0
        (filter (fun c => Qeq_bool
                   (energy_val Toy.tied_three c) qmin)
           (mol_confs Toy.tied_three)).
Proof.
  apply (energy_zero_keeps_all_minima (TK := Toy.toolkit)
           Toy.tied_three).
  - toy_computable.
  - toy_unique.
  - simpl. lia.
Defined.

(** Four conformers under an energy cutoff and an rms threshold. *)
Lemma pruned_ids_contiguous_witness :
  exists mol',
    remove_confs (TK := Toy.toolkit)
      Toy.four
      (Some 3%Q) (Some (1 # 2)%Q)
    = Some (mol', []) /\
    map conf_id (mol_confs mol') = seq 0 (length (mol_confs mol')).
Proof.
  apply (pruned_ids_contiguous (TK := Toy.toolkit)
           Toy.four).
  toy_computable.
Defined.

(** Among the same four conformers one of energy 1 stays. *)
Lemma min_energy_conformer_survives_witness :
  exists mol' removed c0,
    remove_confs (TK := Toy.toolkit)
      Toy.four
      (Some 3%Q) (Some (1 # 2)%Q)
    = Some (mol', []) /\
    (energy_val Toy.four c0
     == 1)%Q /\
    In c0 (surviving removed
             (mol_confs Toy.four)) /\
    mol_confs mol'
    = reindex 0 (surviving removed
                   (mol_confs Toy.four)).
Proof.
  destruct (min_energy_conformer_survives (TK := Toy.toolkit)
              Toy.four
              (Some 3%Q) (Some (1 # 2)%Q))
    as (mol' & removed & c0 & Hrun & Hconfs & Hc0 & Hleast & Hkeep & _).
  - toy_computable.
  - toy_unique.
  - discriminate.
  - exists mol', removed, c0. split; [exact Hrun|]. split; [|split; assumption].
    apply Qle_antisym.
    + apply (Hleast (@mkConformer Toy.toolkit 1 (Some 1, 1)%Q)).
      vm_compute. auto.
    + vm_compute in Hc0.
      destruct Hc0 as [<- | [<- | [<- | [<- | []]]]]; vm_compute; discriminate.
Defined.

(** ** The unit of work and the orchestrator *)

Section OrchestratorFacts.
Context {TK : Toolkit}.

Lemma gen_data_loop_total (isomers : list Mol) :
  forall i nconf energy rms seed bin_step pharm_def acc err,
    exists res,
      gen_data_loop i isomers nconf energy rms seed bin_step pharm_def acc err
      = Some res.
Proof.
  induction isomers as [|iso isomers IH]; intros; simpl; [eauto|].
  destruct (remove_confs_total (gen_conf iso nconf seed) energy rms)
    as [[mol err'] ->].
  apply IH.
Qed.

Lemma gen_data_total mol_cid nconf nstereo energy rms seed bin_step pharm_def :
  exists res,
    gen_data mol_cid nconf nstereo energy rms seed bin_step pharm_def
    = Some res.
Proof. destruct mol_cid. apply gen_data_loop_total. Qed.

(** The loop over the results touches neither files nor the pool. *)
Lemma consume_keeps_files results :
  forall i verbose w w' o,
    consume i results verbose w = (w', o) ->
    w_files w' = w_files w /\ w_fs w' = w_fs w /\ w_pool w' = w_pool w.
Proof.
  induction results as [|[[data err]|] results IH]; intros i verbose w w' o;
    cbn [consume].
  - intros H. now injection H as <- <-.
  - unfold is_empty_data. intros H. apply IH in H.
    destruct ((i mod 200 =? 0) && verbose);
      cbn [w_files w_fs w_pool put_db put_stderr put_stdout] in H; exact H.
  - intros H. now injection H as <- <-.
Qed.

Lemma consume_finished results :
  (forall r, In r results -> r <> None) ->
  forall i verbose w, snd (consume i results verbose w) = Finished.
Proof.
  induction results as [|[[data err]|] results IH]; intros Hall i verbose w;
    cbn [consume]; unfold is_empty_data.
  - reflexivity.
  - apply IH. intros r Hr. apply Hall. now right.
  - exfalso. now apply (Hall None (or_introl eq_refl)).
Qed.

Lemma string_length_append (s t : string) :
  String.length (s ++ t) = String.length s + String.length t.
Proof. induction s as [|c s IH]; simpl; [reflexivity | now rewrite IH]. Qed.

Lemma append_inj_r (s s' t : string) : (s ++ t = s' ++ t)%string -> s = s'.
Proof.
  revert s'. induction s as [|c s IH]; intros [|c' s'] H; simpl in H.
  - reflexivity.
  - exfalso. apply (f_equal String.length) in H. simpl in H.
    rewrite string_length_append in H. lia.
  - exfalso. apply (f_equal String.length) in H. simpl in H.
    rewrite string_length_append in H. lia.
  - injection H as -> H. f_equal. now apply IH.
Qed.

Lemma numbered_name_inj (root : string) (a b : nat) :
  numbered_name root a = numbered_name root b -> a = b.
Proof.
  unfold numbered_name. intros H. apply append_inj_l in H.
  apply (append_inj_l "-updated") in H. apply append_inj_r in H.
  now apply str_inj.
Qed.

Lemma free_numbered_name (root : string) (fs : list string) :
  exists k, 2 <= k < 2 + S (length fs) /\ ~ In (numbered_name root k) fs.
Proof.
  set (cands := map (numbered_name root) (seq 2 (S (length fs)))).
  destruct (forallb (fun c => in_strs c fs) cands) eqn:E.
  - exfalso.
    assert (Hnd : NoDup cands).
    { apply Finite.Injective_map_NoDup; [|apply seq_NoDup].
      intros a b. apply numbered_name_inj. }
    assert (Hincl : incl cands fs).
    { intros c Hc. rewrite forallb_forall in E. apply in_strs_In. now apply E. }
    pose proof (NoDup_incl_length Hnd Hincl) as Hlen.
    unfold cands in Hlen. rewrite length_map, length_seq in Hlen. lia.
  - apply forallb_false_ex in E. destruct E as [c [Hc Hf]].
    unfold cands in Hc. apply in_map_iff in Hc. destruct Hc as [k [<- Hk]].
    apply in_seq in Hk. exists k. split; [lia|]. now apply in_strs_not_In.
Qed.

Lemma manifest_name_loop_sound (fuel : nat) (w : World) (root : string) :
  forall cur suffix r,
    manifest_name_loop fuel w root cur suffix = Some r ->
    ~ In r (w_fs w) /\
    (r = cur \/
     (In cur (w_fs w) /\ exists k, suffix <= k /\ r = numbered_name root k /\
        forall j, suffix <= j < k -> In (numbered_name root j) (w_fs w))).
Proof.
  unfold path_exists.
  induction fuel as [|fuel IH]; intros cur suffix r; cbn [manifest_name_loop];
    unfold path_exists.
  - destruct (in_strs cur (w_fs w)) eqn:E; [discriminate|].
    intros H. injection H as <-. split; [now apply in_strs_not_In | now left].
  - destruct (in_strs cur (w_fs w)) eqn:E.
    + intros H. apply IH in H. destruct H as [Hfree Hr]. split; [assumption|].
      right. apply in_strs_In in E. split; [assumption|].
      fold (numbered_name root suffix) in Hr.
      destruct Hr as [-> | [Hin [k [Hk [-> Hmin]]]]].
      * exists suffix. split; [lia|]. split; [reflexivity|]. intros j Hj. lia.
      * exists k. split; [lia|]. split; [reflexivity|].
        intros j Hj. destruct (Nat.eq_dec j suffix) as [-> | Hne].
        -- exact Hin.
        -- apply Hmin. lia.
    + intros H. injection H as <-. split; [now apply in_strs_not_In | now left].
Qed.

Lemma manifest_name_loop_total (fuel : nat) (w : World) (root : string) :
  forall cur suffix,
    (~ In cur (w_fs w) \/
     exists k, suffix <= k < suffix + fuel /\
       ~ In (numbered_name root k) (w_fs w)) ->
    exists r, manifest_name_loop fuel w root cur suffix = Some r.
Proof.
  induction fuel as [|fuel IH]; intros cur suffix H; cbn [manifest_name_loop];
    unfold path_exists.
  - destruct H as [H | [k [Hk _]]]; [|lia].
    apply in_strs_not_In in H. rewrite H. eauto.
  - destruct (in_strs cur (w_fs w)) eqn:E; [|eauto].
    apply IH. destruct H as [H | [k [Hk Hfree]]].
    + apply in_strs_not_In in H. congruence.
    + fold (numbered_name root suffix).
      destruct (Nat.eq_dec k suffix) as [-> | Hne]; [now left|].
      right. exists k. split; [lia | assumption].
Qed.

(** The name chosen for the manifest: the first candidate that does not
    exist. *)
Lemma manifest_name_chosen (w : World) (root : string) :
  exists k,
    manifest_name_loop (S (length (w_fs w))) w root
      (root ++ "-updated.smi")%string 2
    = Some (manifest_candidate root k) /\
    1 <= k /\ ~ In (manifest_candidate root k) (w_fs w) /\
    forall j, 1 <= j < k -> In (manifest_candidate root j) (w_fs w).
Proof.
  destruct (manifest_name_loop_total (S (length (w_fs w))) w root
              (root ++ "-updated.smi")%string 2) as [r Hr].
  { right. apply free_numbered_name. }
  rewrite Hr. apply manifest_name_loop_sound in Hr.
  destruct Hr as [Hfree [-> | [Hin [k [Hk [-> Hmin]]]]]].
  - exists 1. split; [reflexivity|]. split; [lia|]. split; [assumption|].
    intros j Hj. lia.
  - exists k. assert (Ek : manifest_candidate root k = numbered_name root k).
    { unfold manifest_candidate. destruct (Nat.leb_spec k 1); [lia | reflexivity]. }
    rewrite Ek. split; [reflexivity|]. split; [lia|]. split; [assumption|].
    intros j Hj. unfold manifest_candidate.
    destruct (Nat.leb_spec j 1); [assumption|]. apply Hmin. lia.
Qed.

Lemma sum_flags_pos (flags : list bool) :
  (0 <? sum_flags flags) = true <-> In true flags.
Proof.
  rewrite Nat.ltb_lt. unfold sum_flags.
  induction flags as [|[|] flags IH]; simpl.
  - split; [lia | contradiction].
  - split; [auto | lia].
  - rewrite IH. split; [auto | intros [H | H]; [discriminate | assumption]].
Qed.

Lemma frame_rows_length (smis cids : list string) (flags : list bool) :
  length smis = length flags -> length cids = length flags ->
  length (frame_rows smis cids flags) = length flags.
Proof.
  revert smis cids. induction flags as [|f flags IH];
    intros [|s smis] [|c cids]; simpl; try discriminate; try reflexivity.
  intros H1 H2. f_equal. apply IH; lia.
Qed.

(** Lines 202-216: nothing is written without a flagged record; with one,
    one file is written under the first free candidate name. *)
Lemma write_manifest_spec (w : World) (in_fname : string)
    (smis cids : list string) (flags : list bool) :
  exists w', write_manifest w in_fname smis cids flags = Some w' /\
    w_pool w' = w_pool w /\
    ((~ In true flags /\ w_files w' = w_files w) \/
     (In true flags /\ exists k, 1 <= k /\
        w_files w'
        = w_files w
          ++ [(manifest_candidate (splitext_root in_fname) k,
               to_csv frame_columns (frame_rows smis cids flags) tab)] /\
        ~ In (manifest_candidate (splitext_root in_fname) k) (w_fs w) /\
        forall j, 1 <= j < k ->
          In (manifest_candidate (splitext_root in_fname) j) (w_fs w))).
Proof.
  unfold write_manifest.
  destruct (0 <? sum_flags flags) eqn:E.
  - apply sum_flags_pos in E.
    match goal with |- context [manifest_name_loop _ ?w1 _ _ _] =>
      destruct (manifest_name_chosen w1 (splitext_root in_fname))
        as (k & Hk & Hk1 & Hfree & Hmin) end.
    simpl w_fs in *. rewrite Hk.
    eexists. split; [reflexivity|]. split; [reflexivity|].
    right. split; [assumption|]. exists k. simpl. auto.
  - exists w. split; [reflexivity|]. split; [reflexivity|]. left.
    split; [|reflexivity]. intros H. apply sum_flags_pos in H. congruence.
Qed.

End OrchestratorFacts.

Section OrchestratorClaims.
Context {TK : Toolkit}.

Lemma finally_close_files (verbose : bool) (w : World) :
  w_files (finally_close verbose w) = w_files w.
Proof. now destruct verbose. Qed.


(** C8: a run of [create_db] on an output name ending in ".dat" that does
    not exist yet, with the pool handing back every result, finishes;
    it writes the manifest exactly when the deduplicator flagged a record.
    The manifest is one file: a header line "smi", "cid", "if_changed"
    separated by tabs, then one tab-separated line per input record; its
    name is the input name without extension followed by "-updated.smi",
    or by "-updated2.smi", "-updated3.smi", ...: the first of these that
    does not exist. *)
Theorem manifest_written_iff_altered (w : World) (in_fname out_fname : string)
    (nconf nstereo : Z) (energy rms : option Q) (ncpu bin_step : Z)
    (pharm_def : option string) (seed : Z) (verbose : bool) :
  endswith (lower out_fname) ".dat" = true ->
  path_exists w out_fname = false ->
  (forall (A : Type) (l : list A), Permutation (completion_order A l) l) ->
  exists bx w',
    check_dupl_input in_fname = Some bx /\
    create_db w in_fname out_fname nconf nstereo energy rms ncpu bin_step
              pharm_def seed verbose = (w', Finished) /\
    ((~ In true (box_flags bx) /\ w_files w' = w_files w) \/
     (In true (box_flags bx) /\ exists k, 1 <= k /\
        w_files w'
        = w_files w
          ++ [(manifest_candidate (splitext_root in_fname) k,
               ("smi" ++ tab ++ "cid" ++ tab ++ "if_changed")%string
               :: map (String.concat tab)
                    (frame_rows (box_smi bx) (box_mol_ids bx) (box_flags bx)))] /\
        length (frame_rows (box_smi bx) (box_mol_ids bx) (box_flags bx))
        = length (read_input in_fname) /\
        ~ In (manifest_candidate (splitext_root in_fname) k)
             (out_fname :: w_fs w) /\
        forall j, 1 <= j < k ->
          In (manifest_candidate (splitext_root in_fname) j)
             (out_fname :: w_fs w))).
Proof.
  intros Hdat Hnew Hperm.
  destruct (check_dupl_loop_total (input_records in_fname) empty_boxes)
    as [bx Hbx].
  assert (Hcheck : check_dupl_input in_fname = Some bx) by exact Hbx.
  destruct (check_dupl_records_lengths _ _ Hbx) as (L1 & L2 & L3 & L4).
  unfold input_records in L1, L2, L3, L4. rewrite length_map in L1, L2, L3, L4.
  exists bx. unfold create_db.
  set (w0 := if verbose then put_stdout w _ else w).
  assert (E0 : w_files w0 = w_files w /\ w_fs w0 = w_fs w)
    by (unfold w0; now destruct verbose).
  destruct E0 as [E0 F0].
  rewrite Hdat. unfold DB_new.
  assert (Hnew0 : path_exists w0 out_fname = false)
    by (unfold path_exists in *; now rewrite F0).
  rewrite Hnew0, Hcheck.
  match goal with |- context [consume 1 ?rs verbose ?w1] =>
    destruct (consume 1 rs verbose w1) as [w3 o] eqn:Ec;
    assert (Ho : snd (consume 1 rs verbose w1) = Finished) end.
  { apply consume_finished. intros r Hr.
    apply (Permutation_in _ (Hperm _ _)) in Hr.
    apply in_map_iff in Hr. destruct Hr as [u [<- _]].
    destruct (gen_data_total u nconf nstereo energy rms seed bin_step pharm_def)
      as [res ->]. discriminate. }
  rewrite Ec in Ho. simpl in Ho. subst o.
  apply consume_keeps_files in Ec. destruct Ec as (Ef & Efs & _).
  cbn [w_files w_fs set_pool put_stdout put_stderr put_db] in Ef, Efs.
  destruct (write_manifest_spec w3 in_fname (box_smi bx) (box_mol_ids bx)
              (box_flags bx)) as (w4 & -> & _ & Hcases).
  eexists. split; [reflexivity|]. split; [reflexivity|].
  rewrite finally_close_files.
  destruct Hcases as [[Hno Hf] | [Hyes (k & Hk & Hf & Hfree & Hmin)]].
  - left. split; [assumption|]. congruence.
  - right. split; [assumption|]. exists k. split; [assumption|].
    rewrite Efs, F0 in Hfree, Hmin. rewrite Hf, Ef, E0.
    split; [reflexivity|]. split; [|split; assumption].
    rewrite frame_rows_length; lia.
Qed.

End OrchestratorClaims.

(** A run on three records, one dropped and one renamed. *)
Lemma manifest_written_iff_altered_witness :
  exists w',
    create_db (TK := Toy.toolkit) Toy.world0 "in.smi" "db.dat" 2 1 None None 1 1
              None (-1) false = (w', Finished) /\
    w_files w'
    = [("in-updated.smi"%string,
        [("smi" ++ tab ++ "cid" ++ tab ++ "if_changed")%string;
         ("CCO" ++ tab ++ "A" ++ tab ++ "False")%string;
         ("duplicate" ++ tab ++ "B" ++ tab ++ "True")%string;
         ("CCN" ++ tab ++ "A#1" ++ tab ++ "True")%string])].
Proof.
  destruct (manifest_written_iff_altered (TK := Toy.toolkit) Toy.world0
              "in.smi" "db.dat" 2 1 None None 1 1 None (-1) false)
    as (bx & w' & Hbx & Hrun & Hcases).
  - vm_compute. reflexivity.
  - vm_compute. reflexivity.
  - intros A l. apply Permutation_refl.
  - exists w'. split; [exact Hrun|].
    vm_compute in Hrun. injection Hrun as <-. reflexivity.
Defined.

(** The run above with the manifest name taken: the next free name is
    used. *)
Lemma manifest_name_numbered :
  exists w',
    create_db (TK := Toy.toolkit)
      (@mkWorld Toy.toolkit ["in-updated.smi"%string; "in-updated2.smi"%string]
                [] [] [] [] None)
      "in.smi" "db.dat" 2 1 None None 1 1 None (-1) false = (w', Finished) /\
    map fst (w_files w') = ["in-updated3.smi"%string].
Proof. eexists. split; vm_compute; reflexivity. Qed.

(** A run whose input has no duplicate writes no manifest. *)
Lemma manifest_not_written :
  exists w',
    create_db (TK := Toy.toolkit) Toy.world0 "clean.smi" "db.dat" 2 1 None None
              1 1 None (-1) false = (w', Finished) /\
    w_files w' = [].
Proof. eexists. split; vm_compute; reflexivity. Qed.


(** ** What the pipeline hands to the pruner, and the two failures *)

Section PipelineFacts.
Context {TK : Toolkit}.

Lemma conformers_from_ids (geoms : list Geom) :
  forall i, map conf_id (conformers_from i geoms) = seq i (length geoms).
Proof.
  induction geoms as [|g geoms IH]; intros i; simpl; [reflexivity|].
  now rewrite IH.
Qed.

(** The molecules [gen_conf] returns have pairwise distinct conformer
    ids. *)
Lemma gen_conf_unique_ids (mol : Mol) (num_confs seed : Z) :
  unique_conf_ids (gen_conf mol num_confs seed).
Proof.
  unfold unique_conf_ids, gen_conf. simpl.
  rewrite conformers_from_ids. apply seq_NoDup.
Qed.

(** Without an energy cutoff the rms threshold removes nothing, whatever
    the RMS values are. *)
Lemma rms_ignored_without_cutoff (mol : Mol) (r : Q) :
  energies_computable mol -> unique_conf_ids mol ->
  remove_confs mol None (Some r)
  = Some (mkMol (mol_struct mol) (reindex 0 (mol_confs mol)), []).
Proof.
  intros Hcomp Huniq.
  destruct (mol_confs mol) as [|c cs] eqn:Econfs.
  - unfold remove_confs. rewrite Econfs. simpl. destruct mol. simpl in *.
    now subst.
  - assert (Hne : mol_confs mol <> []) by (rewrite Econfs; discriminate).
    destruct (first_minimum_exists mol Hne) as (l1 & c0 & l2 & Hmin).
    destruct (first_minimum_head mol l1 c0 l2 Hmin) as [rest Hs].
    destruct (remove_confs_unique mol None (Some r) _ _ Hcomp Huniq Hs)
      as (removed & Hsel & Hrun).
    rewrite select_remove_ids_unfold in Hsel. simpl in Hsel.
    injection Hsel as <-.
    rewrite Hrun, surviving_nil, Econfs. reflexivity.
Qed.

(** A variant without force field is stored as it was generated. *)
Lemma gen_data_keeps_failed_variant (mol iso : Mol) (mol_name : string)
    (nconf nstereo : Z) (energy rms : option Q) (seed bin_step : Z)
    (pharm_def : option string) :
  gen_stereo mol nstereo = [iso] ->
  (exists c, In c (mol_confs (gen_conf iso nconf seed)) /\
     mmff_energy (mol_struct (gen_conf iso nconf seed)) (conf_geom c) = None) ->
  gen_data (mol, mol_name) nconf nstereo energy rms seed bin_step pharm_def
  = Some (mkUnitData mol_name
            [(0, gen_conf iso nconf seed)]
            [(0, map get_feature_coords
                   (load_multi_conf_mol (gen_conf iso nconf seed)
                      pharm_def bin_step))]
            [(0, map get_fp
                   (load_multi_conf_mol (gen_conf iso nconf seed)
                      pharm_def bin_step))],
          [stderr_ff_none (gen_conf iso nconf seed)]).
Proof.
  intros Hiso Hnone. unfold gen_data. rewrite Hiso. cbn [gen_data_loop].
  rewrite (remove_confs_ff_none _ energy rms
             (gen_conf_unique_ids iso nconf seed) Hnone).
  reflexivity.
Qed.

End PipelineFacts.

(** Of two conformers tied at the least energy the first is the one that
    is sure to stay: here the second is closer than the threshold and is
    removed. *)
Lemma tied_minimum_second_removed :
  exists c1,
    remove_confs (TK := Toy.toolkit) Toy.tied_pair (Some 0%Q) (Some 2%Q)
    = Some (@mkMol Toy.toolkit "CCO"%string [c1], []) /\
    conf_geom c1 = (Some 1%Q, 0%Q).
Proof. eexists. split; vm_compute; reflexivity. Qed.

(** C2, evaluated where it fails: the only variant of molecule "M" has no
    force field.  [remove_confs] writes the diagnostic and returns,
    [gen_data] goes on with the variant as generated, and [create_db]
    stores it: the run finishes with the three entries for "M" in the
    record store. *)
Lemma ff_failure_still_stored :
  exists w',
    create_db (TK := Toy.toolkit) Toy.world0 "bad.smi" "db.dat" 2 1 None None
              1 1 None (-1) false = (w', Finished) /\
    w_stderr w' = [stderr_ff_none (Toy.mol "bad" [(None, 0); (None, 1)]%Q)] /\
    w_db w'
    = [write_bin_step 1;
       write_mol "M" [(0, Toy.mol "bad" [(None, 0); (None, 1)]%Q)];
       write_pharm "M" [(0, Toy.coords [0; 1]%Q)];
       write_fp "M" [(0, Toy.fps [false; false])]].
Proof. eexists. repeat split; vm_compute; reflexivity. Qed.

(** * Further properties *)

(** ** The deduplicator: what the four lists hold *)

Section DeduplicatorOutput.
Context {TK : Toolkit}.

(** The run on a longer input extends the lists of the run on a prefix. *)
Lemma check_dupl_prefix_extends (pre rest : list (Mol * string)) (st out : boxes) :
  check_dupl_records pre = Some st ->
  check_dupl_records (pre ++ rest) = Some out ->
  exists ms ss ids fs,
    box_mols out = box_mols st ++ ms /\ box_smi out = box_smi st ++ ss /\
    box_mol_ids out = box_mol_ids st ++ ids /\
    box_flags out = box_flags st ++ fs.
Proof.
  unfold check_dupl_records. intros Hpre Hrun.
  rewrite check_dupl_loop_app, Hpre in Hrun.
  apply check_dupl_loop_extends in Hrun.
  destruct Hrun as (ms & ss & ids & fs & E1 & E2 & E3 & E4 & _).
  exists ms, ss, ids, fs. auto.
Qed.

(** What the run leaves at the position of a record, in terms of the
    state the loop was in when it reached the record. *)
Lemma check_dupl_at (records : list (Mol * string)) (i : nat)
    (mol : Mol) (mol_name : string) :
  nth_error records i = Some (mol, mol_name) ->
  exists pre post st out entry smi id flag,
    records = pre ++ (mol, mol_name) :: post /\ length pre = i /\
    check_dupl_records pre = Some st /\
    check_dupl_records records = Some out /\
    appended st mol mol_name entry smi id flag /\
    nth_error (box_mols out) i = Some entry /\
    nth_error (box_smi out) i = Some smi /\
    nth_error (box_mol_ids out) i = Some id /\
    nth_error (box_flags out) i = Some flag.
Proof.
  intros Hi. apply nth_error_split in Hi. destruct Hi as (pre & post & -> & Hlen).
  destruct (check_dupl_loop_total pre empty_boxes) as [st Hst].
  destruct (check_dupl_after_prefix pre mol mol_name post st Hst)
    as (entry & smi & id & flag & out & Happ & Hrun & H1 & H2 & H3 & H4).
  rewrite Hlen in H1, H2, H3, H4.
  exists pre, post, st, out, entry, smi, id, flag. auto 12.
Qed.

(** X1: for every input the deduplicator returns four lists of the length
    of the input: structures, SMILES, identifiers and flags stay
    parallel. *)
Theorem check_dupl_parallel_lists (records : list (Mol * string)) :
  exists out, check_dupl_records records = Some out /\
    length (box_mols out) = length records /\
    length (box_smi out) = length records /\
    length (box_mol_ids out) = length records /\
    length (box_flags out) = length records.
Proof.
  destruct (check_dupl_loop_total records empty_boxes) as [out Hout].
  exists out. split; [exact Hout|]. now apply check_dupl_records_lengths.
Qed.

(** The SMILES seen so far are those of the records read so far. *)
Lemma seen_smiles (pre : list (Mol * string)) :
  forall st, check_dupl_records pre = Some st ->
    forall s, s <> "duplicate"%string ->
      (In s (box_smi st) <-> In s (record_smiles pre)).
Proof.
  induction pre as [|[mol mol_name] pre IH] using rev_ind; intros st Hst s Hs.
  - injection Hst as <-. reflexivity.
  - destruct (check_dupl_loop_total pre empty_boxes) as [st0 Hst0].
    unfold check_dupl_records in *.
    rewrite check_dupl_loop_app, Hst0 in Hst. cbn [check_dupl_loop] in Hst.
    destruct (check_dupl_step_spec st0 mol mol_name)
      as (entry & smi & id & flag & o & Hstep & Happ).
    rewrite Hstep in Hst. injection Hst as <-. cbn [box_smi].
    unfold record_smiles. rewrite map_app, !in_app_iff.
    fold (record_smiles pre). rewrite (IH st0 Hst0 s Hs). simpl.
    destruct Happ as [Hdup | k Hnew _ _ _ _ | Hnew _].
    + split; [intros [H | [H | []]]; [now left | congruence]|].
      intros [H | [<- | []]]; [now left|]. left.
      now apply (IH st0 Hst0 _ Hs).
    + tauto.
    + tauto.
Qed.

(** X2: when no record has the SMILES "duplicate", a record is dropped
    exactly when an earlier record has its canonical SMILES; otherwise its
    own molecule is kept at its position.  The first occurrence of a
    structure is never dropped. *)
Theorem dropped_iff_seen_before (pre post : list (Mol * string))
    (mol : Mol) (mol_name : string) :
  (forall r, In r (pre ++ (mol, mol_name) :: post) ->
     MolToSmiles (fst r) <> "duplicate"%string) ->
  exists out,
    check_dupl_records (pre ++ (mol, mol_name) :: post) = Some out /\
    (In (MolToSmiles mol) (record_smiles pre) ->
     nth_error (box_mols out) (length pre) = Some DuplicateMark /\
     nth_error (box_smi out) (length pre) = Some "duplicate"%string) /\
    (~ In (MolToSmiles mol) (record_smiles pre) ->
     nth_error (box_mols out) (length pre) = Some (MolObj mol) /\
     nth_error (box_smi out) (length pre) = Some (MolToSmiles mol)).
Proof.
  intros Hnodup.
  destruct (check_dupl_loop_total pre empty_boxes) as [st Hst].
  destruct (check_dupl_after_prefix pre mol mol_name post st Hst)
    as (entry & smi & id & flag & out & Happ & Hrun & H1 & H2 & _).
  assert (Hmol : MolToSmiles mol <> "duplicate"%string).
  { apply (Hnodup (mol, mol_name)). apply in_or_app. right. now left. }
  pose proof (seen_smiles pre st Hst _ Hmol) as Hseen.
  exists out. split; [exact Hrun|].
  destruct Happ as [Hdup | k Hnew _ _ _ _ | Hnew _]; split; intros H;
    try (split; assumption); exfalso; tauto.
Qed.

(** X3: two records that were both kept never share a canonical SMILES,
    and the SMILES stored for a kept record is that of its molecule. *)
Theorem kept_structures_distinct (records : list (Mol * string)) :
  exists out, check_dupl_records records = Some out /\
    (forall i m, nth_error (box_mols out) i = Some (MolObj m) ->
       nth_error (box_smi out) i = Some (MolToSmiles m)) /\
    (forall i j mi mj, i <> j ->
       nth_error (box_mols out) i = Some (MolObj mi) ->
       nth_error (box_mols out) j = Some (MolObj mj) ->
       MolToSmiles mi <> MolToSmiles mj).
Proof.
  destruct (check_dupl_loop_total records empty_boxes) as [out Hout].
  change (check_dupl_records records = Some out) in Hout.
  destruct (check_dupl_records_lengths _ _ Hout) as (L1 & L2 & L3 & L4).
  exists out. split; [exact Hout|].
  assert (Hat : forall i m, nth_error (box_mols out) i = Some (MolObj m) ->
            exists pre post st mol_name,
              records = pre ++ (m, mol_name) :: post /\ length pre = i /\
              check_dupl_records pre = Some st /\
              ~ In (MolToSmiles m) (box_smi st) /\
              nth_error (box_smi out) i = Some (MolToSmiles m)).
  { intros i m Hm.
    assert (Hi : i < length records).
    { rewrite <- L1. apply nth_error_Some. congruence. }
    destruct (nth_error records i) as [[mol mol_name]|] eqn:Er;
      [|apply nth_error_None in Er; lia].
    destruct (check_dupl_at records i mol mol_name Er)
      as (pre & post & st & out' & entry & smi & id & flag & E & Hlen & Hst
          & Hrun & Happ & H1 & H2 & _).
    rewrite Hout in Hrun. injection Hrun as <-.
    rewrite Hm in H1. injection H1 as H1.
    exists pre, post, st, mol_name.
    destruct Happ as [Hdup | k Hnew _ _ _ _ | Hnew _];
      [discriminate | |]; injection H1 as ->; auto 6. }
  split.
  - intros i m Hm. destruct (Hat i m Hm) as (_ & _ & _ & _ & _ & _ & _ & _ & H).
    exact H.
  - assert (Hlt : forall i j mi mj, i < j ->
              nth_error (box_mols out) i = Some (MolObj mi) ->
              nth_error (box_mols out) j = Some (MolObj mj) ->
              MolToSmiles mi <> MolToSmiles mj).
    { intros i j mi mj Hij Hmi Hmj Heq.
      destruct (Hat i mi Hmi) as (_ & _ & _ & _ & _ & _ & _ & _ & Hsi).
      destruct (Hat j mj Hmj) as (pre & post & st & nm & E & Hlen & Hst & Hnew & _).
      rewrite E in Hout.
      destruct (check_dupl_prefix_extends pre _ st out Hst Hout)
        as (ms & ss & ids & fs & _ & E2 & _).
      destruct (check_dupl_records_lengths _ _ Hst) as (_ & Ls & _).
      rewrite E2, nth_error_app1 in Hsi by lia.
      apply nth_error_In in Hsi. apply Hnew. now rewrite <- Heq. }
    intros i j mi mj Hne Hmi Hmj.
    destruct (Nat.lt_gt_cases i j) as [Hc _]. destruct (Hc Hne) as [H | H].
    + now apply (Hlt i j).
    + intros Heq. symmetry in Heq. revert Heq. now apply (Hlt j i).
Qed.

End DeduplicatorOutput.

Section DeduplicatorFlags.
Context {TK : Toolkit}.

(** X4: the flag of a record is False exactly when the record went
    through unchanged: its molecule was kept and its identifier is the
    one it came with.  A dropped or a renamed record has the flag True. *)
Theorem flag_false_iff_unchanged (records : list (Mol * string)) :
  exists out, check_dupl_records records = Some out /\
    forall i mol mol_name, nth_error records i = Some (mol, mol_name) ->
      exists flag, nth_error (box_flags out) i = Some flag /\
        (flag = false <->
         nth_error (box_mols out) i = Some (MolObj mol) /\
         nth_error (box_mol_ids out) i = Some mol_name).
Proof.
  destruct (check_dupl_loop_total records empty_boxes) as [out Hout].
  exists out. split; [exact Hout|]. intros i mol mol_name Hi.
  destruct (check_dupl_at records i mol mol_name Hi)
    as (pre & post & st & out' & entry & smi & id & flag & E & Hlen & Hst
        & Hrun & Happ & H1 & H2 & H3 & H4).
  unfold check_dupl_records in Hrun. rewrite Hout in Hrun.
  injection Hrun as <-. exists flag. split; [exact H4|].
  rewrite H1, H3.
  destruct Happ as [Hdup | k Hnew Hin Hk Hfree Hmin | Hnew Hnin].
  - split; [discriminate | intros [H _]; discriminate].
  - split; [discriminate|]. intros [_ H]. injection H as H.
    exfalso. apply Hfree. now rewrite H.
  - split; auto.
Qed.

Lemma distinct_names_ids (records : list (Mol * string)) :
  NoDup (map snd records) ->
  forall out, check_dupl_records records = Some out ->
    box_mol_ids out = map snd records.
Proof.
  induction records as [|[mol mol_name] pre IH] using rev_ind;
    intros Hnd out Hout.
  - now injection Hout as <-.
  - rewrite map_app in Hnd. simpl in Hnd.
    destruct (check_dupl_loop_total pre empty_boxes) as [st Hst].
    specialize (IH (NoDup_app_remove_r _ _ Hnd) st Hst).
    unfold check_dupl_records in *.
    rewrite check_dupl_loop_app, Hst in Hout. cbn [check_dupl_loop] in Hout.
    destruct (check_dupl_step_spec st mol mol_name)
      as (entry & smi & id & flag & o & Hstep & Happ).
    rewrite Hstep in Hout. injection Hout as <-. cbn [box_mol_ids].
    rewrite map_app, IH. simpl. f_equal.
    destruct Happ as [Hdup | k Hnew Hin Hk Hfree Hmin | Hnew Hnin];
      try reflexivity.
    exfalso. rewrite IH in Hin.
    apply NoDup_remove_2 in Hnd. apply Hnd. rewrite app_nil_r. exact Hin.
Qed.

(** X5: when the identifiers of the input are pairwise distinct, none is
    changed: the output identifiers are the input identifiers, and a flag
    is True only for a dropped structural duplicate. *)
Theorem distinct_names_pass_through (records : list (Mol * string)) :
  NoDup (map snd records) ->
  exists out, check_dupl_records records = Some out /\
    box_mol_ids out = map snd records /\
    forall i, nth_error (box_flags out) i = Some true <->
              nth_error (box_mols out) i = Some DuplicateMark.
Proof.
  intros Hnd.
  destruct (check_dupl_loop_total records empty_boxes) as [out Hout].
  change (check_dupl_records records = Some out) in Hout.
  destruct (check_dupl_records_lengths _ _ Hout) as (L1 & _ & _ & L4).
  exists out. split; [exact Hout|].
  pose proof (distinct_names_ids records Hnd out Hout) as Hids.
  split; [exact Hids|]. intros i.
  destruct (nth_error records i) as [[mol mol_name]|] eqn:Er.
  - destruct (check_dupl_at records i mol mol_name Er)
      as (pre & post & st & out' & entry & smi & id & flag & E & Hlen & Hst
          & Hrun & Happ & H1 & H2 & H3 & H4).
    rewrite Hout in Hrun. injection Hrun as <-. rewrite H1, H4.
    destruct Happ as [Hdup | k Hnew Hin Hk Hfree Hmin | Hnew Hnin].
    + tauto.
    + exfalso. rewrite E, map_app in Hnd. simpl in Hnd.
      pose proof (NoDup_app_remove_r _ _ Hnd) as Hpre.
      apply NoDup_remove_2 in Hnd. apply Hnd. apply in_or_app. left.
      now rewrite <- (distinct_names_ids pre Hpre st Hst).
    + split; discriminate.
  - apply nth_error_None in Er.
    assert (E1 : nth_error (box_flags out) i = None)
      by (apply nth_error_None; lia).
    assert (E2 : nth_error (box_mols out) i = None)
      by (apply nth_error_None; lia).
    rewrite E1, E2. split; discriminate.
Qed.

(** *** What is handed to the workers *)

Lemma get_mol_app (l l' : list (mol_entry * string)) :
  get_mol (l ++ l') = get_mol l ++ get_mol l'.
Proof.
  induction l as [|[[m|] n] l IH]; simpl; [reflexivity | | assumption].
  now rewrite IH.
Qed.

Lemma get_mol_In (l : list (mol_entry * string)) (m : Mol) (n : string) :
  In (m, n) (get_mol l) <-> In (MolObj m, n) l.
Proof.
  induction l as [|[[m'|] n'] l IH]; simpl; [tauto | |].
  - rewrite IH. split; intros [H | H]; auto; left; congruence.
  - rewrite IH. split; [auto | intros [H | H]; [discriminate | assumption]].
Qed.

Lemma combine_snoc {A B : Type} (l1 : list A) (l2 : list B) (a : A) (b : B) :
  length l1 = length l2 ->
  combine (l1 ++ [a]) (l2 ++ [b]) = combine l1 l2 ++ [(a, b)].
Proof.
  revert l2. induction l1 as [|x l1 IH]; intros [|y l2] H; simpl in *;
    try discriminate; [reflexivity|].
  f_equal. apply IH. lia.
Qed.

Lemma In_combine_nth {A B : Type} (l1 : list A) (l2 : list B) (a : A) (b : B) :
  In (a, b) (combine l1 l2) <->
  exists i, nth_error l1 i = Some a /\ nth_error l2 i = Some b.
Proof.
  revert l2. induction l1 as [|x l1 IH]; intros [|y l2]; simpl.
  - split; [contradiction | intros [[|i] [H _]]; discriminate].
  - split; [contradiction | intros [[|i] [H _]]; discriminate].
  - split; [contradiction | intros [[|i] [_ H]]; discriminate].
  - rewrite IH. split.
    + intros [H | [i Hi]]; [injection H as -> ->; now exists 0 | now exists (S i)].
    + intros [[|i] [Ha Hb]]; simpl in *.
      * left. congruence.
      * right. eauto.
Qed.

Lemma NoDup_snoc {A : Type} (l : list A) (x : A) :
  NoDup l -> ~ In x l -> NoDup (l ++ [x]).
Proof.
  intros Hnd Hx. apply NoDup_rev in Hnd.
  rewrite <- (rev_involutive (l ++ [x])). apply NoDup_rev.
  rewrite rev_app_distr. simpl. constructor; [|assumption].
  now rewrite <- in_rev.
Qed.

Lemma units_names_NoDup (records : list (Mol * string)) :
  forall out, check_dupl_records records = Some out ->
    NoDup (map snd (get_mol (combine (box_mols out) (box_mol_ids out)))) /\
    incl (map snd (get_mol (combine (box_mols out) (box_mol_ids out))))
         (box_mol_ids out).
Proof.
  induction records as [|[mol mol_name] pre IH] using rev_ind; intros out Hout.
  - injection Hout as <-. simpl. split; [constructor | intros x []].
  - destruct (check_dupl_loop_total pre empty_boxes) as [st Hst].
    destruct (IH st Hst) as [Hnd Hincl].
    destruct (check_dupl_records_lengths _ _ Hst) as (L1 & _ & L3 & _).
    unfold check_dupl_records in *.
    rewrite check_dupl_loop_app, Hst in Hout. cbn [check_dupl_loop] in Hout.
    destruct (check_dupl_step_spec st mol mol_name)
      as (entry & smi & id & flag & o & Hstep & Happ).
    rewrite Hstep in Hout. injection Hout as <-. cbn [box_mols box_mol_ids].
    rewrite combine_snoc by lia. rewrite get_mol_app, map_app.
    destruct Happ as [Hdup | k Hnew Hin Hk Hfree Hmin | Hnew Hnin]; simpl.
    + rewrite app_nil_r. split; [assumption|].
      intros x Hx. apply in_or_app. left. now apply Hincl.
    + split; [apply NoDup_snoc; auto|].
      intros x Hx. apply in_app_or in Hx. apply in_or_app.
      destruct Hx as [Hx | Hx]; [left; now apply Hincl | now right].
    + split; [apply NoDup_snoc; auto|].
      intros x Hx. apply in_app_or in Hx. apply in_or_app.
      destruct Hx as [Hx | Hx]; [left; now apply Hincl | now right].
Qed.

(** X6: the work units [get_mol] yields from the deduplicated lists are
    the kept molecules with their final identifiers, and no two units
    have the same identifier. *)
Theorem units_identifiers_distinct (records : list (Mol * string)) :
  exists out, check_dupl_records records = Some out /\
    NoDup (map snd (get_mol (combine (box_mols out) (box_mol_ids out)))) /\
    forall m n,
      In (m, n) (get_mol (combine (box_mols out) (box_mol_ids out))) <->
      exists i, nth_error (box_mols out) i = Some (MolObj m) /\
                nth_error (box_mol_ids out) i = Some n.
Proof.
  destruct (check_dupl_loop_total records empty_boxes) as [out Hout].
  exists out. split; [exact Hout|].
  split; [now apply (units_names_NoDup records)|].
  intros m n. rewrite get_mol_In. apply In_combine_nth.
Qed.

End DeduplicatorFlags.

(** Three records, the second a repeat of the first structure. *)
Lemma dropped_iff_seen_before_witness :
  exists out,
    check_dupl_records (TK := Toy.toolkit)
      ([(Toy.mol "CCO" [], "A"%string)]
       ++ (Toy.mol "CCO" [], "B"%string) :: [(Toy.mol "CCN" [], "C"%string)])
    = Some out /\
    nth_error (box_mols out) 1 = Some DuplicateMark /\
    nth_error (box_smi out) 1 = Some "duplicate"%string.
Proof.
  destruct (dropped_iff_seen_before (TK := Toy.toolkit)
              [(Toy.mol "CCO" [], "A"%string)]
              [(Toy.mol "CCN" [], "C"%string)] (Toy.mol "CCO" []) "B"%string)
    as (out & Hrun & Hseen & _).
  - intros r Hr. vm_compute in Hr.
    destruct Hr as [<- | [<- | [<- | []]]]; vm_compute; discriminate.
  - exists out. split; [exact Hrun|]. apply Hseen. vm_compute. auto.
Defined.

(** Three records of distinct names, the last a structural duplicate. *)
Lemma distinct_names_pass_through_witness :
  exists out,
    check_dupl_records (TK := Toy.toolkit)
      [(Toy.mol "CCO" [], "A"%string); (Toy.mol "CCN" [], "B"%string);
       (Toy.mol "CCO" [], "C"%string)] = Some out /\
    box_mol_ids out = ["A"%string; "B"%string; "C"%string].
Proof.
  destruct (distinct_names_pass_through (TK := Toy.toolkit)
              [(Toy.mol "CCO" [], "A"%string); (Toy.mol "CCN" [], "B"%string);
               (Toy.mol "CCO" [], "C"%string)])
    as (out & Hrun & Hids & _).
  - simpl. repeat (constructor; [simpl; intuition discriminate|]). constructor.
  - exists out. split; [exact Hrun | exact Hids].
Defined.

(** ** The conformer pruner: settings at the edges *)

Section PrunerSettings.
Context {TK : Toolkit}.

(** X7: with neither an energy cutoff nor an rms threshold, and every
    energy computable, [remove_confs] removes nothing: the conformers stay
    as they are, in storage order, renumbered from 0. *)
Theorem no_thresholds_no_pruning (mol : Mol) :
  energies_computable mol ->
  remove_confs mol None None
  = Some (mkMol (mol_struct mol) (reindex 0 (mol_confs mol)), []).
Proof.
  intros Hcomp. unfold remove_confs.
  destruct (energy_loop_ids mol (mol_confs mol) Hcomp [] (incl_refl _))
    as (e & -> & He). simpl in He.
  destruct (sorted_by_energy e) as [|e0 rest] eqn:Es.
  - pose proof (sorted_by_energy_perm e) as Hp. rewrite Es in Hp.
    apply Permutation_nil in Hp. subst e. simpl in He.
    symmetry in He. apply map_eq_nil in He. destruct mol as [s confs].
    simpl in *. now subst.
  - reflexivity.
Qed.

Lemma within_cutoff_entry (mol : Mol) (c c0 : Conformer) (en : Q) :
  within_cutoff (snd (energy_entry mol c0)) en (energy_entry mol c)
  = Qle_bool (energy_val mol c - energy_val mol c0)%Q en.
Proof. reflexivity. Qed.

(** X8: with a non-negative energy cutoff and no rms threshold the
    conformers left are exactly those whose energy exceeds the least
    energy by at most the cutoff, in storage order. *)
Theorem energy_cutoff_keeps_within (mol : Mol) (en : Q) :
  energies_computable mol -> unique_conf_ids mol -> mol_confs mol <> [] ->
  (0 <= en)%Q ->
  exists mol' qmin,
    remove_confs mol (Some en) None = Some (mol', []) /\
    (forall c, In c (mol_confs mol) -> (qmin <= energy_val mol c)%Q) /\
    (exists c, In c (mol_confs mol) /\ energy_val mol c = qmin) /\
    mol_confs mol'
    = reindex 0 (filter (fun c => Qle_bool (energy_val mol c - qmin)%Q en)
                        (mol_confs mol)).
Proof.
  intros Hcomp Huniq Hne Hen.
  destruct (first_minimum_exists mol Hne) as (l1 & c0 & l2 & Hmin).
  destruct (first_minimum_head mol l1 c0 l2 Hmin) as [rest Hs].
  destruct (first_minimum_least mol l1 c0 l2 Hmin) as [Hc0 Hleast].
  destruct (remove_confs_unique mol (Some en) None _ _ Hcomp Huniq Hs)
    as (removed & Hsel & Hrun).
  rewrite select_remove_ids_unfold in Hsel. injection Hsel as <-.
  eexists. exists (energy_val mol c0). split; [exact Hrun|].
  split; [assumption|]. split; [eauto|]. simpl mol_confs. f_equal.
  apply filter_ext_in. intros c Hc.
  assert (He0 : within_cutoff (snd (energy_entry mol c0)) en
                  (energy_entry mol c0) = true).
  { unfold within_cutoff. apply Qle_bool_iff. simpl. lra. }
  pose proof (cut_ids_In mol c _ rest en Huniq Hs Hc He0) as Hiff.
  rewrite within_cutoff_entry in Hiff.
  apply eq_true_iff_eq. rewrite negb_true_iff.
  rewrite <- not_true_iff_false, in_nats_In, Hiff.
  destruct (Qle_bool (energy_val mol c - energy_val mol c0) en);
    intuition congruence.
Qed.

Lemma rest_entries (mol : Mol) (c0 : Conformer) (rest : list (nat * Q)) :
  unique_conf_ids mol ->
  sorted_by_energy (map (energy_entry mol) (mol_confs mol))
  = energy_entry mol c0 :: rest ->
  forall c, In c (mol_confs mol) ->
    (conf_id c = conf_id c0 /\ ~ In (conf_id c) (map fst rest)) \/
    (conf_id c <> conf_id c0 /\ In (energy_entry mol c) rest).
Proof.
  intros Huniq Hs c Hc.
  pose proof (sorted_entries_NoDup mol Huniq) as Hnd. rewrite Hs in Hnd.
  simpl in Hnd. inversion Hnd as [|? ? Hnotin Hnd']; subst.
  destruct (entry_in_sorted mol c _ rest Hs Hc) as [E | Hin].
  - left. injection E as E _. rewrite <- E. auto.
  - right. split; [|assumption]. intros E. apply Hnotin. rewrite <- E.
    change (conf_id c) with (fst (energy_entry mol c)). now apply in_map.
Qed.

(** X9: with a negative energy cutoff, whatever the rms threshold, only
    the conformer of least energy is left (the first one in storage order
    among several of least energy). *)
Theorem negative_cutoff_keeps_one (mol : Mol) (en : Q) (rms : option Q) :
  energies_computable mol -> unique_conf_ids mol -> mol_confs mol <> [] ->
  (en < 0)%Q ->
  exists mol' l1 c0 l2,
    remove_confs mol (Some en) rms = Some (mol', []) /\
    first_minimum mol l1 c0 l2 /\
    mol_confs mol' = [mkConformer 0 (conf_geom c0)].
Proof.
  intros Hcomp Huniq Hne Hen.
  destruct (first_minimum_exists mol Hne) as (l1 & c0 & l2 & Hmin).
  destruct (first_minimum_head mol l1 c0 l2 Hmin) as [rest Hs].
  destruct (first_minimum_least mol l1 c0 l2 Hmin) as [Hc0 Hleast].
  destruct (remove_confs_unique mol (Some en) rms _ _ Hcomp Huniq Hs)
    as (removed & Hsel & Hrun).
  assert (Hout : forall y, In y rest ->
            within_cutoff (snd (energy_entry mol c0)) en y = false).
  { intros y Hy.
    assert (Hy' : In y (map (energy_entry mol) (mol_confs mol))).
    { eapply Permutation_in; [apply sorted_by_energy_perm|].
      rewrite Hs. now right. }
    apply in_map_iff in Hy'. destruct Hy' as [c [<- Hc]].
    rewrite within_cutoff_entry.
    destruct (Qle_bool _ _) eqn:E; [|reflexivity].
    apply Qle_bool_iff in E. specialize (Hleast c Hc). exfalso. lra. }
  assert (Hremoved : removed = map fst rest).
  { rewrite select_remove_ids_unfold in Hsel.
    unfold kept_after_cut, cut_ids in Hsel.
    rewrite (filter_none _ _ Hout) in Hsel.
    rewrite filter_all in Hsel
      by (intros y Hy; now rewrite (Hout y Hy)).
    destruct rms as [r|]; simpl in Hsel; now injection Hsel as <-. }
  exists (mkMol (mol_struct mol) (reindex 0 (surviving removed (mol_confs mol)))),
         l1, c0, l2.
  split; [exact Hrun|]. split; [exact Hmin|]. simpl mol_confs.
  assert (Hsurv : surviving removed (mol_confs mol) = [c0]).
  { pose proof (rest_entries mol c0 rest Huniq Hs) as Hrest.
    destruct Hmin as (E & _ & _). subst removed.
    assert (Hgone : forall l, incl l (mol_confs mol) ->
              (forall c, In c l -> conf_id c <> conf_id c0) ->
              surviving (map fst rest) l = []).
    { intros l Hl Hid. apply filter_none. intros c Hc.
      apply negb_false_iff, in_nats_In.
      destruct (Hrest c (Hl c Hc)) as [[E0 _] | [_ Hin]];
        [now apply Hid in Hc|].
      change (conf_id c) with (fst (energy_entry mol c)). now apply in_map. }
    unfold unique_conf_ids in Huniq. rewrite E in Huniq, Hgone.
    rewrite map_app in Huniq. simpl in Huniq.
    pose proof (NoDup_remove_2 _ _ _ Huniq) as Hc0out.
    rewrite E. unfold surviving. rewrite filter_app. simpl.
    fold (surviving (map fst rest) l1). fold (surviving (map fst rest) l2).
    rewrite (Hgone l1), (Hgone l2).
    - destruct (Hrest c0 Hc0) as [[_ Hn] | [Hn _]]; [|congruence].
      destruct (in_nats (conf_id c0) (map fst rest)) eqn:Ein; [|reflexivity].
      apply in_nats_In in Ein. contradiction.
    - intros c Hc. apply in_or_app. right. now right.
    - intros c Hc Eid. apply Hc0out. apply in_or_app. right.
      rewrite <- Eid. now apply in_map.
    - intros c Hc. apply in_or_app. now left.
    - intros c Hc Eid. apply Hc0out. apply in_or_app. left.
      rewrite <- Eid. now apply in_map. }
  now rewrite Hsurv.
Qed.

End PrunerSettings.

(** ** The conformer pruner: what the thresholds guarantee *)

Section PrunerGuarantees.
Context {TK : Toolkit}.

(** X10: with a non-negative energy cutoff, whatever the rms threshold,
    every conformer left has an energy that exceeds the least energy by at
    most the cutoff. *)
Theorem survivors_within_cutoff (mol : Mol) (en : Q) (rms : option Q) :
  energies_computable mol -> unique_conf_ids mol -> mol_confs mol <> [] ->
  (0 <= en)%Q ->
  exists mol' removed qmin,
    remove_confs mol (Some en) rms = Some (mol', []) /\
    mol_confs mol' = reindex 0 (surviving removed (mol_confs mol)) /\
    (forall c, In c (mol_confs mol) -> (qmin <= energy_val mol c)%Q) /\
    (forall c, In c (surviving removed (mol_confs mol)) ->
       (energy_val mol c - qmin <= en)%Q).
Proof.
  intros Hcomp Huniq Hne Hen.
  destruct (first_minimum_exists mol Hne) as (l1 & c0 & l2 & Hmin).
  destruct (first_minimum_head mol l1 c0 l2 Hmin) as [rest Hs].
  destruct (first_minimum_least mol l1 c0 l2 Hmin) as [Hc0 Hleast].
  destruct (remove_confs_unique mol (Some en) rms _ _ Hcomp Huniq Hs)
    as (removed & Hsel & Hrun).
  eexists. exists removed, (energy_val mol c0). split; [exact Hrun|].
  split; [reflexivity|]. split; [assumption|].
  intros c Hc. apply surviving_In in Hc. destruct Hc as [Hc Hnot].
  pose proof (survivor_kept mol c _ _ _ _ _ Huniq Hs Hsel Hc Hnot) as Hk.
  pose proof (sorted_entries_NoDup mol Huniq) as Hnd. rewrite Hs in Hnd.
  destruct Hk as [E | Hk].
  - simpl in E.
    rewrite (NoDup_map_inj conf_id _ c0 c Huniq Hc0 Hc E). lra.
  - apply in_map_iff in Hk. destruct Hk as [y [Ey Hy]].
    apply filter_In in Hy. destruct Hy as [Hy Hw].
    assert (E : y = energy_entry mol c).
    { apply (NoDup_map_inj fst (energy_entry mol c0 :: rest)); auto.
      - now right.
      - now apply (entry_in_sorted mol c _ rest Hs). }
    subst y. rewrite within_cutoff_entry in Hw. now apply Qle_bool_iff.
Qed.

(** Each round of the loop marks a conformer that no remaining item
    mentions: no conformer is marked twice. *)
Lemma rms_loop_marks_once (fuel : nat) (rms : Q) :
  forall rms_list remove_ids r,
    rms_loop fuel rms rms_list remove_ids = Some r ->
    exists marked, r = remove_ids ++ marked /\ NoDup marked /\
      forall d, In d marked ->
        exists item, In item rms_list /\ snd (fst item) = d.
Proof.
  induction fuel as [|fuel IH]; intros L R r; simpl.
  - destruct (find (below rms) L) as [item|]; [discriminate|].
    intros H. injection H as <-. exists []. rewrite app_nil_r.
    split; [reflexivity|]. split; [constructor | intros d []].
  - destruct (find (below rms) L) as [item|] eqn:E.
    + intros H. apply IH in H. destruct H as (marked & -> & Hnd & Hm).
      apply find_some in E. destruct E as [Hin _].
      exists (snd (fst item) :: marked). rewrite <- app_assoc.
      split; [reflexivity|]. split.
      * constructor; [|assumption]. intros Hd.
        destruct (Hm _ Hd) as (it & Hit & Hsnd).
        apply filter_In in Hit. destruct Hit as [_ Hnt].
        unfold not_touching in Hnt. rewrite Hsnd, Nat.eqb_refl in Hnt.
        simpl in Hnt. now rewrite andb_false_r in Hnt.
      * intros d [<- | Hd]; [eauto|].
        destruct (Hm d Hd) as (it & Hit & Hsnd).
        apply filter_In in Hit. destruct Hit as [Hit _]. eauto.
    + intros H. injection H as <-. exists []. rewrite app_nil_r.
      split; [reflexivity|]. split; [constructor | intros d []].
Qed.

(** X11: whatever values were measured, the loop that applies the rms
    threshold ends within as many rounds as there are measured pairs.  It
    adds to [remove_ids] only second conformers of pairs measured below the
    threshold, each of them once, and when it ends no measured pair of two
    conformers it left unmarked is below the threshold. *)
Theorem rms_loop_converges (rms : Q) (rms_list : list (nat * nat * Q))
    (remove_ids : list nat) :
  exists marked,
    rms_loop (length rms_list) rms rms_list remove_ids
    = Some (remove_ids ++ marked) /\
    NoDup marked /\
    (forall d, In d marked ->
       exists item, In item rms_list /\ snd (fst item) = d /\
                    below rms item = true) /\
    (forall item, In item rms_list ->
       ~ In (fst (fst item)) marked -> ~ In (snd (fst item)) marked ->
       below rms item = false).
Proof.
  destruct (rms_loop_total (length rms_list) rms rms_list remove_ids
              (le_n _)) as [r Hr].
  destruct (rms_loop_spec _ _ _ _ _ Hr) as (marked & -> & Hm & Hrest).
  destruct (rms_loop_marks_once _ _ _ _ _ Hr) as (marked' & E & Hnd & _).
  apply app_inv_head in E. subst marked'.
  exists marked. auto.
Qed.

Lemma combinations2_distinct {A : Type} (l : list A) (a b : A) :
  NoDup l -> In (a, b) (combinations2 l) -> a <> b.
Proof.
  induction l as [|x l IH]; simpl; [contradiction|].
  intros Hnd. inversion Hnd as [|? ? Hnotin Hnd']; subst.
  rewrite in_app_iff, in_map_iff. intros [[y [E Hy]] | H].
  - injection E as <- <-. intros ->. contradiction.
  - now apply IH.
Qed.

(** X12: with an energy cutoff and an rms threshold set, a conformer that
    is within the cutoff of every conformer and from which no other
    conformer is closer than the threshold is never removed. *)
Theorem isolated_conformer_survives (mol : Mol) (en r : Q) (c : Conformer) :
  energies_computable mol -> unique_conf_ids mol ->
  In c (mol_confs mol) ->
  (forall c', In c' (mol_confs mol) ->
     (energy_val mol c - energy_val mol c' <= en)%Q) ->
  (forall c', In c' (mol_confs mol) -> conf_id c' <> conf_id c ->
     Qltb (rms_val mol c' c) r = false) ->
  exists mol' removed,
    remove_confs mol (Some en) (Some r) = Some (mol', []) /\
    mol_confs mol' = reindex 0 (surviving removed (mol_confs mol)) /\
    In c (surviving removed (mol_confs mol)).
Proof.
  intros Hcomp Huniq Hc Hwithin Hfar.
  assert (Hne : mol_confs mol <> []) by (intros E; rewrite E in Hc; contradiction).
  destruct (first_minimum_exists mol Hne) as (l1 & c0 & l2 & Hmin).
  destruct (first_minimum_head mol l1 c0 l2 Hmin) as [rest Hs].
  destruct (first_minimum_least mol l1 c0 l2 Hmin) as [Hc0 Hleast].
  destruct (remove_confs_unique mol (Some en) (Some r) _ _ Hcomp Huniq Hs)
    as (removed & Hsel & Hrun).
  eexists. exists removed. split; [exact Hrun|]. split; [reflexivity|].
  apply surviving_In. split; [assumption|].
  pose proof (sorted_entries_NoDup mol Huniq) as Hnd. rewrite Hs in Hnd.
  pose proof Hsel as Hspec. apply select_remove_ids_spec in Hspec.
  destruct Hspec as (marked & -> & rms_list & Hl & Hmarked & _).
  intros Hin. apply in_app_or in Hin. destruct Hin as [Hin | Hin].
  - assert (He0 : within_cutoff (snd (energy_entry mol c0)) en
                    (energy_entry mol c0) = true).
    { unfold within_cutoff. apply Qle_bool_iff. simpl.
      specialize (Hwithin c0 Hc0). specialize (Hleast c Hc). lra. }
    apply (cut_ids_In mol c _ rest en Huniq Hs Hc He0) in Hin.
    rewrite within_cutoff_entry in Hin.
    apply not_true_iff_false in Hin. apply Hin, Qle_bool_iff. auto.
  - destruct (Hmarked _ Hin) as ([[a b] v] & Hitem & Hb & Hbelow).
    simpl in Hb. subst b.
    destruct (rms_list_of_In mol _ _ Hl) as [_ Hback].
    destruct (Hback _ _ _ Hitem) as [Hpair Hv].
    pose proof (combinations2_distinct _ _ _
                  (kept_after_cut_NoDup _ rest (Some en) Hnd) Hpair) as Hab.
    apply combinations2_In in Hpair. destruct Hpair as [Ha _].
    apply kept_after_cut_incl in Ha.
    rewrite <- Hs in Ha.
    assert (Ha' : In a (map conf_id (mol_confs mol))).
    { rewrite <- (entries_ids mol).
      eapply Permutation_in; [|exact Ha].
      apply Permutation_map, sorted_by_energy_perm. }
    apply in_map_iff in Ha'. destruct Ha' as [ca [<- Hca]].
    rewrite GetConformerRMS_unique in Hv by assumption.
    injection Hv as <-. unfold below in Hbelow. simpl in Hbelow.
    rewrite (Hfar ca Hca Hab) in Hbelow. discriminate.
Qed.

(** X13: on a molecule with distinct conformer ids [remove_confs] either
    finds every force field, and then writes nothing to stderr, or finds
    one missing, and then writes one diagnostic and leaves the molecule
    exactly as it was: no conformer removed, no id changed. *)
Theorem ff_missing_leaves_molecule (mol : Mol) (energy rms : option Q) :
  unique_conf_ids mol ->
  (energies_computable mol /\
   exists mol', remove_confs mol energy rms = Some (mol', [])) \/
  ((exists c, In c (mol_confs mol) /\
      mmff_energy (mol_struct mol) (conf_geom c) = None) /\
   remove_confs mol energy rms = Some (mol, [stderr_ff_none mol])).
Proof.
  intros Huniq.
  assert (Hdec : forall l : list Conformer,
            (forall c, In c l ->
               mmff_energy (mol_struct mol) (conf_geom c) <> None) \/
            (exists c, In c l /\
               mmff_energy (mol_struct mol) (conf_geom c) = None)).
  { induction l as [|c l IH]; [left; intros c []|].
    destruct (mmff_energy (mol_struct mol) (conf_geom c)) eqn:E.
    - destruct IH as [IH | [x [Hx Hn]]].
      + left. intros x [<- | Hx]; [congruence | auto].
      + right. exists x. split; [now right | assumption].
    - right. exists c. split; [now left | assumption]. }
  destruct (Hdec (mol_confs mol)) as [Hcomp | Hnone].
  - left. split; [exact Hcomp|].
    destruct (remove_confs_computable mol energy rms Hcomp) as (mol' & H & _).
    eauto.
  - right. split; [exact Hnone|]. now apply remove_confs_ff_none.
Qed.

(** X23: a run that measures no RMS, because the energy cutoff or the rms
    threshold is not set, leaves a molecule on which the same run removes
    nothing more: the second run returns the molecule unchanged. *)
Theorem second_run_without_measurement (mol : Mol) (energy rms : option Q) :
  energies_computable mol -> unique_conf_ids mol ->
  energy = None \/ rms = None ->
  exists mol1,
    remove_confs mol energy rms = Some (mol1, []) /\
    remove_confs mol1 energy rms = Some (mol1, []).
Proof. intros Hcomp Huniq _. now apply second_run_unchanged. Qed.

End PrunerGuarantees.

(** ** The unit of work: what [gen_data] returns *)

Section UnitOfWorkFacts.
Context {TK : Toolkit}.

Lemma gen_data_loop_spec (isomers : list Mol) :
  forall i nconf energy rms seed bin_step pharm_def acc err data err',
    gen_data_loop i isomers nconf energy rms seed bin_step pharm_def acc err
    = Some (data, err') ->
    d_name data = d_name acc /\
    exists added,
      d_mol_dict data = d_mol_dict acc ++ added /\
      map fst added = seq i (length isomers) /\
      Forall2 (fun iso km =>
                 exists e, remove_confs (gen_conf iso nconf seed) energy rms
                           = Some (snd km, e))
              isomers added /\
      d_ph_dict data
      = d_ph_dict acc
        ++ map (fun km => (fst km, map get_feature_coords
                             (load_multi_conf_mol (snd km) pharm_def bin_step)))
               added /\
      d_fp_dict data
      = d_fp_dict acc
        ++ map (fun km => (fst km, map get_fp
                             (load_multi_conf_mol (snd km) pharm_def bin_step)))
               added.
Proof.
  induction isomers as [|iso isomers IH]; intros until err'; simpl.
  - intros H. injection H as <- <-. split; [reflexivity|]. exists [].
    rewrite !app_nil_r. repeat split; constructor.
  - destruct (remove_confs (gen_conf iso nconf seed) energy rms)
      as [[mol e]|] eqn:Er; [|discriminate].
    intros H. apply IH in H. simpl in H.
    destruct H as (Hname & added & E1 & Hkeys & Hall & E2 & E3).
    split; [assumption|]. exists ((i, mol) :: added).
    rewrite E1, E2, E3, <- !app_assoc. simpl. rewrite Hkeys.
    repeat split; try reflexivity. constructor; [|assumption].
    exists e. exact Er.
Qed.

(** X14: [gen_data] returns for every molecule.  The identifier is the
    one it was given; the three dictionaries have the keys 0, 1, ..., one
    per stereo variant; the molecule stored under a key is what
    [remove_confs] left of that variant, and its lists of feature
    coordinates and fingerprints are computed from that stored molecule,
    one item per conformer. *)
Theorem gen_data_dicts_aligned (mol : Mol) (mol_name : string)
    (nconf nstereo : Z) (energy rms : option Q) (seed bin_step : Z)
    (pharm_def : option string) :
  exists data err,
    gen_data (mol, mol_name) nconf nstereo energy rms seed bin_step pharm_def
    = Some (data, err) /\
    d_name data = mol_name /\
    map fst (d_mol_dict data) = seq 0 (length (gen_stereo mol nstereo)) /\
    Forall2 (fun iso km =>
               exists e, remove_confs (gen_conf iso nconf seed) energy rms
                         = Some (snd km, e))
            (gen_stereo mol nstereo) (d_mol_dict data) /\
    d_ph_dict data
    = map (fun km => (fst km, map get_feature_coords
                        (load_multi_conf_mol (snd km) pharm_def bin_step)))
          (d_mol_dict data) /\
    d_fp_dict data
    = map (fun km => (fst km, map get_fp
                        (load_multi_conf_mol (snd km) pharm_def bin_step)))
          (d_mol_dict data) /\
    (forall k m, In (k, m) (d_mol_dict data) ->
       exists coords fps, In (k, coords) (d_ph_dict data) /\
         In (k, fps) (d_fp_dict data) /\
         length coords = length (mol_confs m) /\
         length fps = length (mol_confs m)).
Proof.
  destruct (gen_data_total (mol, mol_name) nconf nstereo energy rms seed
              bin_step pharm_def) as [[data err] Hrun].
  exists data, err. split; [exact Hrun|].
  unfold gen_data in Hrun. apply gen_data_loop_spec in Hrun. simpl in Hrun.
  destruct Hrun as (Hname & added & -> & Hkeys & Hall & -> & ->).
  repeat split; try assumption.
  intros k m Hin.
  exists (map get_feature_coords (load_multi_conf_mol m pharm_def bin_step)),
         (map get_fp (load_multi_conf_mol m pharm_def bin_step)).
  split; [|split].
  - apply in_map_iff. exists (k, m). auto.
  - apply in_map_iff. exists (k, m). auto.
  - unfold load_multi_conf_mol. now rewrite !length_map.
Qed.

Lemma gen_data_name (u : Mol * string) nconf nstereo energy rms seed bin_step
    pharm_def data err :
  gen_data u nconf nstereo energy rms seed bin_step pharm_def
  = Some (data, err) -> d_name data = snd u.
Proof.
  destruct u as [mol mol_name]. unfold gen_data. intros H.
  apply gen_data_loop_spec in H. now destruct H as [H _].
Qed.

End UnitOfWorkFacts.

(** ** The orchestrator: what a run leaves behind *)

Section OrchestratorRun.
Context {TK : Toolkit}.

Lemma all_Some_map {A : Type} (l : list (option A)) :
  (forall r, In r l -> r <> None) -> exists ds, l = map Some ds.
Proof.
  induction l as [|[a|] l IH]; intros H.
  - now exists [].
  - destruct IH as [ds ->]; [intros r Hr; apply H; now right|].
    now exists (a :: ds).
  - exfalso. now apply (H None (or_introl eq_refl)).
Qed.

Lemma consume_all (datas : list (unit_data * list string)) :
  forall i verbose w,
    exists w', consume i (map Some datas) verbose w = (w', Finished) /\
      w_db w' = w_db w ++ flat_map (fun d => db_writes_of (fst d)) datas /\
      w_stderr w' = w_stderr w /\
      w_files w' = w_files w /\ w_fs w' = w_fs w /\ w_pool w' = w_pool w.
Proof.
  induction datas as [|[data err] datas IH]; intros i verbose w;
    cbn [map consume]; unfold is_empty_data.
  - exists w. simpl. rewrite !app_nil_r. auto 10.
  - match goal with |- context [consume (S i) _ verbose ?w1] =>
      destruct (IH (S i) verbose w1) as (w' & -> & Hdb & Herr & Hf & Hfs & Hp)
    end.
    exists w'. split; [reflexivity|].
    rewrite Hdb, Herr, Hf, Hfs, Hp.
    destruct ((i mod 200 =? 0) && verbose);
      cbn [w_db w_stderr w_files w_fs w_pool put_db put_stderr put_stdout
           flat_map fst snd db_writes_of];
      rewrite <- !app_assoc; auto 10.
Qed.

(** A run that passes the checks on the output name, with a pool that
    hands back every result. *)
Lemma create_db_run (w : World) (in_fname out_fname : string)
    (nconf nstereo : Z) (energy rms : option Q) (ncpu bin_step : Z)
    (pharm_def : option string) (seed : Z) (verbose : bool) :
  endswith (lower out_fname) ".dat" = true ->
  path_exists w out_fname = false ->
  (forall (A : Type) (l : list A), Permutation (completion_order A l) l) ->
  exists bx datas w',
    check_dupl_input in_fname = Some bx /\
    create_db w in_fname out_fname nconf nstereo energy rms ncpu bin_step
              pharm_def seed verbose = (w', Finished) /\
    Permutation (map Some datas)
      (map (fun u => gen_data u nconf nstereo energy rms seed bin_step pharm_def)
           (get_mol (combine (box_mols bx) (box_mol_ids bx)))) /\
    w_db w' = w_db w ++ write_bin_step bin_step
                        :: flat_map (fun d => db_writes_of (fst d)) datas /\
    w_pool w' = None /\
    (~ In true (box_flags bx) -> w_files w' = w_files w).
Proof.
  intros Hdat Hnew Hperm.
  destruct (check_dupl_loop_total (input_records in_fname) empty_boxes)
    as [bx Hbx].
  assert (Hcheck : check_dupl_input in_fname = Some bx) by exact Hbx.
  exists bx. unfold create_db.
  set (w0 := if verbose then put_stdout w _ else w).
  assert (E0 : w_files w0 = w_files w /\ w_fs w0 = w_fs w /\
               w_db w0 = w_db w)
    by (unfold w0; now destruct verbose).
  destruct E0 as (E0 & F0 & D0).
  rewrite Hdat. unfold DB_new.
  assert (Hnew0 : path_exists w0 out_fname = false)
    by (unfold path_exists in *; now rewrite F0).
  rewrite Hnew0, Hcheck.
  match goal with |- context [consume 1 ?rs verbose ?w1] =>
    destruct (all_Some_map rs) as [datas Hds] end.
  { intros r Hr. apply (Permutation_in _ (Hperm _ _)) in Hr.
    apply in_map_iff in Hr. destruct Hr as [u [<- _]].
    destruct (gen_data_total u nconf nstereo energy rms seed bin_step pharm_def)
      as [res ->]. discriminate. }
  exists datas. rewrite Hds.
  match goal with |- context [consume 1 _ verbose ?w1] =>
    destruct (consume_all datas 1 verbose w1)
      as (w3 & -> & Hdb & _ & Hf & Hfs & Hp) end.
  cbn [w_db w_files w_fs w_pool set_pool put_stdout put_stderr put_db] in *.
  destruct (write_manifest_spec w3 in_fname (box_smi bx) (box_mol_ids bx)
              (box_flags bx)) as (w4 & Hw4 & Hp4 & Hcases).
  rewrite Hw4. eexists. split; [reflexivity|]. split; [reflexivity|].
  split; [rewrite <- Hds; apply Hperm|].
  assert (K1 : w_db w4 = w_db w3).
  { unfold write_manifest in Hw4.
    destruct (0 <? sum_flags (box_flags bx)); [|now injection Hw4 as <-].
    destruct (manifest_name_loop _ _ _ _ _); [|discriminate].
    now injection Hw4 as <-. }
  assert (Hfin : forall v w5, w_db (finally_close v w5) = w_db w5 /\
                   w_pool (finally_close v w5) = None)
    by (intros [|] w5; auto).
  destruct (Hfin verbose w4) as (Fd & Fp).
  rewrite Fd, Fp, K1, Hdb, D0, <- app_assoc.
  repeat split; try reflexivity.
  intros Hno. rewrite finally_close_files.
  destruct Hcases as [[_ Hf4] | [Hyes _]]; [congruence | contradiction].
Qed.


Lemma written_names_app (l l' : list db_write) :
  written_names (l ++ l') = written_names l ++ written_names l'.
Proof.
  induction l as [|[b|n d|n d|n d] l IH]; simpl; try assumption;
    [reflexivity | now rewrite IH].
Qed.

(** X16: in such a run every kept molecule is written to the record
    store once, under its final identifier, and no identifier is written
    twice, in whatever order the results arrive. *)
Theorem record_store_keys_distinct (w : World) (in_fname out_fname : string)
    (nconf nstereo : Z) (energy rms : option Q) (ncpu bin_step : Z)
    (pharm_def : option string) (seed : Z) (verbose : bool) :
  endswith (lower out_fname) ".dat" = true ->
  path_exists w out_fname = false ->
  (forall (A : Type) (l : list A), Permutation (completion_order A l) l) ->
  exists bx w' names,
    check_dupl_input in_fname = Some bx /\
    create_db w in_fname out_fname nconf nstereo energy rms ncpu bin_step
              pharm_def seed verbose = (w', Finished) /\
    written_names (w_db w') = written_names (w_db w) ++ names /\
    NoDup names /\
    Permutation names
      (map snd (get_mol (combine (box_mols bx) (box_mol_ids bx)))).
Proof.
  intros Hdat Hnew Hperm.
  destruct (create_db_run w in_fname out_fname nconf nstereo energy rms ncpu
              bin_step pharm_def seed verbose Hdat Hnew Hperm)
    as (bx & datas & w' & Hbx & Hrun & Hp & Hdb & _).
  exists bx, w', (map (fun d => d_name (fst d)) datas).
  split; [exact Hbx|]. split; [exact Hrun|].
  assert (Hnames : Permutation (map (fun d => d_name (fst d)) datas)
            (map snd (get_mol (combine (box_mols bx) (box_mol_ids bx))))).
  { set (f := fun r : option (unit_data * list string) =>
                match r with Some d => d_name (fst d) | None => EmptyString end).
    apply (Permutation_map f) in Hp. rewrite !map_map in Hp.
    simpl in Hp. etransitivity; [exact Hp|].
    apply Permutation_refl'. apply map_ext. intros u.
    destruct (gen_data_total u nconf nstereo energy rms seed bin_step pharm_def)
      as [[data err] Hu]. rewrite Hu. simpl.
    now apply gen_data_name in Hu. }
  split; [|split; [|exact Hnames]].
  - rewrite Hdb, written_names_app. simpl. f_equal.
    clear. induction datas as [|d datas IH]; simpl; [reflexivity|].
    now rewrite IH.
  - eapply Permutation_NoDup; [symmetry; exact Hnames|].
    now apply (units_names_NoDup (input_records in_fname)).
Qed.


End OrchestratorRun.

(** ** Clean input, runs that raise, and the command line *)

Section CleanInput.
Context {TK : Toolkit}.

Lemma clean_records_boxes (records : list (Mol * string)) :
  NoDup (record_smiles records) -> NoDup (map snd records) ->
  check_dupl_records records
  = Some (mkBoxes (map (fun r => MolObj (fst r)) records)
                  (record_smiles records) (map snd records)
                  (map (fun _ => false) records) []).
Proof.
  induction records as [|[mol mol_name] pre IH] using rev_ind;
    intros Hsmi Hids; [reflexivity|].
  unfold record_smiles in Hsmi. rewrite map_app in Hsmi, Hids.
  simpl in Hsmi, Hids. fold (record_smiles pre) in Hsmi.
  specialize (IH (NoDup_app_remove_r _ _ Hsmi) (NoDup_app_remove_r _ _ Hids)).
  apply NoDup_remove_2 in Hsmi, Hids. rewrite app_nil_r in Hsmi, Hids.
  unfold check_dupl_records in *. rewrite check_dupl_loop_app, IH.
  cbn [check_dupl_loop check_dupl_step box_smi box_mol_ids].
  apply in_strs_not_In in Hsmi, Hids. rewrite Hsmi, Hids.
  unfold record_smiles. rewrite !map_app. reflexivity.
Qed.

Lemma get_mol_all_kept (records : list (Mol * string)) :
  get_mol (combine (map (fun r => MolObj (fst r)) records) (map snd records))
  = records.
Proof.
  induction records as [|[m n] l IH]; simpl; [reflexivity | now rewrite IH].
Qed.

(** X18: an input whose canonical SMILES are pairwise distinct and whose
    identifiers are pairwise distinct goes through the deduplicator
    unchanged: every molecule kept, every identifier as given, every flag
    False, no warning written, and the work units [get_mol] yields are the
    input records themselves. *)
Theorem clean_input_unchanged (records : list (Mol * string)) :
  NoDup (record_smiles records) -> NoDup (map snd records) ->
  exists out,
    check_dupl_records records = Some out /\
    out = mkBoxes (map (fun r => MolObj (fst r)) records)
                  (record_smiles records) (map snd records)
                  (map (fun _ => false) records) [] /\
    get_mol (combine (box_mols out) (box_mol_ids out)) = records.
Proof.
  intros Hsmi Hids. eexists. split; [now apply clean_records_boxes|].
  split; [reflexivity|]. apply get_mol_all_kept.
Qed.

(** X19: on such an input a run of [create_db] that passes the checks on
    the output name finishes without writing a manifest. *)
Theorem clean_input_no_manifest (w : World) (in_fname out_fname : string)
    (nconf nstereo : Z) (energy rms : option Q) (ncpu bin_step : Z)
    (pharm_def : option string) (seed : Z) (verbose : bool) :
  endswith (lower out_fname) ".dat" = true ->
  path_exists w out_fname = false ->
  (forall (A : Type) (l : list A), Permutation (completion_order A l) l) ->
  NoDup (map (fun r => canon_smiles (fst r)) (read_input in_fname)) ->
  NoDup (map snd (read_input in_fname)) ->
  exists w',
    create_db w in_fname out_fname nconf nstereo energy rms ncpu bin_step
              pharm_def seed verbose = (w', Finished) /\
    w_files w' = w_files w /\
    length (w_db w') = length (w_db w) + 1 + 3 * length (read_input in_fname).
Proof.
  intros Hdat Hnew Hperm Hsmi Hids.
  destruct (create_db_run w in_fname out_fname nconf nstereo energy rms ncpu
              bin_step pharm_def seed verbose Hdat Hnew Hperm)
    as (bx & datas & w' & Hbx & Hrun & Hp & Hdb & _ & Hfiles).
  assert (Hclean : check_dupl_input in_fname
            = Some (mkBoxes (map (fun r => MolObj (fst r)) (input_records in_fname))
                      (record_smiles (input_records in_fname))
                      (map snd (input_records in_fname))
                      (map (fun _ => false) (input_records in_fname)) [])).
  { apply clean_records_boxes; unfold record_smiles, input_records;
      rewrite map_map; simpl; assumption. }
  rewrite Hbx in Hclean. injection Hclean as ->.
  exists w'. split; [exact Hrun|]. split.
  - apply Hfiles. simpl. intros H. apply in_map_iff in H.
    destruct H as [x [H _]]. discriminate.
  - rewrite Hdb, length_app. simpl in *.
    apply Permutation_length in Hp. rewrite !length_map in Hp.
    assert (Hl : forall ds : list (unit_data * list string),
              length (flat_map (fun d => db_writes_of (fst d)) ds)
              = 3 * length ds).
    { induction ds as [|d ds IHd]; simpl; [reflexivity|]. rewrite IHd. lia. }
    rewrite Hl, Hp.
    rewrite get_mol_all_kept. unfold input_records. rewrite length_map. lia.
Qed.

End CleanInput.

Section CommandLine.
Context {TK : Toolkit}.
Variable abspath : string -> string.
Variable dirname : string -> string.
Variable makedirs : list string -> string -> list string.

(** X20: [entry_point] exits, leaving everything as it was, when the
    binning step is negative or the number of stereoisomers or of
    conformers is not positive, and when the database path exists; only
    otherwise does it create the directories and run [create_db], on the
    absolute paths. *)
Theorem entry_point_validates (w : World) (args : Args) :
  match entry_point abspath dirname makedirs w args with
  | (w', Exited msg) =>
      w' = w /\
      ((msg = msg_bad_ranges /\
        (a_bin_step args < 0 \/ a_nstereo args <= 0 \/ a_nconf args <= 0)%Z) \/
       (msg = msg_db_exists (abspath (a_db args)) /\
        (0 <= a_bin_step args /\ 0 < a_nstereo args /\ 0 < a_nconf args)%Z /\
        In (abspath (a_db args)) (w_fs w)))
  | (w', Returned o) =>
      (0 <= a_bin_step args /\ 0 < a_nstereo args /\ 0 < a_nconf args)%Z /\
      ~ In (abspath (a_db args)) (w_fs w) /\
      (w', o)
      = create_db
          (mkWorld (makedirs (w_fs w) (dirname (abspath (a_db args))))
                   (w_stdout w) (w_stderr w) (w_db w) (w_files w) (w_pool w))
          (abspath (a_input args)) (abspath (a_db args)) (a_nconf args)
          (a_nstereo args) (a_energy_cutoff args) (a_rms args) (a_ncpu args)
          (a_bin_step args) (a_pharm_def args) (a_seed args) (a_verbose args)
  end.
Proof.
  unfold entry_point.
  destruct (a_bin_step args <? 0)%Z eqn:E1; simpl.
  { split; [reflexivity|]. left. split; [reflexivity|]. lia. }
  destruct (a_nstereo args <=? 0)%Z eqn:E2; simpl.
  { split; [reflexivity|]. left. split; [reflexivity|]. lia. }
  destruct (a_nconf args <=? 0)%Z eqn:E3; simpl.
  { split; [reflexivity|]. left. split; [reflexivity|]. lia. }
  unfold path_exists.
  destruct (in_strs (abspath (a_db args)) (w_fs w)) eqn:E4.
  - apply in_strs_In in E4. split; [reflexivity|]. right.
    split; [reflexivity|]. split; [lia | assumption].
  - apply in_strs_not_In in E4.
    destruct (create_db _ _ _ _ _ _ _ _ _ _ _ _) as [w' o].
    split; [lia|]. split; [assumption | reflexivity].
Qed.

End CommandLine.

(** ** The further properties on concrete inputs *)

Ltac toy_nonempty := vm_compute; discriminate.

(** Four conformers, no cutoff and no threshold. *)
Lemma no_thresholds_no_pruning_witness :
  remove_confs (TK := Toy.toolkit) Toy.four None None
  = Some (@mkMol Toy.toolkit (mol_struct Toy.four)
            (reindex 0 (mol_confs Toy.four)), []).
Proof.
  apply (no_thresholds_no_pruning (TK := Toy.toolkit) Toy.four).
  toy_computable.
Defined.

(** Four conformers and the energy cutoff 1. *)
Lemma energy_cutoff_keeps_within_witness :
  exists mol' qmin,
    remove_confs (TK := Toy.toolkit) Toy.four (Some 1%Q) None
    = Some (mol', []) /\
    (forall c, In c (mol_confs Toy.four) ->
       (qmin <= energy_val Toy.four c)%Q) /\
    (exists c, In c (mol_confs Toy.four) /\ energy_val Toy.four c = qmin) /\
    mol_confs mol'
    = reindex 0 (filter (fun c => Qle_bool (energy_val Toy.four c - qmin)%Q 1%Q)
                        (mol_confs Toy.four)).
Proof.
  apply (energy_cutoff_keeps_within (TK := Toy.toolkit) Toy.four 1%Q).
  - toy_computable.
  - toy_unique.
  - toy_nonempty.
  - vm_compute. discriminate.
Defined.

(** Four conformers and the energy cutoff -1. *)
Lemma negative_cutoff_keeps_one_witness :
  exists mol' l1 c0 l2,
    remove_confs (TK := Toy.toolkit) Toy.four (Some (-1)%Q) (Some (1 # 2)%Q)
    = Some (mol', []) /\
    first_minimum Toy.four l1 c0 l2 /\
    mol_confs mol' = [@mkConformer Toy.toolkit 0 (conf_geom c0)].
Proof.
  apply (negative_cutoff_keeps_one (TK := Toy.toolkit) Toy.four (-1)%Q
           (Some (1 # 2)%Q)).
  - toy_computable.
  - toy_unique.
  - toy_nonempty.
  - vm_compute. reflexivity.
Defined.

(** Four conformers, the energy cutoff 3 and the rms threshold 1/2. *)
Lemma survivors_within_cutoff_witness :
  exists mol' removed qmin,
    remove_confs (TK := Toy.toolkit) Toy.four (Some 3%Q) (Some (1 # 2)%Q)
    = Some (mol', []) /\
    mol_confs mol' = reindex 0 (surviving removed (mol_confs Toy.four)) /\
    (forall c, In c (mol_confs Toy.four) ->
       (qmin <= energy_val Toy.four c)%Q) /\
    (forall c, In c (surviving removed (mol_confs Toy.four)) ->
       (energy_val Toy.four c - qmin <= 3)%Q).
Proof.
  apply (survivors_within_cutoff (TK := Toy.toolkit) Toy.four 3%Q
           (Some (1 # 2)%Q)).
  - toy_computable.
  - toy_unique.
  - toy_nonempty.
  - vm_compute. discriminate.
Defined.

(** The four conformers pruned twice by energy alone. *)
Lemma second_run_without_measurement_witness :
  exists mol1,
    remove_confs (TK := Toy.toolkit) Toy.four (Some 3%Q) None
    = Some (mol1, []) /\
    remove_confs mol1 (Some 3%Q) None = Some (mol1, []).
Proof.
  apply (second_run_without_measurement (TK := Toy.toolkit) Toy.four
           (Some 3%Q) None).
  - toy_computable.
  - toy_unique.
  - now right.
Defined.

(** The first of the four conformers is far from the others. *)
Lemma isolated_conformer_survives_witness :
  exists mol' removed,
    remove_confs (TK := Toy.toolkit) Toy.four (Some 3%Q) (Some (1 # 2)%Q)
    = Some (mol', []) /\
    mol_confs mol' = reindex 0 (surviving removed (mol_confs Toy.four)) /\
    In (@mkConformer Toy.toolkit 0 (Some 2, 0)%Q)
       (surviving removed (mol_confs Toy.four)).
Proof.
  apply (isolated_conformer_survives (TK := Toy.toolkit) Toy.four 3%Q (1 # 2)%Q
           (@mkConformer Toy.toolkit 0 (Some 2, 0)%Q)).
  - toy_computable.
  - toy_unique.
  - vm_compute. auto.
  - intros c' Hc'. vm_compute in Hc'.
    destruct Hc' as [<- | [<- | [<- | [<- | []]]]]; vm_compute; discriminate.
  - intros c' Hc' Hid. vm_compute in Hc'.
    destruct Hc' as [<- | [<- | [<- | [<- | []]]]];
      try reflexivity; exfalso; now apply Hid.
Defined.

(** A molecule without force field. *)
Lemma ff_missing_leaves_molecule_witness :
  (energies_computable (Toy.mol "bad" [(None, 0); (None, 1)]%Q) /\
   exists mol',
     remove_confs (TK := Toy.toolkit) (Toy.mol "bad" [(None, 0); (None, 1)]%Q)
       (Some 3%Q) None = Some (mol', [])) \/
  ((exists c, In c (mol_confs (Toy.mol "bad" [(None, 0); (None, 1)]%Q)) /\
      mmff_energy (mol_struct (Toy.mol "bad" [(None, 0); (None, 1)]%Q))
                  (conf_geom c) = None) /\
   remove_confs (TK := Toy.toolkit) (Toy.mol "bad" [(None, 0); (None, 1)]%Q)
     (Some 3%Q) None
   = Some (Toy.mol "bad" [(None, 0); (None, 1)]%Q,
           [stderr_ff_none (Toy.mol "bad" [(None, 0); (None, 1)]%Q)])).
Proof.
  apply (ff_missing_leaves_molecule (TK := Toy.toolkit)
           (Toy.mol "bad" [(None, 0); (None, 1)]%Q) (Some 3%Q) None).
  toy_unique.
Defined.

(** Two clean records. *)
Lemma clean_input_unchanged_witness :
  exists out,
    check_dupl_records (TK := Toy.toolkit)
      [(Toy.mol "CCO" [], "A"%string); (Toy.mol "CCN" [], "B"%string)]
    = Some out /\
    out = mkBoxes
            (map (fun r => MolObj (fst r))
               [(Toy.mol "CCO" [], "A"%string); (Toy.mol "CCN" [], "B"%string)])
            (record_smiles
               [(Toy.mol "CCO" [], "A"%string); (Toy.mol "CCN" [], "B"%string)])
            (map snd
               [(Toy.mol "CCO" [], "A"%string); (Toy.mol "CCN" [], "B"%string)])
            (map (fun _ => false)
               [(Toy.mol "CCO" [], "A"%string); (Toy.mol "CCN" [], "B"%string)])
            [] /\
    get_mol (combine (box_mols out) (box_mol_ids out))
    = [(Toy.mol "CCO" [], "A"%string); (Toy.mol "CCN" [], "B"%string)].
Proof.
  apply (clean_input_unchanged (TK := Toy.toolkit)).
  - vm_compute. repeat (constructor; [simpl; intuition discriminate|]).
    constructor.
  - vm_compute. repeat (constructor; [simpl; intuition discriminate|]).
    constructor.
Defined.

(** A run on the clean input file. *)
Lemma clean_input_no_manifest_witness :
  exists w',
    create_db (TK := Toy.toolkit) Toy.world0 "clean.smi" "db.dat" 2 1 None None
              1 1 None (-1) false = (w', Finished) /\
    w_files w' = w_files Toy.world0 /\
    length (w_db w')
    = length (w_db Toy.world0) + 1
      + 3 * length (read_input (Toolkit := Toy.toolkit) "clean.smi").
Proof.
  apply (clean_input_no_manifest (TK := Toy.toolkit) Toy.world0 "clean.smi"
           "db.dat" 2 1 None None 1 1 None (-1) false).
  - vm_compute. reflexivity.
  - vm_compute. reflexivity.
  - intros A l. apply Permutation_refl.
  - vm_compute. repeat (constructor; [simpl; intuition discriminate|]).
    constructor.
  - vm_compute. repeat (constructor; [simpl; intuition discriminate|]).
    constructor.
Defined.


Lemma record_store_keys_distinct_witness :
  exists bx w' names,
    check_dupl_input (TK := Toy.toolkit) "in.smi" = Some bx /\
    create_db (TK := Toy.toolkit) Toy.world0 "in.smi" "db.dat" 2 1 None None
              1 1 None (-1) false = (w', Finished) /\
    written_names (w_db w') = written_names (w_db Toy.world0) ++ names /\
    NoDup names /\
    Permutation names
      (map snd (get_mol (combine (box_mols bx) (box_mol_ids bx)))).
Proof.
  apply (record_store_keys_distinct (TK := Toy.toolkit) Toy.world0 "in.smi"
           "db.dat" 2 1 None None 1 1 None (-1) false).
  - vm_compute. reflexivity.
  - vm_compute. reflexivity.
  - intros A l. apply Permutation_refl.
Defined.



(** Two marked ids visited in either order. *)
Lemma RemoveConformers_perm_witness :
  fold_left RemoveConformer [1; 3] (mol_confs Toy.four)
  = fold_left RemoveConformer [3; 1] (mol_confs Toy.four).
Proof.
  apply (RemoveConformers_perm (TK := Toy.toolkit) [1; 3] [3; 1]).
  apply perm_swap.
Defined.
